(** * TASM: a shallow embedding of the assembler/linker core

    The development follows the Python sources of the repository:
    - [numeric_parser.py]  -> Module [NumericParser]
    - [data_directives.py] -> Module [DataDirective]
    - [instruction_loader.py], [instruction_encoder.py] -> Modules [Loader], [Encoder]
    - [assembler.py] -> Module [Assembler]
    - [linker.py] -> Module [Linker]

    Python [str] values are modelled as lists of ASCII characters (the
    model is restricted to code points below 128; characters above are
    treated as ordinary non-blank, non-alphabetic symbols).  Python [int]
    is [Z].  A raised [ValueError] is [None]. *)

From Stdlib Require Import ZArith List Ascii String Lia Bool.
From stdpp Require Import gmap strings list fin_maps sorting.
Import ListNotations.
Open Scope Z_scope.

(** ** Python string primitives *)

Module PyStr.

Definition str := list ascii.

(** String literals of the development. *)
Definition L (s : string) : str := list_ascii_of_string s.

Definition code (c : ascii) : N := N_of_ascii c.

Definition ch_eqb (a b : ascii) : bool := Ascii.eqb a b.

Fixpoint str_eqb (a b : str) : bool :=
  match a, b with
  | [], [] => true
  | x :: a', y :: b' => ch_eqb x y && str_eqb a' b'
  | _, _ => false
  end.

(** [str.isspace] on one ASCII character: TAB, LF, VT, FF, CR, FS, GS, RS,
    US and SPACE. *)
Definition is_space (c : ascii) : bool :=
  let n := code c in
  ((9 <=? n) && (n <=? 13) || (28 <=? n) && (n <=? 32))%N.

Definition is_digit (c : ascii) : bool :=
  let n := code c in ((48 <=? n) && (n <=? 57))%N.

Definition is_upper (c : ascii) : bool :=
  let n := code c in ((65 <=? n) && (n <=? 90))%N.

Definition is_lower (c : ascii) : bool :=
  let n := code c in ((97 <=? n) && (n <=? 122))%N.

Definition is_alpha (c : ascii) : bool := is_upper c || is_lower c.

Definition lower_ch (c : ascii) : ascii :=
  if is_upper c then ascii_of_N (code c + 32) else c.

Definition upper_ch (c : ascii) : ascii :=
  if is_lower c then ascii_of_N (code c - 32) else c.

Definition lower (s : str) : str := map lower_ch s.
Definition upper (s : str) : str := map upper_ch s.

Fixpoint lstrip (s : str) : str :=
  match s with
  | c :: r => if is_space c then lstrip r else s
  | [] => []
  end.

Definition rstrip (s : str) : str := rev (lstrip (rev s)).

Definition strip (s : str) : str := rstrip (lstrip s).

Fixpoint startswith (s p : str) : bool :=
  match p, s with
  | [], _ => true
  | x :: p', y :: s' => ch_eqb x y && startswith s' p'
  | _ :: _, [] => false
  end.

Definition endswith (s p : str) : bool := startswith (rev s) (rev p).

(** [s[:-1]] *)
Definition drop_last (s : str) : str := removelast s.

(** [s.replace(c, '')] for a one-character [c]. *)
Definition remove_ch (c : ascii) (s : str) : str :=
  filter (fun x => negb (ch_eqb x c)) s.

(** [c in s] for a one-character [c]. *)
Definition ch_in (c : ascii) (s : str) : bool := existsb (ch_eqb c) s.

(** [sub in s] for a non-empty pattern. *)
Fixpoint contains (s p : str) : bool :=
  startswith s p ||
  match s with
  | [] => false
  | _ :: r => contains r p
  end.

(** [s.find(c)] for a one-character [c]: index of the first occurrence. *)
Fixpoint find_ch (c : ascii) (s : str) : option nat :=
  match s with
  | [] => None
  | x :: r => if ch_eqb x c then Some O else option_map S (find_ch c r)
  end.

(** [s.split(c)] for a one-character separator: never returns the empty list. *)
Fixpoint split_ch (c : ascii) (s : str) : list str :=
  match s with
  | [] => [[]]
  | x :: r =>
      if ch_eqb x c then [] :: split_ch c r
      else match split_ch c r with
           | w :: ws => (x :: w) :: ws
           | [] => [[x]]
           end
  end.

(** [s.split()] : split on runs of blanks, dropping empty fields. *)
Fixpoint split_ws_aux (cur : str) (s : str) : list str :=
  match s with
  | [] => match cur with [] => [] | _ => [rev cur] end
  | x :: r =>
      if is_space x
      then match cur with [] => split_ws_aux [] r | _ => rev cur :: split_ws_aux [] r end
      else split_ws_aux (x :: cur) r
  end.

Definition split_ws (s : str) : list str := split_ws_aux [] s.

(** [s.split(None, 1)]: the first blank-separated word and the rest of the
    string with its leading blanks removed (trailing blanks are kept). *)
Fixpoint take_word (s : str) : str * str :=
  match s with
  | [] => ([], [])
  | x :: r => if is_space x then ([], s)
              else let '(w, t) := take_word r in (x :: w, t)
  end.

Definition split_ws1 (s : str) : list str :=
  match lstrip s with
  | [] => []
  | s' => let '(w, t) := take_word s' in
          match lstrip t with
          | [] => [w]
          | t' => [w; t']
          end
  end.

(** [not l] *)
Definition is_nil {A} (l : list A) : bool :=
  match l with [] => true | _ => false end.

(** [s.split(None, maxsplit)] *)
Fixpoint split_ws_n (maxsplit : nat) (s : str) : list str :=
  match lstrip s with
  | [] => []
  | s' =>
      match maxsplit with
      | O => [s']
      | S k => let '(w, t) := take_word s' in w :: split_ws_n k t
      end
  end.

(** [re.match(r'\w', c)] on one ASCII character. *)
Definition is_word (c : ascii) : bool := is_alpha c || is_digit c || ch_eqb c "_".

(** Longest prefix of characters satisfying [p], and the rest. *)
Fixpoint span (p : ascii -> bool) (s : str) : str * str :=
  match s with
  | [] => ([], [])
  | c :: r => if p c then let '(a, b) := span p r in (c :: a, b) else ([], s)
  end.

End PyStr.
Export PyStr.

(** ** numeric_parser.py *)

Module NumericParser.

(** Value of one digit character in [int(s, base)]: 0-9, a-z, A-Z. *)
Definition digit_value (c : ascii) : option Z :=
  let n := Z.of_N (code c) in
  if is_digit c then Some (n - 48)
  else if is_lower c then Some (n - 97 + 10)
  else if is_upper c then Some (n - 65 + 10)
  else None.

(** The digit loop of [int(s, base)]: digits below the base, single
    underscores allowed between digits. *)
Fixpoint py_digits (base acc : Z) (prev_us : bool) (s : str) : option Z :=
  match s with
  | [] => if prev_us then None else Some acc
  | c :: r =>
      if ch_eqb c "_" then
        (if prev_us then None else py_digits base acc true r)
      else match digit_value c with
           | Some d => if d <? base then py_digits base (acc * base + d) false r
                       else None
           | None => None
           end
  end.

(** Base prefix accepted by [int(s, base)] after the sign: [0x] for 16,
    [0o] for 8, [0b] for 2 (either case), followed by at most one
    underscore. *)
Definition base_prefix_letter (base : Z) : option ascii :=
  if base =? 16 then Some "x"%char
  else if base =? 8 then Some "o"%char
  else if base =? 2 then Some "b"%char
  else None.

Definition skip_base_prefix (base : Z) (s : str) : str :=
  match s with
  | z :: l :: r =>
      match base_prefix_letter base with
      | Some p =>
          if ch_eqb z "0" && ch_eqb (lower_ch l) p
          then match r with
               | u :: r' => if ch_eqb u "_" then r' else r
               | [] => r
               end
          else s
      | None => s
      end
  | _ => s
  end.

(** Python's [int(s, base)] for an explicit base in {2, 8, 10, 16}. *)
Definition py_int (base : Z) (s : str) : option Z :=
  let s := strip s in
  let '(sign, s) :=
    match s with
    | c :: r => if ch_eqb c "+" then (1, r)
                else if ch_eqb c "-" then (-1, r) else (1, s)
    | [] => (1, s)
    end in
  let s := skip_base_prefix base s in
  match s with
  | [] => None
  | c :: _ => if ch_eqb c "_" then None
              else option_map (Z.mul sign) (py_digits base 0 false s)
  end.

(** [len(v) > 2 and v[0] == '0' and v[1].lower() == c] *)
Definition has_alt_prefix (c : ascii) (v : str) : bool :=
  match v with
  | z :: l :: _ :: _ => ch_eqb z "0" && ch_eqb (lower_ch l) c
  | _ => false
  end.

Definition first_is_hex_letter (s : str) : bool :=
  match s with
  | c :: _ => ch_in (lower_ch c) (L "abcdef")
  | [] => false
  end.

(** [NumericParser.parse] *)
Definition parse (value_str : str) : option Z :=
  let v := strip value_str in
  match v with
  | [] => None
  | _ =>
    let v := remove_ch "_" v in
    if startswith (lower v) (L "0x") then py_int 16 v
    else if has_alt_prefix "h" v then py_int 16 (skipn 2 v)
    else if endswith (lower v) (L "h") then
      let hex_str := drop_last v in
      if first_is_hex_letter hex_str then None
      else py_int 16 hex_str
    else if startswith v (L "$") then
      let hex_str := skipn 1 v in
      match hex_str with
      | [] => None
      | _ => if first_is_hex_letter hex_str then None else py_int 16 hex_str
      end
    else if startswith (lower v) (L "0b") then py_int 2 (skipn 2 v)
    else if has_alt_prefix "y" v then py_int 2 (skipn 2 v)
    else if endswith (lower v) (L "b") then py_int 2 (drop_last v)
    else if endswith (lower v) (L "y") then py_int 2 (drop_last v)
    else if startswith (lower v) (L "0o") then py_int 8 (skipn 2 v)
    else if has_alt_prefix "q" v then py_int 8 (skipn 2 v)
    else if endswith (lower v) (L "q") then py_int 8 (drop_last v)
    else if endswith (lower v) (L "o") then py_int 8 (drop_last v)
    else if has_alt_prefix "d" v then py_int 10 (skipn 2 v)
    else if endswith (lower v) (L "d") then py_int 10 (drop_last v)
    else py_int 10 v
  end.

(** [NumericParser.parse_with_sign] *)
Definition parse_with_sign (value_str : str) : option Z :=
  let v := strip value_str in
  if startswith v (L "+") then parse (skipn 1 v)
  else if startswith v (L "-") then option_map Z.opp (parse (skipn 1 v))
  else parse v.

(** [parse_numeric] *)
Definition parse_numeric (value_str : str) : option Z := parse_with_sign value_str.

End NumericParser.

(** ** Rendering integers in the NASM formats

    The parser has no printer in the sources; the round-trip property of
    the specification needs one.  [render] follows the specification's
    words (section 4.2): optional sign, prefix or suffix of the format,
    positional digits of the magnitude, no padding. *)

Module NumericFormat.
Import NumericParser.

Inductive num_format :=
| HexPrefix0x | HexPrefix0X | HexPrefix0h | HexSuffixH | HexDollar0
| BinPrefix0b | BinPrefix0y | BinSuffixB | BinSuffixY
| OctPrefix0o | OctPrefix0q | OctSuffixO | OctSuffixQ
| DecPrefix0d | DecSuffixD | DecPlain.

Definition all_formats : list num_format :=
  [HexPrefix0x; HexPrefix0X; HexPrefix0h; HexSuffixH; HexDollar0;
   BinPrefix0b; BinPrefix0y; BinSuffixB; BinSuffixY;
   OctPrefix0o; OctPrefix0q; OctSuffixO; OctSuffixQ;
   DecPrefix0d; DecSuffixD; DecPlain].

Definition format_base (f : num_format) : Z :=
  match f with
  | HexPrefix0x | HexPrefix0X | HexPrefix0h | HexSuffixH | HexDollar0 => 16
  | BinPrefix0b | BinPrefix0y | BinSuffixB | BinSuffixY => 2
  | OctPrefix0o | OctPrefix0q | OctSuffixO | OctSuffixQ => 8
  | DecPrefix0d | DecSuffixD | DecPlain => 10
  end.

(** Digit character of a value below 16 (lower case). *)
Definition digit_char (d : Z) : ascii :=
  if d <? 10 then ascii_of_N (Z.to_N (d + 48)) else ascii_of_N (Z.to_N (d - 10 + 97)).

(** Positional digits, most significant first; [fuel] bounds the number of
    digits. *)
Fixpoint to_digits_aux (fuel : nat) (base n : Z) (acc : str) : str :=
  match fuel with
  | O => digit_char (n mod base) :: acc
  | S k => if n <? base then digit_char n :: acc
           else to_digits_aux k base (n / base) (digit_char (n mod base) :: acc)
  end.

Definition to_digits (base n : Z) : str :=
  to_digits_aux (Z.to_nat (Z.log2 n)) base n [].

(** Magnitude of [m >= 0] in format [f]. *)
Definition render_magnitude (f : num_format) (m : Z) : str :=
  let ds := to_digits (format_base f) m in
  match f with
  | HexPrefix0x => L "0x" ++ ds
  | HexPrefix0X => L "0X" ++ ds
  | HexPrefix0h => L "0h" ++ ds
  | HexSuffixH => (if first_is_hex_letter ds then L "0" else []) ++ ds ++ L "h"
  | HexDollar0 => L "$0" ++ ds
  | BinPrefix0b => L "0b" ++ ds
  | BinPrefix0y => L "0y" ++ ds
  | BinSuffixB => ds ++ L "b"
  | BinSuffixY => ds ++ L "y"
  | OctPrefix0o => L "0o" ++ ds
  | OctPrefix0q => L "0q" ++ ds
  | OctSuffixO => ds ++ L "o"
  | OctSuffixQ => ds ++ L "q"
  | DecPrefix0d => L "0d" ++ ds
  | DecSuffixD => ds ++ L "d"
  | DecPlain => ds
  end.

(** [plus] asks for an explicit ['+'] on non-negative numbers. *)
Definition render (f : num_format) (plus : bool) (n : Z) : str :=
  if n <? 0 then L "-" ++ render_magnitude f (- n)
  else (if plus then L "+" else []) ++ render_magnitude f n.

End NumericFormat.

(** ** data_directives.py *)

Module DataDirective.
Import NumericParser.

(** Result of [parse_value]: [int], [float] or [bytes]. *)
Inductive value (F : Type) :=
| VInt (z : Z)
| VFloat (f : F)
| VBytes (b : str).
Arguments VInt {F} z.
Arguments VFloat {F} f.
Arguments VBytes {F} b.

(** [DATA_SIZES] *)
Definition DATA_SIZES (d : str) : option Z :=
  if str_eqb d (L "DB") then Some 1
  else if str_eqb d (L "DW") then Some 2
  else if str_eqb d (L "DD") then Some 4
  else if str_eqb d (L "DQ") then Some 8
  else if str_eqb d (L "DT") then Some 10
  else if str_eqb d (L "DO") then Some 16
  else if str_eqb d (L "DY") then Some 32
  else if str_eqb d (L "DZ") then Some 64
  else None.

(** [RESERVE_SIZES] *)
Definition RESERVE_SIZES (d : str) : option Z :=
  if str_eqb d (L "RESB") then Some 1
  else if str_eqb d (L "RESW") then Some 2
  else if str_eqb d (L "RESD") then Some 4
  else if str_eqb d (L "RESQ") then Some 8
  else if str_eqb d (L "REST") then Some 10
  else if str_eqb d (L "RESO") then Some 16
  else if str_eqb d (L "RESY") then Some 32
  else if str_eqb d (L "RESZ") then Some 64
  else None.

(** [is_data_directive] *)
Definition is_data_directive (line : str) : bool :=
  match split_ws (upper (strip line)) with
  | [] => false
  | mnemonic :: _ =>
      match DATA_SIZES mnemonic, RESERVE_SIZES mnemonic with
      | Some _, _ => true
      | _, Some _ => true
      | None, None =>
          str_eqb mnemonic (L "INCBIN") || str_eqb mnemonic (L "EQU")
          || str_eqb mnemonic (L "TIMES")
      end
  end.

(** [int.to_bytes(size, order, signed=(value < 0))]; [None] is the
    [OverflowError] that [encode_data] turns into a [ValueError]. *)
Fixpoint le_bytes (n : nat) (v : Z) : list Z :=
  match n with
  | O => []
  | S k => (v mod 256) :: le_bytes k (v / 256)
  end.

Definition int_to_bytes (size : Z) (little : bool) (v : Z) : option (list Z) :=
  let bits := 8 * size in
  let fits := if v <? 0 then - 2 ^ (bits - 1) <=? v else v <? 2 ^ bits in
  if fits then
    let bs := le_bytes (Z.to_nat size) (v mod 2 ^ bits) in
    Some (if little then bs else rev bs)
  else None.

Section Handler.

(** The handler's state: endianness flag, the [EQU] constants and the label
    table.  [float(s)] is kept abstract: [py_float s = None] stands for the
    [ValueError] of a string that is not a float literal. *)
Variable F : Type.
Variable py_float : str -> option F.
Variable little_endian : bool.
Variable constants : gmap str Z.
Variable labels : gmap str Z.

(** The double quote character. *)
Definition dquote : ascii := "034"%char.

Definition quoted_with (q : ascii) (v : str) : bool :=
  startswith v [q] && endswith v [q].

(** [value_str[1:-1]] *)
Definition inner (v : str) : str := drop_last (skipn 1 v).

(** The guard in front of [float(value_str)]. *)
Definition float_candidate (v : str) : bool :=
  ch_in "." v || (ch_in "e" (lower v) && negb (ch_in "h" (lower v))).

(** [DataDirective.parse_value] *)
Definition parse_value (value_str : str) : value F :=
  let v := strip value_str in
  if quoted_with dquote v then VBytes (inner v)
  else if quoted_with "'" v then
    let char_str := inner v in
    match char_str with
    | [c] => VInt (Z.of_N (code c))
    | _ => VBytes char_str
    end
  else
    match (if float_candidate v then py_float v else None) with
    | Some f => VFloat f
    | None =>
        match constants !! v with
        | Some c => VInt c
        | None =>
            match labels !! v with
            | Some a => VInt a
            | None =>
                match parse_numeric v with
                | Some n => VInt n
                | None => VInt 0
                end
            end
        end
    end.

(** The quote tracking shared by the comment stripper and the splitter of
    [parse_data_list]. *)
Definition is_quote (c : ascii) : bool := ch_eqb c dquote || ch_eqb c "'".

Definition toggles (in_quotes : bool) (quote_char : option ascii) (c : ascii) : bool :=
  is_quote c &&
  (negb in_quotes || match quote_char with Some q => ch_eqb c q | None => false end).

Fixpoint strip_comment (in_quotes : bool) (quote_char : option ascii) (s : str) : str :=
  match s with
  | [] => []
  | c :: r =>
      if toggles in_quotes quote_char c then
        let iq := negb in_quotes in
        c :: strip_comment iq (if iq then Some c else quote_char) r
      else if ch_eqb c ";" && negb in_quotes then []
      else c :: strip_comment in_quotes quote_char r
  end.

Definition flush (current : str) : list str :=
  match current with
  | [] => []
  | _ => [strip (rev current)]
  end.

Fixpoint split_values (in_quotes : bool) (quote_char : option ascii)
         (current : str) (s : str) : list str :=
  match s with
  | [] => flush current
  | c :: r =>
      if toggles in_quotes quote_char c then
        let iq := negb in_quotes in
        split_values iq (if iq then Some c else quote_char) (c :: current) r
      else if ch_eqb c "," && negb in_quotes then
        flush current ++ split_values in_quotes quote_char [] r
      else split_values in_quotes quote_char (c :: current) r
  end.

(** [DataDirective.parse_data_list] *)
Definition parse_data_list (operands_str : str) : list (value F) :=
  let s := if ch_in ";" operands_str
           then strip_comment false None operands_str else operands_str in
  map parse_value (split_values false None [] s).

Definition bytes_of_str (b : str) : list Z := map (fun c => Z.of_N (code c)) b.

(** [DataDirective.encode_data]; [float_bytes] is [struct.pack] for the
    two float widths.  [None] is a raised error (unknown directive, float
    in a width other than 4 or 8, integer too wide). *)
Variable float_bytes : Z -> bool -> F -> list Z.

Fixpoint encode_values (size : Z) (values : list (value F)) : option (list Z) :=
  match values with
  | [] => Some []
  | v :: vs =>
      let this :=
        match v with
        | VBytes b => Some (bytes_of_str b)
        | VFloat f => if (size =? 4) || (size =? 8)
                      then Some (float_bytes size little_endian f) else None
        | VInt z => int_to_bytes size little_endian z
        end in
      match this, encode_values size vs with
      | Some a, Some b => Some (a ++ b)
      | _, _ => None
      end
  end.

Definition encode_data (directive : str) (values : list (value F)) : option (list Z) :=
  match DATA_SIZES (upper directive) with
  | Some size => encode_values size values
  | None => None
  end.

End Handler.

End DataDirective.

(** ** linker.py *)

Module Linker.
Import NumericFormat.

(** *** Object files held by the linker *)

(** One element of [ObjectFile.instructions]:
    (address, opcode, operand, source, size). *)
Record obj_instruction := ObjInstruction {
  i_address : Z;
  i_opcode : Z;
  i_operand : option Z;
  i_source : str;
  i_size : Z
}.

Record ObjectFile := MkObjectFile {
  filename : str;
  instructions : list obj_instruction;
  labels : gmap str Z
}.

(** *** [_optimize_instruction_sizes] *)

Definition max_iterations : Z := 10.

Definition data_prefixes : list str :=
  map L ["DB"; "DW"; "DD"; "DQ"; "DT"; "DO"; "DY"; "DZ"; "RESB"; "TIMES"]%string.

Definition branch_prefixes : list str :=
  map L ["J"; "CALL"; "JNZ"; "JZ"; "JEQ"; "JNE"; "JL"; "LOOP"]%string.

Definition startswith_any (s : str) (ps : list str) : bool :=
  existsb (startswith s) ps.

Section Optimize.

(** The encoder seen from the linker: [parse_instruction_line] followed by
    [encode_instruction] on a source text, an address and the global label
    map; the result is [(binary_value, opcode_size // 8)], and [None] when
    the text is not an instruction or the encoding fails. *)
Variable reencode : str -> Z -> gmap str Z -> option (Z * Z).

(** Union of the label tables, later object files winning. *)
Definition build_global_labels (objs : list ObjectFile) : gmap str Z :=
  fold_left (fun acc o => labels o ∪ acc) objs ∅.

(** Re-encoding of one instruction at its old address; the flag tells
    whether its size changed. *)
Definition reencode_one (global_labels : gmap str Z) (i : obj_instruction)
  : obj_instruction * bool :=
  if startswith_any (upper (strip (i_source i))) data_prefixes then (i, false)
  else match reencode (i_source i) (i_address i) global_labels with
       | None => (i, false)
       | Some (binary_value, new_size) =>
           (ObjInstruction (i_address i) binary_value (i_operand i) (i_source i) new_size,
            negb (new_size =? i_size i))
       end.

(** Sequential layout preserving gaps.  [prev] holds
    [obj_file.instructions[idx-1]] and [final_instructions[-1]]; the list
    pairs every original instruction with its re-encoding. *)
Fixpoint relayout (prev : option (obj_instruction * obj_instruction))
         (l : list (obj_instruction * obj_instruction)) : list obj_instruction :=
  match l with
  | [] => []
  | (old, new) :: rest =>
      let old_addr := i_address new in
      let new_addr :=
        match prev with
        | None => old_addr
        | Some (prev_old, prev_new) =>
            let expected_old := i_address prev_old + i_size prev_old in
            let expected_new := i_address prev_new + i_size prev_new in
            if expected_old <? old_addr
            then expected_new + (old_addr - expected_old)
            else expected_new
        end in
      let fin := ObjInstruction new_addr (i_opcode new) (i_operand new)
                                (i_source new) (i_size new) in
      fin :: relayout (Some (old, fin)) rest
  end.

Definition build_addr_map (news finals : list obj_instruction) : gmap Z Z :=
  fold_left (fun acc p => <[i_address (fst p) := i_address (snd p)]> acc)
            (combine news finals) ∅.

Fixpoint find_index (a : Z) (l : list obj_instruction) (idx : nat) : option nat :=
  match l with
  | [] => None
  | i :: r => if i_address i =? a then Some idx else find_index a r (S idx)
  end.

Definition desc_keys (m : gmap Z Z) : list Z :=
  rev (merge_sort Z.le (elements (dom m))).

Definition update_label (news finals : list obj_instruction) (addr_map : gmap Z Z)
           (label_name : str) (label_addr : Z) : Z :=
  match addr_map !! label_addr with
  | Some mapped =>
      match find_index label_addr news O with
      | Some inst_idx =>
          let source_upper :=
            upper (strip (match nth_error news inst_idx with
                          | Some i => i_source i | None => [] end)) in
          let is_branch := startswith_any source_upper branch_prefixes in
          let is_likely_function :=
            Nat.eqb inst_idx O
            || (ch_in "_" label_name && endswith label_name (L "Assembly")) in
          match nth_error finals (S inst_idx) with
          | Some next =>
              if is_branch && negb is_likely_function then i_address next else mapped
          | None => mapped
          end
      | None => mapped
      end
  | None =>
      match List.find (fun old_addr => old_addr <=? label_addr) (desc_keys addr_map) with
      | Some old_addr =>
          label_addr + (default old_addr (addr_map !! old_addr) - old_addr)
      | None => label_addr
      end
  end.

(** The body of the loop for one object file. *)
Definition optimize_object (global_labels : gmap str Z) (o : ObjectFile)
  : ObjectFile * bool :=
  let res := map (reencode_one global_labels) (instructions o) in
  let news := map fst res in
  let changed := existsb snd res in
  let finals := relayout None (combine (instructions o) news) in
  let addr_map := build_addr_map news finals in
  let updated := map_imap (fun n a => Some (update_label news finals addr_map n a))
                          (labels o) in
  (MkObjectFile (filename o) finals updated, changed).

(** One iteration of the [while] loop: all object files, with the label
    map built at the start of the iteration. *)
Definition optimization_pass (objs : list ObjectFile) : list ObjectFile * bool :=
  let global_labels := build_global_labels objs in
  let res := map (optimize_object global_labels) objs in
  (map fst res, existsb snd res).

(** State of the loop; [trace] records [sizes_changed] of every iteration
    that ran, oldest first; [converged] is set by the [break]. *)
Record loop_state := LoopState {
  ls_objs : list ObjectFile;
  ls_iteration : Z;
  ls_trace : list bool;
  ls_converged : bool
}.

Fixpoint optimize_loop (fuel : nat) (st : loop_state) : loop_state :=
  match fuel with
  | O => st
  | S k =>
      if ls_iteration st <? max_iterations then
        let iteration := ls_iteration st + 1 in
        let '(objs', sizes_changed) := optimization_pass (ls_objs st) in
        let trace := ls_trace st ++ [sizes_changed] in
        if negb sizes_changed && (2 <=? iteration)
        then LoopState objs' iteration trace true
        else optimize_loop k (LoopState objs' iteration trace false)
      else st
  end.

Record optimize_result := OptimizeResult {
  or_objs : list ObjectFile;
  or_iterations : Z;
  or_trace : list bool;
  or_converged : bool;
  or_warned : bool;     (* "did not converge" warning logged *)
  or_success : bool     (* the function's return value *)
}.

(** [Linker._optimize_instruction_sizes]; [loader_ok] is the outcome of
    loading the instruction set before the loop. *)
Definition optimize_instruction_sizes (loader_ok : bool) (objs : list ObjectFile)
  : optimize_result :=
  if loader_ok then
    let st := optimize_loop (Z.to_nat max_iterations) (LoopState objs 0 [] false) in
    OptimizeResult (ls_objs st) (ls_iteration st) (ls_trace st) (ls_converged st)
                   (max_iterations <=? ls_iteration st) true
  else OptimizeResult objs 0 [] false false false.

(** The object files after [n] iterations of the loop body. *)
Fixpoint after_passes (n : nat) (objs : list ObjectFile) : list ObjectFile :=
  match n with
  | O => objs
  | S k => after_passes k (fst (optimization_pass objs))
  end.

(** What the convergence loop guarantees of the state it returns, for the
    object files [objs0] it was started on. *)
Record loop_post (objs0 : list ObjectFile) (st : loop_state) : Prop := LoopPost {
  lp_iter_lo : 0 <= ls_iteration st;
  lp_iter_hi : ls_iteration st <= max_iterations;
  lp_trace_len : Z.of_nat (length (ls_trace st)) = ls_iteration st;
  lp_objs : ls_objs st = after_passes (length (ls_trace st)) objs0;
  lp_trace : forall k, (k < length (ls_trace st))%nat ->
               nth k (ls_trace st) true
               = snd (optimization_pass (after_passes k objs0));
  lp_go_on : forall k, (S k < length (ls_trace st))%nat ->
               nth k (ls_trace st) true = true \/ (k = 0)%nat;
  lp_conv : ls_converged st = true ->
              List.last (ls_trace st) true = false /\ 2 <= ls_iteration st;
  lp_cap : ls_converged st = false -> ls_iteration st = max_iterations
}.

End Optimize.

(** *** Intel HEX output *)

(** [format(n, '0wX')]: upper-case hexadecimal, zero-padded to [w]
    characters, sign included. *)
Definition fmtX (w : nat) (n : Z) : str :=
  let ds := upper (to_digits 16 (Z.abs n)) in
  let sign := if n <? 0 then L "-" else [] in
  sign ++ repeat "0"%char (w - length sign - length ds) ++ ds.

Definition newline : ascii := "010"%char.

(** [_write_extended_address_record]: the line written to the file. *)
Definition write_extended_address_record (extended_addr : Z) : str :=
  let byte_count := 2 in
  let address := 0 in
  let record_type := 4 in
  let data_high := Z.land (Z.shiftr extended_addr 8) 255 in
  let data_low := Z.land extended_addr 255 in
  let checksum := byte_count + Z.shiftr address 8 + Z.land address 255
                  + record_type + data_high + data_low in
  let checksum := Z.land (- checksum) 255 in
  L ":" ++ fmtX 2 byte_count ++ fmtX 4 address ++ fmtX 2 record_type
    ++ fmtX 2 data_high ++ fmtX 2 data_low ++ fmtX 2 checksum ++ [newline].

(** [_write_hex_record] *)
Definition write_hex_record (address : Z) (data : list Z) : str :=
  let byte_count := Z.of_nat (length data) in
  let address_16bit := Z.land address 65535 in
  let address_high := Z.land (Z.shiftr address_16bit 8) 255 in
  let address_low := Z.land address_16bit 255 in
  let record_type := 0 in
  let checksum := fold_left Z.add data
                    (byte_count + address_high + address_low + record_type) in
  let checksum := Z.land (- checksum) 255 in
  L ":" ++ fmtX 2 byte_count ++ fmtX 4 address_16bit ++ fmtX 2 record_type
    ++ concat (map (fmtX 2) data) ++ fmtX 2 checksum ++ [newline].

Definition eof_record : str := L ":00000001FF" ++ [newline].

Definition sorted_keys (m : gmap Z Z) : list Z :=
  merge_sort Z.le (elements (dom m)).

(** Loop variables of [_generate_intel_hex_custom] and the lines written
    so far. *)
Record hex_state := HexState {
  current_extended_addr : option Z;
  current_address : option Z;
  current_data : list Z;
  written : list str
}.

(** [self._write_hex_record(f, current_address, current_data)]; with
    [current_address = None] the call raises, which is [None] here. *)
Definition flush_record (st : hex_state) : option (list str) :=
  match current_address st with
  | Some a => Some (written st ++ [write_hex_record a (current_data st)])
  | None => None
  end.

Definition hex_step (m : gmap Z Z) (st : hex_state) (addr : Z) : option hex_state :=
  let extended_addr := Z.land (Z.shiftr addr 16) 65535 in
  let byte := m !!! addr in
  (* extended linear address record *)
  let st1 :=
    if bool_decide (current_extended_addr st = Some extended_addr) then Some st
    else
      let pending :=
        if is_nil (current_data st) then Some (written st, current_data st)
        else option_map (fun w => (w, [])) (flush_record st) in
      match pending with
      | Some (w, d) =>
          Some (HexState (Some extended_addr) None d
                         (w ++ [write_extended_address_record extended_addr]))
      | None => None
      end in
  match st1 with
  | None => None
  | Some st1 =>
      match current_address st1 with
      | None =>
          Some (HexState (current_extended_addr st1) (Some addr) [byte] (written st1))
      | Some ca =>
          if addr =? ca + Z.of_nat (length (current_data st1)) then
            let data := current_data st1 ++ [byte] in
            if (16 <=? length data)%nat
            then Some (HexState (current_extended_addr st1) None []
                                (written st1 ++ [write_hex_record ca data]))
            else Some (HexState (current_extended_addr st1) (Some ca) data (written st1))
          else
            let w := if is_nil (current_data st1) then written st1
                     else written st1 ++ [write_hex_record ca (current_data st1)] in
            Some (HexState (current_extended_addr st1) (Some addr) [byte] w)
      end
  end.

Fixpoint hex_loop (m : gmap Z Z) (st : hex_state) (addrs : list Z) : option hex_state :=
  match addrs with
  | [] => Some st
  | a :: r => match hex_step m st a with
              | Some st' => hex_loop m st' r
              | None => None
              end
  end.

(** [Linker._generate_intel_hex_custom]: the lines of the file, [None] when
    an exception makes the function return [False]. *)
Definition generate_intel_hex_custom (memory_image : gmap Z Z) : option (list str) :=
  match sorted_keys memory_image with
  | [] => Some [eof_record]
  | addresses =>
      match hex_loop memory_image (HexState None None [] []) addresses with
      | None => None
      | Some st =>
          let w := if is_nil (current_data st) then Some (written st)
                   else flush_record st in
          option_map (fun w => w ++ [eof_record]) w
      end
  end.

(** Reading a record line back: the bytes between [':'] and the line end. *)
Definition hex_digit_value (c : ascii) : option Z :=
  match NumericParser.digit_value c with
  | Some d => if d <? 16 then Some d else None
  | None => None
  end.

Fixpoint decode_pairs (s : str) : option (list Z) :=
  match s with
  | [] => Some []
  | a :: b :: r =>
      match hex_digit_value a, hex_digit_value b, decode_pairs r with
      | Some x, Some y, Some l => Some (16 * x + y :: l)
      | _, _, _ => None
      end
  | _ => None
  end.

Definition record_bytes (line : str) : option (list Z) :=
  match line with
  | c :: r =>
      if ch_eqb c ":" && endswith r [newline] then decode_pairs (drop_last r)
      else None
  | [] => None
  end.

Definition sum_bytes (bs : list Z) : Z := fold_right Z.add 0 bs.

(** Standard Intel HEX validity of one line: it decodes to bytes, the last
    of which is the two's complement of the sum of the others. *)
Definition record_valid (line : str) : Prop :=
  exists bs, record_bytes line = Some bs
             /\ List.last bs 0 = (- sum_bytes (removelast bs)) mod 256
             /\ sum_bytes bs mod 256 = 0.

(** Shape of one line: byte count, 16-bit address, record type, data and
    checksum; only the types 00 (at most 16 data bytes), 04 (two data
    bytes) and 01 (no data) occur. *)
Definition record_shape (line : str) : Prop :=
  exists count hi lo type data checksum,
    record_bytes line = Some ([count; hi; lo; type] ++ data ++ [checksum])
    /\ count = Z.of_nat (length data)
    /\ Forall (fun b => 0 <= b < 256) ([count; hi; lo; type] ++ data ++ [checksum])
    /\ ((type = 0 /\ 1 <= count <= 16) \/ (type = 4 /\ count = 2 /\ hi = 0 /\ lo = 0)
        \/ (type = 1 /\ count = 0)).

(** *** Reading records back *)

Definition byte_range (b : Z) : Prop := 0 <= b < 256.

Definition good_line (line : str) : Prop := record_valid line /\ record_shape line.

(** Invariant of the record loop of [generate_intel_hex_custom]. *)
Record hex_inv (st : hex_state) : Prop := HexInv {
  hi_written : Forall good_line (written st);
  hi_bytes : Forall byte_range (current_data st);
  hi_short : (length (current_data st) < 16)%nat;
  hi_addr : current_data st <> [] -> current_address st <> None
}.

(** A boolean property checked on the [n] integers from [z] on. *)
Fixpoint check_range (P : Z -> bool) (n : nat) (z : Z) : bool :=
  match n with
  | O => true
  | S k => P z && check_range P k (z + 1)
  end.

(** The hexadecimal text [s] reads back as the bytes [bs]. *)
Definition decodes_to (s : str) (bs : list Z) : bool :=
  match decode_pairs s with
  | Some l => forallb (fun p => fst p =? snd p) (combine l bs)
              && Nat.eqb (length l) (length bs)
              && Nat.eqb (length s) (2 * length bs)
  | None => false
  end.

(** *** Memory image of [_generate_output] *)

(** One element of [all_instructions]:
    (address, opcode, operand, source_text, source_file, size). *)
Record linked_instruction := LinkedInstruction {
  li_address : Z;
  li_opcode : Z;
  li_operand : option Z;
  li_source_text : str;
  li_source_file : str;
  li_size : Z
}.

(** [parts = source_text.strip().split(maxsplit=1)];
    [directive = parts[0].upper() if parts else ''] *)
Definition directive_of (source_text : str) : str :=
  match split_ws1 (strip source_text) with
  | [] => []
  | d :: _ => upper d
  end.

Definition classified_data_directive (source_text : str) : bool :=
  let directive := directive_of source_text in
  match DataDirective.DATA_SIZES directive, DataDirective.RESERVE_SIZES directive with
  | Some _, _ => true
  | _, Some _ => true
  | None, None => str_eqb directive (L "TIMES") || str_eqb directive (L "INCBIN")
  end.

(** What the data-directive branch does for a record: the bytes it writes
    from [address] upwards, an exception (the branch falls back to the
    opcode bytes), or the abort of the oversized reservation. *)
Inductive data_outcome :=
| DataBytes (bs : list Z)
| DataException
| DataAbort.

Fixpoint write_bytes (m : gmap Z Z) (a : Z) (bs : list Z) : gmap Z Z :=
  match bs with
  | [] => m
  | b :: r => write_bytes (<[a := b]> m) (a + 1) r
  end.

(** The four stores of the opcode branch. *)
Definition write_opcode (little_endian : bool) (m : gmap Z Z) (address opcode : Z)
  : gmap Z Z :=
  if little_endian then
    <[address + 3 := Z.land (Z.shiftr opcode 24) 255]>
      (<[address + 2 := Z.land (Z.shiftr opcode 16) 255]>
         (<[address + 1 := Z.land (Z.shiftr opcode 8) 255]>
            (<[address := Z.land opcode 255]> m)))
  else
    <[address + 3 := Z.land opcode 255]>
      (<[address + 2 := Z.land (Z.shiftr opcode 8) 255]>
         (<[address + 1 := Z.land (Z.shiftr opcode 16) 255]>
            (<[address := Z.land (Z.shiftr opcode 24) 255]> m))).

Section GenerateOutput.

Variable little_endian : bool.
(** The data handler of the linker on one record (size computation,
    [TIMES] expansion, [INCBIN] file read, value encoding). *)
Variable data_handler : linked_instruction -> data_outcome.

(** Body of the loop over [all_instructions]; [None] is [return False]. *)
Definition emit_instruction (m : gmap Z Z) (i : linked_instruction) : option (gmap Z Z) :=
  if classified_data_directive (li_source_text i) then
    match data_handler i with
    | DataBytes bs => Some (write_bytes m (li_address i) bs)
    | DataException => Some (write_opcode little_endian m (li_address i) (li_opcode i))
    | DataAbort => None
    end
  else Some (write_opcode little_endian m (li_address i) (li_opcode i)).

Fixpoint build_memory_image (m : gmap Z Z) (l : list linked_instruction)
  : option (gmap Z Z) :=
  match l with
  | [] => Some m
  | i :: r => match emit_instruction m i with
              | Some m' => build_memory_image m' r
              | None => None
              end
  end.

(** Binary serialization: [bytearray(max_addr - min_addr + 1)] filled from
    the image.  [None] when the image is empty ([min] raises). *)
Definition binary_output (m : gmap Z Z) : option (list Z) :=
  match sorted_keys m with
  | [] => None
  | min_addr :: _ as ks =>
      let max_addr := List.last ks min_addr in
      Some (map (fun k => default 0 (m !! (min_addr + Z.of_nat k)))
                (seq 0 (Z.to_nat (max_addr - min_addr + 1))))
  end.

End GenerateOutput.

(** The same record with another [size_bytes]. *)
Definition with_size (i : linked_instruction) (sz : Z) : linked_instruction :=
  LinkedInstruction (li_address i) (li_opcode i) (li_operand i) (li_source_text i)
                    (li_source_file i) sz.

End Linker.

(** ** assembler.py *)

Module Assembler.
Import NumericParser.

(** [Label] *)
Record Label := MkLabel {
  lb_name : str;
  lb_address : Z;
  lb_line_defined : nat
}.

(** [Instruction] *)
Record Instruction := MkInstruction {
  in_address : Z;
  in_opcode : Z;
  in_operand : option Z;
  in_size : Z;
  in_source_line : nat;
  in_source_text : str
}.

(** One entry of [source_listing]: line number, address, source text (the
    opcode bytes are always [None] in both passes). *)
Record listing_entry := ListingEntry {
  le_line : nat;
  le_address : option Z;
  le_text : str
}.

(** A logged error: its [error_code] and line number. *)
Record diagnostic := Diagnostic {
  dg_code : string;
  dg_line : nat
}.

(** The mutable attributes of [AssemblerEngine] used by the two passes.
    [constants] is [data_directive.constants].  The handler's own label
    table is not part of the state: it is created from [labels or {}] with
    an empty [labels], hence a fresh dictionary that nothing fills. *)
Record engine := Engine {
  labels : gmap str Label;
  constants : gmap str Z;
  current_address : Z;
  source_listing : list listing_entry;
  instructions : list Instruction;
  diagnostics : list diagnostic
}.

Definition default_start : Z := 2147483648. (* 0x80000000 *)

Definition initial_engine : engine :=
  Engine ∅ ∅ default_start [] [] [].

Definition log_error (e : engine) (code : string) (line : nat) : engine :=
  Engine (labels e) (constants e) (current_address e) (source_listing e)
         (instructions e) (diagnostics e ++ [Diagnostic code line]).

Definition add_listing (e : engine) (line : nat) (a : option Z) (text : str) : engine :=
  Engine (labels e) (constants e) (current_address e)
         (source_listing e ++ [ListingEntry line a text])
         (instructions e) (diagnostics e).

Definition set_current_address (e : engine) (a : Z) : engine :=
  Engine (labels e) (constants e) a (source_listing e) (instructions e) (diagnostics e).

Definition add_label (e : engine) (l : Label) : engine :=
  Engine (<[lb_name l := l]> (labels e)) (constants e) (current_address e)
         (source_listing e) (instructions e) (diagnostics e).

Definition set_constant (e : engine) (name : str) (v : Z) : engine :=
  Engine (labels e) (<[name := v]> (constants e)) (current_address e)
         (source_listing e) (instructions e) (diagnostics e).

Definition add_instruction (e : engine) (i : Instruction) : engine :=
  Engine (labels e) (constants e) (current_address e) (source_listing e)
         (instructions e ++ [i]) (diagnostics e).

(** [line.split(';')[0].strip()] *)
Definition before_semicolon (line : str) : str :=
  strip (match split_ch ";" line with w :: _ => w | [] => [] end).

(** [AssemblerEngine._handle_org_directive] *)
Definition handle_org_directive (e : engine) (line : str) (line_num : nat)
  : engine * bool :=
  let line := if ch_in ";" line then before_semicolon line else line in
  match split_ws line with
  | [_; arg] =>
      let parsed :=
        if startswith arg (L "$") then py_int 16 (skipn 1 arg)
        else if startswith arg (L "0x") then py_int 16 arg
        else py_int 10 arg in
      match parsed with
      | Some address =>
          if (address <? 0) || (4294967295 <? address)
          then (log_error e "ADDRESS_OUT_OF_RANGE" line_num, false)
          else (set_current_address e address, true)
      | None => (log_error e "INVALID_ADDRESS" line_num, false)
      end
  | _ => (log_error e "INVALID_ORG" line_num, false)
  end.

(** [re.match(r'^[a-zA-Z_\.][a-zA-Z0-9_\.]*$', s) or re.match(r'^\d+$', s)] *)
Definition is_label_start (c : ascii) : bool :=
  is_alpha c || ch_eqb c "_" || ch_eqb c ".".

Definition is_label_char (c : ascii) : bool :=
  is_alpha c || is_digit c || ch_eqb c "_" || ch_eqb c ".".

Definition valid_label_syntax (s : str) : bool :=
  match s with
  | [] => false
  | c :: r => (is_label_start c && forallb is_label_char r) || forallb is_digit s
  end.

(** [AssemblerEngine._validate_label_name] ([self.opcodes] is always
    empty, so the shadowing warning never fires). *)
Definition validate_label_name (e : engine) (label_name : str) (line_num : nat)
  : engine * bool :=
  match label_name with
  | [] => (log_error e "EMPTY_LABEL" line_num, false)
  | _ => if valid_label_syntax label_name then (e, true)
         else (log_error e "INVALID_LABEL_NAME" line_num, false)
  end.

(** [re.match(r'^\s*(\w+)\s+EQU\s+', line_upper)] *)
Definition matches_equ (line_upper : str) : bool :=
  let s := snd (span is_space line_upper) in
  let '(w, s) := span is_word s in
  let '(b1, s) := span is_space s in
  negb (is_nil w) && negb (is_nil b1) && startswith s (L "EQU")
  && match skipn 3 s with
     | c :: _ => is_space c
     | [] => false
     end.

(** Does the line carry a label: a colon before any semicolon. *)
Definition has_label (line : str) : bool :=
  match find_ch ":" line, find_ch ";" line with
  | Some c, None => true
  | Some c, Some s => (c <? s)%nat
  | None, _ => false
  end.

(** [original_line.split(':', 1)] on a line that contains a colon. *)
Definition split_colon (line : str) : str * str :=
  let '(a, b) := span (fun c => negb (ch_eqb c ":")) line in (a, skipn 1 b).

(** The label a line defines, when the first pass reaches its label
    branch: the line is not blank, a comment, an [.ORG] or an [EQU] and
    has a colon before any semicolon. *)
Definition label_of_line (line : str) : option str :=
  let original_line := strip line in
  if is_nil original_line || startswith original_line (L ";")
     || startswith original_line (L "#")
  then None
  else if startswith (upper original_line) (L ".ORG") then None
  else if matches_equ (upper original_line) then None
  else if has_label original_line
       then Some (strip (fst (split_colon original_line)))
       else None.

Section Passes.

(** The data-directive handler and the instruction set seen from the two
    passes.  [None] is a raised exception (data directives) or a logged
    error (instructions). *)
Variable F : Type.
Variable py_float : str -> option F.
(** [DataDirective.calculate_size(line, address)], by the constants known
    so far. *)
Variable calculate_size : gmap str Z -> str -> Z -> option Z.
(** [_calculate_instruction_size(line, line_num)] *)
Variable calculate_instruction_size : str -> nat -> option Z.
(** [_assemble_data_directive(line, address, line_num)] *)
Variable assemble_data_directive : gmap str Z -> str -> Z -> nat -> option Instruction.
(** [_assemble_instruction(line, address, line_num)], by the label table. *)
Variable assemble_instruction : gmap str Label -> str -> Z -> nat -> option Instruction.

(** [DataDirective.process_equ]: the new constant, [None] when it raises. *)
Definition process_equ (e : engine) (line : str) : option (str * Z) :=
  match split_ws_n 2 line with
  | [symbol; kw; rest] =>
      if str_eqb (upper kw) (L "EQU") then
        match DataDirective.parse_value F py_float (constants e) ∅ rest with
        | DataDirective.VInt v => Some (symbol, v)
        | _ => None
        end
      else None
  | _ => None
  end.

(** Outcome of one line of a pass: go on with the running address, or
    [return False]. *)
Inductive line_result :=
| Continue (e : engine) (address : Z)
| Abort (e : engine).

(** The size part of the first pass, common to labelled and unlabelled
    statements. *)
Definition first_pass_statement (e : engine) (address : Z) (original_line : str)
           (stmt : str) (line_num : nat) : line_result :=
  if DataDirective.is_data_directive stmt then
    match calculate_size (constants e) stmt address with
    | Some inst_size =>
        Continue (add_listing e line_num (Some address) original_line)
                 (address + inst_size)
    | None => Abort (log_error e "DATA_DIRECTIVE_ERROR" line_num)
    end
  else
    match calculate_instruction_size stmt line_num with
    | Some inst_size =>
        Continue (add_listing e line_num (Some address) original_line)
                 (address + inst_size)
    | None => Abort (log_error e "UNKNOWN_INSTRUCTION" line_num)
    end.

(** Body of the loop of [_first_pass]. *)
Definition first_pass_line (e : engine) (address : Z) (line_num : nat) (line : str)
  : line_result :=
  let original_line := strip line in
  if is_nil original_line || startswith original_line (L ";")
     || startswith original_line (L "#")
  then Continue (add_listing e line_num None original_line) address
  else if startswith (upper original_line) (L ".ORG") then
    let e := add_listing e line_num (Some address) original_line in
    let '(e, ok) := handle_org_directive e original_line line_num in
    if ok then Continue e (current_address e) else Abort e
  else if matches_equ (upper original_line) then
    let e := add_listing e line_num None original_line in
    match process_equ e original_line with
    | Some (symbol, v) => Continue (set_constant e symbol v) address
    | None => Abort (log_error e "INVALID_EQU" line_num)
    end
  else if has_label original_line then
    let '(label_part, instruction_part) := split_colon original_line in
    let label_name := strip label_part in
    let '(e, ok) := validate_label_name e label_name line_num in
    if negb ok then Abort e
    else
      match labels e !! label_name with
      | Some _ => Abort (log_error e "DUPLICATE_LABEL" line_num)
      | None =>
          let e := add_label e (MkLabel label_name address line_num) in
          let instruction_part := strip instruction_part in
          if negb (is_nil instruction_part) && negb (startswith instruction_part (L ";"))
          then first_pass_statement e address original_line instruction_part line_num
          else Continue (add_listing e line_num (Some address) original_line) address
      end
  else first_pass_statement e address original_line original_line line_num.

Fixpoint first_pass_loop (e : engine) (address : Z) (line_num : nat)
         (lines : list str) : engine * bool :=
  match lines with
  | [] => (e, true)
  | line :: rest =>
      match first_pass_line e address line_num line with
      | Continue e' address' => first_pass_loop e' address' (S line_num) rest
      | Abort e' => (e', false)
      end
  end.

(** [AssemblerEngine._first_pass] *)
Definition first_pass (e : engine) (source_lines : list str) : engine * bool :=
  first_pass_loop e (current_address e) 1 source_lines.

(** The engine and the running address after the first pass went through
    [lines] without aborting. *)
Fixpoint first_pass_prefix (e : engine) (address : Z) (line_num : nat)
         (lines : list str) : option (engine * Z) :=
  match lines with
  | [] => Some (e, address)
  | line :: rest =>
      match first_pass_line e address line_num line with
      | Continue e' address' => first_pass_prefix e' address' (S line_num) rest
      | Abort _ => None
      end
  end.

(** Body of the loop of [_second_pass]. *)
Definition second_pass_line (e : engine) (address : Z) (line_num : nat) (line : str)
  : line_result :=
  let original_line := strip line in
  if is_nil original_line || startswith original_line (L ";")
  then Continue e address
  else if startswith (upper original_line) (L ".ORG") then
    let '(e, _) := handle_org_directive e original_line line_num in
    Continue e (current_address e)
  else if matches_equ (upper original_line) then Continue e address
  else
    let stmt :=
      if has_label original_line
      then Some (strip (snd (split_colon original_line)))
      else None in
    let skip :=
      match stmt with
      | Some p => is_nil p || startswith p (L ";")
      | None => false
      end in
    if skip then Continue e address
    else
      let original_line := match stmt with Some p => p | None => original_line end in
      let assembled :=
        if DataDirective.is_data_directive original_line
        then assemble_data_directive (constants e) original_line address line_num
        else assemble_instruction (labels e) original_line address line_num in
      match assembled with
      | None => Abort e
      | Some instruction =>
          if 0 <? in_size instruction
          then Continue (add_instruction e instruction) (address + in_size instruction)
          else Continue e address
      end.

Fixpoint second_pass_loop (e : engine) (address : Z) (line_num : nat)
         (lines : list str) : engine * bool :=
  match lines with
  | [] => (e, true)
  | line :: rest =>
      match second_pass_line e address line_num line with
      | Continue e' address' => second_pass_loop e' address' (S line_num) rest
      | Abort e' => (e', false)
      end
  end.

(** [AssemblerEngine._second_pass] *)
Definition second_pass (e : engine) (source_lines : list str) : engine * bool :=
  second_pass_loop e (current_address e) 1 source_lines.

(** The two passes as [assemble_file] chains them. *)
Definition assemble (e : engine) (source_lines : list str) : engine * bool :=
  let '(e1, ok1) := first_pass e source_lines in
  if ok1 then second_pass e1 source_lines else (e1, false).

(** Address given to source line [n] by the first pass (listing) and by
    the second pass (emitted instruction). *)
Definition pass1_address (e : engine) (n : nat) : option Z :=
  match List.find (fun x => Nat.eqb (le_line x) n) (source_listing e) with
  | Some x => le_address x
  | None => None
  end.

Definition pass2_address (e : engine) (n : nat) : option Z :=
  option_map in_address
    (List.find (fun i => Nat.eqb (in_source_line i) n) (instructions e)).

End Passes.

End Assembler.

(** ** Regular expressions of the loader and the encoder

    Every pattern of the sources is anchored at the start of the string
    ([re.match]) and built from literals, character classes and digit
    runs; each is written out as a prefix matcher returning the captured
    groups and the unread rest. *)

Module Rx.

(** A literal. *)
Fixpoint lit (p s : str) : option str :=
  match p, s with
  | [], _ => Some s
  | x :: p', y :: s' => if ch_eqb x y then lit p' s' else None
  | _ :: _, [] => None
  end.

(** One character of a class. *)
Definition cls (f : ascii -> bool) (s : str) : option (ascii * str) :=
  match s with
  | c :: r => if f c then Some (c, r) else None
  | [] => None
  end.

(** [(\d+)] *)
Definition digits1 (s : str) : option (str * str) :=
  let '(ds, r) := span is_digit s in
  if is_nil ds then None else Some (ds, r).

(** [\s*] *)
Definition blanks (s : str) : str := snd (span is_space s).

(** [%?] *)
Definition opt_percent (s : str) : str :=
  match s with
  | c :: r => if ch_eqb c "%" then r else s
  | [] => s
  end.

(** [$]: the end of the string, or just before a final line feed. *)
Definition at_end (s : str) : bool :=
  match s with
  | [] => true
  | [c] => ch_eqb c "010"
  | _ => false
  end.

(** [int(m.group(k))] on a run of ASCII digits. *)
Definition int_of_digits (ds : str) : Z :=
  fold_left (fun acc c => acc * 10 + (Z.of_N (code c) - 48)) ds 0.

Definition in_class (letters : string) (c : ascii) : bool := ch_in c (L letters).

(** [[DAEP]] and, under [re.IGNORECASE], [[DAEPC]]. *)
Definition is_DAEP (c : ascii) : bool := in_class "DAEP" c.
Definition is_daep_any (c : ascii) : bool := in_class "dDaAeEpP" c.
Definition is_DAEPC_i (c : ascii) : bool := in_class "DAEPC" (upper_ch c).

(** [re.sub(r'\{[^\}]+\}', '', s)]: [inside] is the text read since an
    opening brace that has not been closed yet (most recent first). *)
Fixpoint remove_braces_aux (inside : option str) (s : str) : str :=
  match s, inside with
  | [], None => []
  | [], Some buf => "{"%char :: rev buf
  | c :: r, None =>
      if ch_eqb c "{" then remove_braces_aux (Some []) r
      else c :: remove_braces_aux None r
  | c :: r, Some buf =>
      if ch_eqb c "}" then
        match buf with
        | [] => "{"%char :: "}"%char :: remove_braces_aux None r
        | _ => remove_braces_aux None r
        end
      else remove_braces_aux (Some (c :: buf)) r
  end.

Definition remove_braces (s : str) : str := remove_braces_aux None s.

(** [re.search(r'\{([^\}]+)\}', s)]: the text before the match and the
    captured content. *)
Fixpoint search_braces_aux (before : str) (inside : option str) (s : str)
  : option (str * str) :=
  match s, inside with
  | [], _ => None
  | c :: r, None =>
      if ch_eqb c "{" then search_braces_aux before (Some []) r
      else search_braces_aux (c :: before) None r
  | c :: r, Some buf =>
      if ch_eqb c "}" then
        match buf with
        | [] => search_braces_aux ("}"%char :: "{"%char :: before) None r
        | _ => Some (rev before, rev buf)
        end
      else search_braces_aux before (Some (c :: buf)) r
  end.

Definition search_braces (s : str) : option (str * str) :=
  search_braces_aux [] None s.

(** One [\[(\d+):(\d+)\]] at the start of the string. *)
Definition bitfield_at (s : str) : option ((Z * Z) * str) :=
  s ← lit (L "[") s;
  '(hi, s) ← digits1 s;
  s ← lit (L ":") s;
  '(lo, s) ← digits1 s;
  s ← lit (L "]") s;
  Some ((int_of_digits hi, int_of_digits lo), s).

(** [re.findall(r'\[(\d+):(\d+)\]', s)]; [fuel] bounds the scan by the
    length of the string. *)
Fixpoint findall_bitfields (fuel : nat) (s : str) : list (Z * Z) :=
  match fuel with
  | O => []
  | S k =>
      match bitfield_at s with
      | Some (f, r) => f :: findall_bitfields k r
      | None => match s with
                | [] => []
                | _ :: r => findall_bitfields k r
                end
      end
  end.

Definition bitfields (s : str) : list (Z * Z) := findall_bitfields (S (length s)) s.

(** [re.search(r'(off|imm|disp|const|rel)(\d+)', s, re.IGNORECASE)]: the
    number of the first keyword that is followed by digits. *)
Definition width_keywords : list str := map L ["off"; "imm"; "disp"; "const"; "rel"]%string.

Definition keyword_width_at (s : str) : option Z :=
  let try_kw (kw : str) :=
    _ ← lit kw (lower (firstn (length kw) s));
    '(ds, _) ← digits1 (skipn (length kw) s);
    Some (int_of_digits ds) in
  fold_right (fun kw acc => match try_kw kw with Some w => Some w | None => acc end)
             None width_keywords.

Fixpoint search_keyword_width (s : str) : option Z :=
  match keyword_width_at s with
  | Some w => Some w
  | None => match s with
            | [] => None
            | _ :: r => search_keyword_width r
            end
  end.

(** [re.search(r'\boff\d+\b', s, re.IGNORECASE)] *)
Fixpoint search_off_word_aux (prev_word : bool) (s : str) : bool :=
  (negb prev_word
   && match lit (L "off") (lower (firstn 3 s)) with
      | Some _ =>
          match digits1 (skipn 3 s) with
          | Some (_, r) => match r with
                           | c :: _ => negb (is_word c)
                           | [] => true
                           end
          | None => false
          end
      | None => false
      end)
  || match s with
     | [] => false
     | c :: r => search_off_word_aux (is_word c) r
     end.

Definition search_off_word (s : str) : bool := search_off_word_aux false s.

End Rx.

(** ** instruction_loader.py *)

Module Loader.
Import Rx NumericParser.

(** Operand types: ['reg_d'], ['reg_a'], ['reg_e'], ['reg_p'], ['imm']. *)
Inductive operand_type := reg_d | reg_a | reg_e | reg_p | imm.

Definition operand_type_eqb (a b : operand_type) : bool :=
  match a, b with
  | reg_d, reg_d | reg_a, reg_a | reg_e, reg_e | reg_p, reg_p | imm, imm => true
  | _, _ => false
  end.

(** [InstructionDefinition] (the cached [_syntax_operand_types] is the
    function [syntax_operand_types] below). *)
Record InstructionDefinition := MkDefinition {
  opcode : str;
  opcode_size : Z;
  instruction : str;
  long_name : str;
  syntax : str;
  reference : str;
  operand_count : Z;
  op1_pos : Z; op1_len : Z;
  op2_pos : Z; op2_len : Z;
  op3_pos : Z; op3_len : Z;
  op4_pos : Z; op4_len : Z;
  op5_pos : Z; op5_len : Z
}.

(** [ParsedOperand] of the encoder. *)
Record ParsedOperand := MkOperand {
  text : str;
  type : operand_type
}.

(** [InstructionSetLoader]: the two flags and the table, keyed by the
    upper-case mnemonic. *)
Record InstructionSetLoader := MkLoader {
  force_32bit : bool;
  no_implicit : bool;
  instructions : gmap str (list InstructionDefinition)
}.

(** The result of a call that can raise: the value returned, or the
    exception ([ValueError] is the only one that escapes the selector). *)
Inductive outcome (A : Type) :=
| Returns (a : A)
| Raises.
Arguments Returns {A} a.
Arguments Raises {A}.

(** Python's stable [list.sort]: [le x y] is "the key of [x] does not
    come after the key of [y]". *)
Fixpoint insert_by {A} (le : A -> A -> bool) (x : A) (l : list A) : list A :=
  match l with
  | [] => [x]
  | y :: r => if le x y then x :: l else y :: insert_by le x r
  end.

Definition sort_by {A} (le : A -> A -> bool) (l : list A) : list A :=
  fold_right (insert_by le) [] l.

Definition by_size_asc (a b : InstructionDefinition) : bool :=
  opcode_size a <=? opcode_size b.
Definition by_size_desc (a b : InstructionDefinition) : bool :=
  opcode_size b <=? opcode_size a.

Definition type_of_letter (c : ascii) : operand_type :=
  if ch_eqb c "D" then reg_d
  else if ch_eqb c "A" then reg_a
  else if ch_eqb c "E" then reg_e
  else reg_p.

(** [re.match(r'^\[([DAEP])\[(\d+)\]\]', s)] *)
Definition fixed_reg_match (s : str) : option ascii :=
  s ← lit (L "[") s;
  '(c, s) ← cls is_DAEP s;
  s ← lit (L "[") s;
  '(_, s) ← digits1 s;
  _ ← lit (L "]]") s;
  Some c.

(** [re.match(r'^([DAEP])\s*\[', s)] *)
Definition reg_match (s : str) : option ascii :=
  '(c, s) ← cls is_DAEP s;
  _ ← lit (L "[") (blanks s);
  Some c.

(** [re.match(r'^([DAEP])\[', s)] *)
Definition reg_match_nospace (s : str) : option ascii :=
  '(c, s) ← cls is_DAEP s;
  _ ← lit (L "[") s;
  Some c.

(** [re.match(r'^([DAEP])\[(\d+)\]', s)] *)
Definition spec_reg_match (s : str) : option (ascii * Z) :=
  '(c, s) ← cls is_DAEP s;
  s ← lit (L "[") s;
  '(ds, s) ← digits1 s;
  _ ← lit (L "]") s;
  Some (c, int_of_digits ds).

(** [re.match(r'^([DAEP])(\d+)$', s)] *)
Definition actual_reg_match (s : str) : option (ascii * Z) :=
  '(c, s) ← cls is_DAEP s;
  '(ds, s) ← digits1 s;
  if at_end s then Some (c, int_of_digits ds) else None.

(** The operand patterns of a syntax string: mnemonic dropped, brace
    blocks removed, split on commas, blanks stripped.  The sources compute
    this list in several places, with ([strip_rest = true]) or without
    stripping the operand part first. *)
Definition operand_patterns (strip_rest : bool) (syn : str) : list str :=
  match split_ws1 syn with
  | [_; rest] =>
      let rest := if strip_rest then strip rest else rest in
      map strip (split_ch "," (remove_braces rest))
  | _ => []
  end.

(** [InstructionDefinition._parse_syntax_operand_types] *)
Definition pattern_type (pattern : str) : operand_type :=
  let pattern_upper := upper (strip pattern) in
  match fixed_reg_match pattern_upper with
  | Some c => type_of_letter c
  | None =>
      match reg_match pattern_upper with
      | Some c => type_of_letter c
      | None => imm
      end
  end.

Definition syntax_operand_types (d : InstructionDefinition) : list operand_type :=
  map pattern_type (operand_patterns false (syntax d)).

(** [InstructionDefinition.get_operand_info], 1-based. *)
Definition get_operand_info (d : InstructionDefinition) (operand_num : nat) : Z * Z :=
  match operand_num with
  | 1%nat => (op1_pos d, op1_len d)
  | 2%nat => (op2_pos d, op2_len d)
  | 3%nat => (op3_pos d, op3_len d)
  | 4%nat => (op4_pos d, op4_len d)
  | 5%nat => (op5_pos d, op5_len d)
  | _ => (0, 0)
  end.

(** [InstructionDefinition.get_operand_bit_width] for [operand_num >= 1].
    The operand patterns are split here without removing the brace
    blocks. *)
Definition get_operand_bit_width (d : InstructionDefinition) (operand_num : nat) : Z :=
  let op_len := snd (get_operand_info d operand_num) in
  match split_ws1 (syntax d) with
  | [_; operands_str] =>
      let patterns := map strip (split_ch "," operands_str) in
      match nth_error patterns (operand_num - 1) with
      | None => op_len
      | Some pattern =>
          match search_braces pattern with
          | Some (_, fields_str) =>
              fold_left (fun total f => total + (fst f - snd f + 1))
                        (bitfields fields_str) 0
          | None =>
              match search_keyword_width pattern with
              | Some w => w
              | None => op_len
              end
          end
      end
  | _ => op_len
  end.

(** [InstructionSetLoader.get_instruction_variants] *)
Definition get_instruction_variants (ld : InstructionSetLoader) (mnemonic : str)
  : list InstructionDefinition :=
  default [] (instructions ld !! upper mnemonic).

(** [InstructionSetLoader._classify_operand_type_simple] *)
Definition classify_operand_type_simple (operand : str) : operand_type :=
  let clean := lower (remove_ch "#" (remove_ch "]" (remove_ch "[" (strip operand)))) in
  match clean with
  | c :: _ =>
      if ch_eqb c "d" then reg_d
      else if ch_eqb c "a" then reg_a
      else if ch_eqb c "e" then reg_e
      else if ch_eqb c "p" then reg_p
      else imm
  | [] => imm
  end.

(** Result of [_extract_register_info]: [(None, None)], [(type, number)],
    or the nested tuple [((type, number), offset)] of the compound form. *)
Inductive reg_info :=
| NoReg
| Reg (t : ascii) (n : Z)
| CompoundReg (t : ascii) (n : Z) (off : Z).

Definition compound_match (s : str) : option reg_info :=
  s ← lit (L "[") s;
  '(c, s) ← cls (in_class "DAEPCaepc") s;
  '(ds, s) ← digits1 s;
  s ← lit (L "]") s;
  '(ds2, s) ← digits1 s;
  if at_end s then Some (CompoundReg (upper_ch c) (int_of_digits ds) (int_of_digits ds2))
  else None.

(** [\[([DAEPC])\[(\d+)\]\]], case-insensitive *)
Definition reg_form1 (s : str) : option reg_info :=
  s ← lit (L "[") s;
  '(c, s) ← cls is_DAEPC_i s;
  s ← lit (L "[") s;
  '(ds, s) ← digits1 s;
  _ ← lit (L "]]") s;
  Some (Reg (upper_ch c) (int_of_digits ds)).

(** [([DAEPC])\[(\d+)\]], case-insensitive *)
Definition reg_form2 (s : str) : option reg_info :=
  '(c, s) ← cls is_DAEPC_i s;
  s ← lit (L "[") s;
  '(ds, s) ← digits1 s;
  _ ← lit (L "]") s;
  Some (Reg (upper_ch c) (int_of_digits ds)).

(** [\[([DAEPC])(\d+)\]], case-insensitive *)
Definition reg_form3 (s : str) : option reg_info :=
  s ← lit (L "[") s;
  '(c, s) ← cls is_DAEPC_i s;
  '(ds, s) ← digits1 s;
  _ ← lit (L "]") s;
  Some (Reg (upper_ch c) (int_of_digits ds)).

(** [([DAEPC])(\d+)], case-insensitive *)
Definition reg_form4 (s : str) : option reg_info :=
  '(c, s) ← cls is_DAEPC_i s;
  '(ds, _) ← digits1 s;
  Some (Reg (upper_ch c) (int_of_digits ds)).

Definition first_some {A} (l : list (option A)) : option A :=
  fold_right (fun o acc => match o with Some a => Some a | None => acc end) None l.

(** [InstructionSetLoader._extract_register_info] *)
Definition extract_register_info (operand : str) : reg_info :=
  let operand := strip operand in
  default NoReg
    (first_some [compound_match operand; reg_form1 operand; reg_form2 operand;
                 reg_form3 operand; reg_form4 operand]).

(** Result of [_is_specific_register_syntax]: [(True, type, number)],
    [(False, type, None)] or [(False, None, None)]. *)
Inductive syntax_reg :=
| SynSpecific (t : ascii) (n : Z)
| SynVariable (t : ascii)
| SynNone.

(** [([DAEPC])\[[a-z]\]], case-insensitive *)
Definition variable_reg_match (s : str) : option ascii :=
  '(c, s) ← cls is_DAEPC_i s;
  s ← lit (L "[") s;
  '(_, s) ← cls is_alpha s;
  _ ← lit (L "]") s;
  Some (upper_ch c).

(** [InstructionSetLoader._is_specific_register_syntax] *)
Definition is_specific_register_syntax (syntax_part : str) : syntax_reg :=
  match reg_form2 syntax_part with
  | Some (Reg t n) => SynSpecific t n
  | _ =>
      match variable_reg_match syntax_part with
      | Some t => SynVariable t
      | None => SynNone
      end
  end.

Definition is_specific (s : syntax_reg) : bool :=
  match s with SynSpecific _ _ => true | _ => false end.

(** [InstructionSetLoader._operand_matches_syntax_register] *)
Definition operand_matches_syntax_register (operand syn : str) : bool :=
  match extract_register_info operand with
  | NoReg => true
  | CompoundReg _ _ _ =>
      (* the operand "type" is a tuple: equal to no syntax type *)
      match is_specific_register_syntax syn with
      | SynNone => true
      | _ => false
      end
  | Reg op_type op_num =>
      match is_specific_register_syntax syn with
      | SynNone => true
      | SynSpecific syn_type syn_num => ch_eqb op_type syn_type && (op_num =? syn_num)
      | SynVariable syn_type => ch_eqb op_type syn_type
      end
  end.

(** The operand looks like a register: first character, brackets and [#]
    removed, is one of a, d, e, p. *)
Definition looks_like_register (clean : str) : bool :=
  match clean with
  | c :: _ => in_class "adep" (lower_ch c)
  | [] => false
  end.

(** The value the range selector gives an operand: [None] for registers
    and for anything the numeric parser rejects. *)
Definition operand_value (operand_str : str) : option Z :=
  let clean_operand := strip operand_str in
  let inner := strip (remove_ch "#" (remove_ch "]" (remove_ch "[" clean_operand))) in
  if looks_like_register inner then None
  else parse_numeric (strip (remove_ch "#" clean_operand)).

Definition word_aligned_mnemonics : list str := map L ["LD.W"; "ST.W"; "LD.A"; "LEA"]%string.

(** The scaling of an immediate by the modifier of its syntax slot. *)
Definition scale_value (d : InstructionDefinition) (syntax_op : str) (value : Z) : Z :=
  if contains syntax_op (L "/4") then value / 4
  else if contains syntax_op (L "/2") then value / 2
  else if contains (lower syntax_op) (L "off")
          && existsb (str_eqb (instruction d)) word_aligned_mnemonics
          && search_off_word syntax_op
       then value / 4
  else value.

(** [1 << n]: a negative shift count raises [ValueError]. *)
Definition shift_one (n : Z) : outcome Z :=
  if n <? 0 then Raises else Returns (Z.shiftl 1 n).

(** [(min_signed <= value <= max_signed) or (0 <= value <= max_unsigned)],
    after the three bounds were computed. *)
Definition fits_width (op_len value : Z) : outcome bool :=
  match shift_one (op_len - 1), shift_one op_len with
  | Returns half, Returns full =>
      let max_signed := half - 1 in
      let min_signed := - half in
      let max_unsigned := full - 1 in
      Returns (((min_signed <=? value) && (value <=? max_signed))
               || ((0 <=? value) && (value <=? max_unsigned)))
  | _, _ => Raises
  end.

(** One iteration of the operand loop of the range check: [true] is
    "go on", [false] is [can_fit = False; break]. *)
Definition operand_fits (d : InstructionDefinition) (operands : list str)
           (i : nat) (orig_value : option Z) : outcome bool :=
  match orig_value with
  | None =>
      match nth_error (operand_patterns false (syntax d)) i, nth_error operands i with
      | Some syntax_op, Some parsed_op =>
          let clean := remove_ch "#" (remove_ch "]" (remove_ch "[" (strip parsed_op))) in
          if looks_like_register clean
          then Returns (operand_matches_syntax_register parsed_op syntax_op)
          else Returns true
      | _, _ => Returns true
      end
  | Some value =>
      let op_len := get_operand_bit_width d (S i) in
      if op_len =? 0 then Returns true
      else
        let value :=
          match split_ws1 (syntax d) with
          | [_; _] =>
              match nth_error (operand_patterns true (syntax d)) i with
              | Some syntax_op => scale_value d syntax_op value
              | None => value
              end
          | _ => value
          end in
        fits_width op_len value
  end.

(** The operand loop: it stops at the first operand that does not fit,
    and an exception leaves it. *)
Fixpoint all_operands_fit (d : InstructionDefinition) (operands : list str)
         (i : nat) (values : list (option Z)) : outcome bool :=
  match values with
  | [] => Returns true
  | v :: r =>
      match operand_fits d operands i v with
      | Returns true => all_operands_fit d operands (S i) r
      | Returns false => Returns false
      | Raises => Raises
      end
  end.

Definition can_fit (operands : list str) (d : InstructionDefinition) : outcome bool :=
  all_operands_fit d operands O (map operand_value operands).

(** The loop over the variants, which collects those that fit. *)
Fixpoint suitable_variants (operands : list str) (variants : list InstructionDefinition)
  : outcome (list InstructionDefinition) :=
  match variants with
  | [] => Returns []
  | v :: r =>
      match can_fit operands v with
      | Returns fit =>
          match suitable_variants operands r with
          | Returns l => Returns (if fit then v :: l else l)
          | Raises => Raises
          end
      | Raises => Raises
      end
  end.

(** [calculate_non_specific_matches] *)
Definition non_specific_matches (operands : list str) (d : InstructionDefinition) : Z :=
  Z.of_nat
    (length
       (filter
          (fun p : str * str =>
             negb (is_specific (is_specific_register_syntax (fst p)))
             && match extract_register_info (snd p) with
                | NoReg => false
                | _ => true
                end)
          (combine (operand_patterns true (syntax d)) operands))).

Definition lex_le (a b : Z * Z) : bool :=
  (fst a <? fst b) || ((fst a =? fst b) && (snd a <=? snd b)).

(** [InstructionSetLoader._find_best_variant_by_operand_range] *)
Definition find_best_variant_by_operand_range
           (variants : list InstructionDefinition) (operands : list str)
  : outcome (option InstructionDefinition) :=
  let operand_values := map operand_value operands in
  match suitable_variants operands variants with
  | Raises => Raises
  | Returns [] => Returns None
  | Returns suitable_variants =>
      let has_labels := existsb (fun v => match v with None => true | Some _ => false end)
                                operand_values in
      let key v :=
        (non_specific_matches operands v,
         if has_labels then - opcode_size v else opcode_size v) in
      Returns (hd_error (sort_by (fun a b => lex_le (key a) (key b)) suitable_variants))
  end.

(** The register check of the type filter of [find_instruction]: no
    syntax slot names a register number that the operand contradicts. *)
Fixpoint registers_compatible (patterns : list str) (operands : list ParsedOperand) : bool :=
  match patterns, operands with
  | syntax_op :: ps, op :: ops =>
      match spec_reg_match (upper syntax_op) with
      | Some (reg_type, reg_num) =>
          let clean := upper (remove_ch "]" (remove_ch "[" (strip (text op)))) in
          match actual_reg_match clean with
          | Some (actual_type, actual_num) =>
              if negb (ch_eqb actual_type reg_type) || negb (actual_num =? reg_num)
              then false
              else registers_compatible ps ops
          | None => registers_compatible ps ops
          end
      | None => registers_compatible ps ops
      end
  | _, _ => true
  end.

Definition types_equal (a b : list operand_type) : bool :=
  Nat.eqb (length a) (length b)
  && forallb (fun p => operand_type_eqb (fst p) (snd p)) (combine a b).

Definition type_matched (operands : list ParsedOperand) (d : InstructionDefinition) : bool :=
  types_equal (syntax_operand_types d) (map type operands)
  && match split_ws1 (syntax d) with
     | [_; _] => registers_compatible (operand_patterns true (syntax d)) operands
     | _ => true
     end.

(** [re.match(r'^%?[dDaAeEpP](\d+|\\d+\\])$', s)]: the second alternative
    of the raw string is a backslash, a run of the letter d, a backslash
    and a closing bracket. *)
Definition loop_register_match (s : str) : bool :=
  match cls is_daep_any (opt_percent s) with
  | Some (_, r) =>
      match digits1 r with
      | Some (_, r') => at_end r'
      | None =>
          match lit (L "\") r with
          | Some r1 =>
              let '(ds, r2) := span (fun c => ch_eqb c "d") r1 in
              negb (is_nil ds)
              && match lit (L "\]") r2 with
                 | Some r3 => at_end r3
                 | None => false
                 end
          | None => false
          end
      end
  | None => false
  end.

Definition loop_has_label (operands : list ParsedOperand) : bool :=
  existsb (fun op => let op_clean := strip (text op) in
                     negb (loop_register_match op_clean)
                     && negb (startswith op_clean (L "#")))
          operands.

Definition mentions_implicit (syn : str) : bool :=
  let s := lower syn in
  contains s (L "a[10]") || contains s (L "a[15]")
  || contains s (L "a10") || contains s (L "a15").

(** [InstructionSetLoader.find_instruction].  [operands = None] is the call
    without operands; legacy string operands are [ParsedOperand]s typed by
    [classify_operand_type_simple].  The function has no handler: an
    exception of the range selector leaves it. *)
Definition find_instruction (ld : InstructionSetLoader) (mnemonic : str)
           (n_operands : Z) (operands : option (list ParsedOperand))
  : outcome (option InstructionDefinition) :=
  let variants := get_instruction_variants ld mnemonic in
  let ops := default [] operands in
  let by_count := filter (fun v => operand_count v =? n_operands) variants in
  let loop_shortcut :=
    if str_eqb (upper mnemonic) (L "LOOP") && negb (is_nil ops) && loop_has_label ops
    then match by_count with
         | _ :: _ :: _ => hd_error (sort_by by_size_desc by_count)
         | _ => None
         end
    else None in
  match loop_shortcut with
  | Some v => Returns (Some v)
  | None =>
      match by_count with
      | [] => Returns None
      | _ =>
        let m1 := if force_32bit ld
                  then filter (fun v => 32 <=? opcode_size v) by_count else by_count in
        match m1 with
        | [] => Returns None
        | _ =>
          let m2 := if no_implicit ld
                    then filter (fun v => negb (mentions_implicit (syntax v))) m1 else m1 in
          match m2 with
          | [] => Returns None
          | [v] => Returns (Some v)
          | _ =>
            let matched := if is_nil ops then [] else filter (type_matched ops) m2 in
            match matched with
            | [] => Returns (hd_error (sort_by by_size_asc m2))
            | [v] => Returns (Some v)
            | _ =>
                match find_best_variant_by_operand_range matched (map text ops) with
                | Returns (Some best) => Returns (Some best)
                | Returns None => Returns (hd_error (sort_by by_size_desc matched))
                | Raises => Raises
                end
            end
          end
        end
      end
  end.

Definition legacy_operand (s : str) : ParsedOperand :=
  MkOperand s (classify_operand_type_simple s).

End Loader.

(** ** instruction_encoder.py *)

Module Encoder.
Import Rx NumericParser Loader.

(** [ParsedInstruction] *)
Record ParsedInstruction := MkParsed {
  mnemonic : str;
  operands : list ParsedOperand;
  original_line : str;
  line_number : nat
}.

(** [EncodedInstruction] *)
Record EncodedInstruction := MkEncoded {
  parsed : ParsedInstruction;
  definition : InstructionDefinition;
  binary_value : Z;
  hex_value : str
}.

(** [InstructionEncoder._classify_operand_type] *)
Definition classify_operand_type (operand : str) : operand_type :=
  let clean := lower (remove_ch "]" (remove_ch "[" (strip operand))) in
  match clean with
  | first_char :: second :: _ =>
      if is_digit second then
        if ch_eqb first_char "d" then reg_d
        else if ch_eqb first_char "a" then reg_a
        else if ch_eqb first_char "e" then reg_e
        else if ch_eqb first_char "p" then reg_p
        else imm
      else imm
  | _ => imm
  end.

(** Repeated removal of one pair of outer brackets; [fuel] bounds the
    [while True] loop by the length of the text. *)
Fixpoint strip_outer_brackets (fuel : nat) (s : str) : str :=
  let s := strip s in
  match fuel with
  | O => s
  | S k =>
      if startswith s (L "[") && endswith s (L "]")
      then strip_outer_brackets k (strip (drop_last (skipn 1 s)))
      else s
  end.

(** [re.match(r'^([aAeEdDpP])\[(\d+)\]$', s)]: the register, rewritten
    as letter and number. *)
Definition bracketed_register (s : str) : option str :=
  '(c, r) ← cls is_daep_any s;
  r ← lit (L "[") r;
  '(ds, r) ← digits1 r;
  r ← lit (L "]") r;
  if at_end r then Some (c :: ds) else None.

Definition normalize_register (s : str) : str :=
  let s := strip_outer_brackets (length s) s in
  default s (bracketed_register s).

(** Split on commas outside brackets; empty fields are dropped. *)
Fixpoint split_top_level (depth : Z) (buf : str) (s : str) : list str :=
  let emit (b : str) := let t := strip (rev b) in if is_nil t then [] else [t] in
  match s with
  | [] => emit buf
  | c :: r =>
      let depth := if ch_eqb c "[" then depth + 1
                   else if ch_eqb c "]" then depth - 1 else depth in
      if ch_eqb c "," && (depth =? 0) then emit buf ++ split_top_level depth [] r
      else split_top_level depth (c :: buf) r
  end.

(** [re.match(r'^\[([^\]]+)\](\d+)$', op)] *)
Definition compound_operand (op : str) : option (str * str) :=
  r ← lit (L "[") op;
  let '(reg_part, r) := span (fun c => negb (ch_eqb c "]")) r in
  if is_nil reg_part then None
  else
    r ← lit (L "]") r;
    '(offset_part, r) ← digits1 r;
    if at_end r then Some (reg_part, offset_part) else None.

(** [re.match(r'^%?([aAeEdDpP])(\d+)\+$', reg_part)] *)
Definition gcc_postinc (reg_part : str) : bool :=
  match cls is_daep_any (opt_percent reg_part) with
  | Some (_, r) =>
      match digits1 r with
      | Some (_, r) => match lit (L "+") r with
                       | Some r => at_end r
                       | None => false
                       end
      | None => false
      end
  | None => false
  end.

(** [InstructionSetLoader.split_compound_operands] *)
Definition split_compound_operands (operand_str : str) : list str :=
  flat_map
    (fun op =>
       let op := strip op in
       match compound_operand op with
       | Some (reg_part, offset_part) =>
           if gcc_postinc reg_part
           then [L "[" ++ reg_part ++ L "]"; offset_part]
           else [normalize_register reg_part; offset_part]
       | None => [normalize_register op]
       end)
    (split_top_level 0 [] operand_str).

(** The trailing annotation removed by
    [re.sub(r'[,\s]*#[a-zA-Z_][a-zA-Z0-9_\.]*\s*$', '', s)]: does the whole
    of [t] match the pattern? *)
Definition is_annotation (t : str) : bool :=
  let t := snd (span (fun c => ch_eqb c "," || is_space c) t) in
  match lit (L "#") t with
  | Some (c :: r) =>
      (is_alpha c || ch_eqb c "_")
      && at_end (blanks (snd (span (fun c => is_word c || ch_eqb c ".") r)))
  | _ => false
  end.

Fixpoint strip_annotation (s : str) : str :=
  if is_annotation s then []
  else match s with
       | [] => []
       | c :: r => c :: strip_annotation r
       end.

Definition is_mnemonic_char (c : ascii) : bool :=
  is_alpha c || is_digit c || ch_eqb c "." || ch_eqb c "_".

(** [InstructionEncoder.parse_instruction_line], for a line without line
    feeds inside. *)
Definition parse_instruction_line (line : str) (line_number : nat)
  : option ParsedInstruction :=
  let stripped := strip line in
  if is_nil stripped || startswith stripped (L ";") || startswith stripped (L "#")
     || endswith stripped (L ":") || startswith stripped (L ".")
  then None
  else
    match stripped with
    | c :: r =>
        if is_alpha c then
          let '(m, rest) := span is_mnemonic_char r in
          let rest := blanks rest in
          let group2 := fst (span (fun c => negb (ch_eqb c ";")) rest) in
          let operands_str := strip_annotation (strip group2) in
          let ops :=
            map (fun t => MkOperand t (classify_operand_type t))
                (filter (fun t => negb (is_nil t)) (split_compound_operands operands_str)) in
          Some (MkParsed (upper (c :: m)) ops line line_number)
        else None
    | [] => None
    end.

(** The register forms of [parse_operand_value]. *)
Definition bracket_register_value (plus : bool) (s : str) : option Z :=
  r ← lit (L "[") s;
  '(_, r) ← cls is_daep_any (opt_percent r);
  '(ds, r) ← digits1 r;
  r ← (if plus then lit (L "+") r else Some r);
  r ← lit (L "]") r;
  if at_end r then Some (int_of_digits ds) else None.

(** [^\[([a-zA-Z0-9_]+)\]\s*\+\s*(.+)$]: the offset text. *)
Definition addressing_offset (s : str) : option str :=
  r ← lit (L "[") s;
  let '(w, r) := span is_word r in
  if is_nil w then None
  else
    r ← lit (L "]") r;
    r ← lit (L "+") (blanks r);
    let off := blanks r in
    if is_nil off || ch_in "010" off then None else Some off.

Definition plain_register_value (s : str) : option Z :=
  '(_, r) ← cls is_daep_any (opt_percent s);
  first_some
    [ ('(ds, r1) ← digits1 r; if at_end r1 then Some (int_of_digits ds) else None);
      (r1 ← lit (L "[") (blanks r);
       '(ds, r2) ← digits1 (blanks r1);
       r3 ← lit (L "]") (blanks r2);
       if at_end r3 then Some (int_of_digits ds) else None) ].

(** [^(\d+)([fb])$] *)
Definition gcc_local_ref (s : str) : option (str * ascii) :=
  '(ds, r) ← digits1 s;
  '(d, r) ← cls (in_class "fb") r;
  if at_end r then Some (ds, d) else None.

(** [^[a-zA-Z_][a-zA-Z0-9_]*$] *)
Definition is_identifier (s : str) : bool :=
  match s with
  | c :: r => (is_alpha c || ch_eqb c "_") && at_end (snd (span is_word r))
  | [] => false
  end.

Definition nonempty_labels (labels : option (gmap str Z)) : option (gmap str Z) :=
  match labels with
  | Some m => if bool_decide (m = ∅) then None else Some m
  | None => None
  end.

(** [InstructionEncoder.parse_operand_value]; [None] is the [ValueError].
    [fuel] bounds the recursion on the offset of an addressing form. *)
Fixpoint parse_operand_value (fuel : nat) (operand : str)
         (current_address : option Z) (labels : option (gmap str Z)) : option Z :=
  let operand := strip operand in
  match bracket_register_value true operand with
  | Some n => Some n
  | None =>
  match bracket_register_value false operand with
  | Some n => Some n
  | None =>
  match addressing_offset operand with
  | Some offset_str =>
      match fuel with
      | O => None
      | S k => parse_operand_value k offset_str None None
      end
  | None =>
  match plain_register_value operand with
  | Some n => Some n
  | None =>
  let operand := if startswith operand (L "#") then skipn 1 operand else operand in
  match parse_numeric operand with
  | Some n => Some n
  | None =>
  let fallback :=
    if startswith (lower operand) (L "0x") then py_int 16 operand
    else if startswith (lower operand) (L "0b") then py_int 2 operand
    else if startswith (lower operand) (L "0o") then py_int 8 operand
    else py_int 10 operand in
  match fallback with
  | Some n => Some n
  | None =>
  let local :=
    match gcc_local_ref operand, nonempty_labels labels with
    | Some (label_num, direction), Some lbls =>
        let forward := ch_eqb direction "f" in
        let target_address :=
          match current_address, lbls !! label_num with
          | Some ca, Some label_addr =>
              if (if forward then ca <? label_addr else label_addr <? ca)
              then Some label_addr else None
          | _, _ => None
          end in
        match target_address, current_address with
        | Some t, Some ca => Some (t - ca)
        | _, Some _ => Some (if forward then 254 else -254)
        | _, None => Some 0
        end
    | _, _ => None
    end in
  match local with
  | Some n => Some n
  | None =>
  match nonempty_labels labels ≫= (fun lbls => lbls !! operand) with
  | Some label_address =>
      match current_address with
      | Some ca => Some (label_address - ca)
      | None => Some label_address
      end
  | None =>
      if is_identifier operand
      then match current_address with Some _ => Some 254 | None => Some 0 end
      else None
  end end end end end end end end.

(** [InstructionEncoder._extract_operand_patterns] *)
Definition extract_operand_patterns (syn : str) : list str := operand_patterns true syn.

(** [InstructionEncoder._parse_split_operand_syntax]: the 1-based
    position of the split operand and its windows [(high, low)]. *)
Definition parse_split_operand_syntax (syn : str) : nat * list (Z * Z) :=
  match search_braces syn with
  | None => (O, [])
  | Some (before_brace, content) =>
      (S (length (filter (ch_eqb ",") before_brace)), bitfields content)
  end.

(** [1 << n], which raises on a negative count. *)
Definition shl1 (n : Z) : option Z :=
  if n <? 0 then None else Some (Z.shiftl 1 n).

(** [InstructionDefinition.get_opcode_value] for the hexadecimal strings
    of the table. *)
Definition get_opcode_value (d : InstructionDefinition) : option Z :=
  if startswith (opcode d) (L "0x") then py_int 16 (opcode d) else None.

(** Checked shifts: Python raises on a negative shift count. *)
Definition shl (x n : Z) : option Z :=
  if n <? 0 then None else Some (Z.shiftl x n).

Definition mask_of (len : Z) : option Z := m ← shl1 len; Some (m - 1).

(** [binary_value |= (value & mask(len)) << pos] *)
Definition or_field (binary_value value pos len : Z) : option Z :=
  m ← mask_of len;
  f ← shl (Z.land value m) pos;
  Some (Z.lor binary_value f).

(** [(value >> low) & ((1 << size) - 1)] of a window [(high, low)]. *)
Definition window_value (value : Z) (w : Z * Z) : option Z :=
  m ← mask_of (fst w - snd w + 1);
  Some (Z.land (Z.shiftr value (snd w)) m).

Definition total_window_bits (ranges : list (Z * Z)) : Z :=
  fold_left (fun total w => total + (fst w - snd w + 1)) ranges 0.

(** The parts of the split operand: every window goes to the next
    bit-field of the definition, counted from [operand_num]. *)
Fixpoint encode_parts (d : InstructionDefinition) (value : Z)
         (ranges : list (Z * Z)) (operand_num : nat) (binary_value : Z) : option Z :=
  match ranges with
  | [] => Some binary_value
  | w :: rest =>
      let '(op_pos, op_len) := get_operand_info d operand_num in
      part_value ← window_value value w;
      b ← or_field binary_value part_value op_pos op_len;
      encode_parts d value rest (S operand_num) b
  end.

Section SplitEncoding.

Variable current_address : option Z.
Variable labels : option (gmap str Z).

Definition operand_value_of (op : ParsedOperand) : option Z :=
  parse_operand_value (length (text op)) (text op) current_address labels.

(** The loop over the parsed operands of
    [_encode_split_operand_instruction]: [parsed_idx] is the index of the
    head of [ops], [operand_num] is [instr_def_operand_num]. *)
Fixpoint encode_split_loop (d : InstructionDefinition) (split_operand_index : nat)
         (ranges : list (Z * Z)) (ops : list ParsedOperand)
         (parsed_idx operand_num : nat) (binary_value : Z) : option Z :=
  match ops with
  | [] => Some binary_value
  | op :: rest =>
      if Nat.eqb parsed_idx split_operand_index then
        v ← operand_value_of op;
        let v :=
          match nth_error (extract_operand_patterns (syntax d)) parsed_idx with
          | Some p => if contains p (L "/2") then v / 2 else v
          | None => v
          end in
        bound ← shl1 (total_window_bits ranges);
        if (bound - 1 <? v) && (v <? 4294967296) then None
        else
          b ← encode_parts d v ranges operand_num binary_value;
          encode_split_loop d split_operand_index ranges rest (S parsed_idx)
                            (operand_num + length ranges) b
      else
        v ← operand_value_of op;
        let '(op_pos, op_len) := get_operand_info d operand_num in
        b ← (if 0 <? op_len then
               m ← mask_of op_len;
               if m <? v then None else or_field binary_value v op_pos op_len
             else Some binary_value);
        encode_split_loop d split_operand_index ranges rest (S parsed_idx)
                          (S operand_num) b
  end.

(** [InstructionEncoder._encode_split_operand_instruction] *)
Definition encode_split_operand_instruction (p : ParsedInstruction)
           (d : InstructionDefinition) (base_opcode : Z) : option Z :=
  let '(split_operand_pos, bitfield_ranges) := parse_split_operand_syntax (syntax d) in
  match bitfield_ranges, split_operand_pos with
  | [], _ => None
  | _, O => None
  | _, S split_operand_index =>
      encode_split_loop d split_operand_index bitfield_ranges (operands p)
                        O 1 base_opcode
  end.

End SplitEncoding.

(** [re.search(r'\{\s*\[\d+:\d+\]', syntax)] *)
Definition split_block_at (s : str) : bool :=
  match lit (L "{") s with
  | Some r => match bitfield_at (blanks r) with Some _ => true | None => false end
  | None => false
  end.

Fixpoint has_split_operand (s : str) : bool :=
  split_block_at s
  || match s with
     | [] => false
     | _ :: r => has_split_operand r
     end.

Definition optimize_mnemonics : list str :=
  map L ["J"; "LOOP"; "JNZ"; "JEQ"; "JNE"; "JGE"; "JL"; "JLT"; "JGEU"; "JLTU";
         "CALL"; "MOV"; "MOV.AA"; "ADD"; "SUB"]%string.

(** [^%?[dDaAeEpP](\d+)$] or [^%?[dDaAeEpP]\[(\d+)\]$] *)
Definition operand_is_register (operand_str : str) : bool :=
  let s := strip operand_str in
  match cls is_daep_any (opt_percent s) with
  | Some (_, r) =>
      match digits1 r with
      | Some (_, r1) => at_end r1
      | None =>
          match (r1 ← lit (L "[") r; '(_, r2) ← digits1 r1; lit (L "]") r2) with
          | Some r3 => at_end r3
          | None => false
          end
      end
  | None => false
  end.

(** The compatibility filter of the size optimization of
    [encode_instruction]. *)
Fixpoint variant_compatible (patterns : list str) (normalized : list ParsedOperand) : bool :=
  match patterns, normalized with
  | syntax_op :: ps, op :: ops =>
      let actual := actual_reg_match (upper (text op)) in
      let syntax_reg := reg_match_nospace (upper syntax_op) in
      match syntax_reg, actual with
      | Some syntax_type, Some (actual_type, actual_num) =>
          if negb (ch_eqb actual_type syntax_type) then false
          else match spec_reg_match (upper syntax_op) with
               | Some (_, spec_num) =>
                   if negb (actual_num =? spec_num) then false
                   else variant_compatible ps ops
               | None => variant_compatible ps ops
               end
      | None, Some _ => false
      | Some _, None => false
      | None, None => variant_compatible ps ops
      end
  | _, _ => true
  end.

(** The value-fit loop of the size optimization; [None] is a raised
    exception. *)
Fixpoint values_fit (d : InstructionDefinition) (values : list Z) (is_reg : list bool)
         (i : nat) : option bool :=
  match values with
  | [] => Some true
  | value :: rest =>
      if nth i is_reg false then values_fit d rest is_reg (S i)
      else
        let op_len := snd (get_operand_info d (S i)) in
        if op_len =? 0 then values_fit d rest is_reg (S i)
        else
          half ← shl1 (op_len - 1);
          full ← shl1 op_len;
          if ((- half <=? value) && (value <=? half - 1))
             || ((0 <=? value) && (value <=? full - 1))
          then values_fit d rest is_reg (S i)
          else Some false
  end.

Fixpoint filter_opt {A} (f : A -> option bool) (l : list A) : option (list A) :=
  match l with
  | [] => Some []
  | x :: r =>
      match f x, filter_opt f r with
      | Some b, Some rs => Some (if b : bool then x :: rs else rs)
      | _, _ => None
      end
  end.

(** The final operand loop of the standard encoding. *)
Fixpoint encode_operands (d : InstructionDefinition) (values : list Z)
         (operand_num : nat) (binary_value : Z) : option Z :=
  match values with
  | [] => Some binary_value
  | operand_value :: rest =>
      let '(op_pos, op_len) := get_operand_info d operand_num in
      if op_len =? 0 then encode_operands d rest (S operand_num) binary_value
      else
        op_mask ← mask_of op_len;
        ok ← (if operand_value <? 0 then
                half ← shl1 (op_len - 1);
                Some (negb (operand_value <? - half))
              else Some (negb (op_mask <? operand_value)));
        if ok : bool then
          b ← or_field binary_value operand_value op_pos op_len;
          encode_operands d rest (S operand_num) b
        else None
  end.

Fixpoint parse_all {A B} (f : A -> option B) (l : list A) : option (list B) :=
  match l with
  | [] => Some []
  | x :: r => y ← f x; ys ← parse_all f r; Some (y :: ys)
  end.

(** [InstructionEncoder.encode_instruction]; [None] is a failed encoding
    (logged error or caught exception). *)
Definition encode_instruction (ld : InstructionSetLoader) (p : ParsedInstruction)
           (current_address : option Z) (labels : option (gmap str Z))
  : option EncodedInstruction :=
  let normalized_operands :=
    flat_map (fun op => map (fun split_op =>
                               let b := normalize_register split_op in
                               MkOperand b (classify_operand_type b))
                            (split_compound_operands (text op)))
             (operands p) in
  d ← match find_instruction ld (mnemonic p) (Z.of_nat (length normalized_operands))
                              (Some normalized_operands) with
      | Returns definition => definition
      | Raises => None     (* [except Exception]: logged, [return None] *)
      end;
  opcode_value ← get_opcode_value d;
  '(d, binary_value) ←
    (if has_split_operand (syntax d) then
       b ← encode_split_operand_instruction current_address labels p d opcode_value;
       Some (d, b)
     else
       let syntax_operands := extract_operand_patterns (syntax d) in
       let is_reg := map (fun op => operand_is_register (text op)) (operands p) in
       values ← parse_all
                  (fun io : nat * ParsedOperand =>
                     v ← operand_value_of current_address labels (snd io);
                     Some (match nth_error syntax_operands (fst io) with
                           | Some syntax_op => scale_value d syntax_op v
                           | None => v
                           end))
                  (combine (seq 0 (length (operands p))) (operands p));
       let all_variants := get_instruction_variants ld (mnemonic p) in
       d' ←
         (match all_variants with
          | _ :: _ :: _ =>
              if existsb (str_eqb (upper (mnemonic p))) optimize_mnemonics then
                let matching :=
                  filter (fun v => operand_count v =? Z.of_nat (length normalized_operands))
                         all_variants in
                let filtered :=
                  filter (fun v => variant_compatible (extract_operand_patterns (syntax v))
                                                      normalized_operands) matching in
                suitable ← filter_opt (fun v => values_fit v values is_reg O) filtered;
                match sort_by by_size_asc suitable with
                | best :: _ =>
                    Some (if negb (str_eqb (opcode best) (opcode d)) then best else d)
                | [] => Some d
                end
              else Some d
          | _ => Some d
          end);
       opcode_value' ← get_opcode_value d';
       b ← encode_operands d' values 1 opcode_value';
       Some (d', b));
  let size_bytes := opcode_size d / 8 in
  let width := if size_bytes =? 2 then 4%nat
               else if size_bytes =? 4 then 8%nat
               else Z.to_nat (size_bytes * 2) in
  Some (MkEncoded p d binary_value (L "0x" ++ Linker.fmtX width binary_value)).

End Encoder.

(** ** The encoder as the assembler and the linker call it *)

Module Pipeline.
Import Loader Encoder.

(** The re-encoding step of the linker's optimization loop. *)
Definition linker_reencode (ld : InstructionSetLoader) (source_text : str)
           (address : Z) (global_labels : gmap str Z) : option (Z * Z) :=
  p ← parse_instruction_line source_text 0;
  e ← encode_instruction ld p (Some address) (Some global_labels);
  Some (binary_value e, opcode_size (definition e) / 8).

(** [AssemblerEngine._calculate_directive_size] *)
Definition calculate_directive_size (line : str) : Z :=
  match split_ws line with
  | directive :: args =>
      let directive := upper directive in
      if str_eqb directive (L ".ORG") then 0
      else if str_eqb directive (L ".BYTE") then Z.of_nat (length args)
      else if str_eqb directive (L ".WORD") then Z.of_nat (length args) * 2
      else 0
  | [] => 0
  end.

(** [AssemblerEngine._calculate_instruction_size]: the size in bytes,
    [None] for an unknown instruction. *)
Definition calculate_instruction_size (ld : InstructionSetLoader) (line : str)
           (line_num : nat) : option Z :=
  let line := strip line in
  if is_nil line || startswith line (L ";") then Some 0
  else
    let line := if ch_in ";" line then Assembler.before_semicolon line else line in
    if startswith (upper line) (L ".") then Some (calculate_directive_size line)
    else
      match parse_instruction_line line line_num with
      | None => Some 0
      | Some p =>
          match find_instruction ld (mnemonic p) (Z.of_nat (length (operands p))) None with
          | Returns None => None
          | Returns (Some d) => Some (opcode_size d / 8)
          | Raises => None     (* not reached: this call passes no operands *)
          end
      end.

(** [AssemblerEngine._parse_numeric_value] *)
Definition parse_numeric_value (value_str : str) : option Z :=
  let v := strip value_str in
  if startswith v (L "%") then NumericParser.py_int 2 (remove_ch "_" (skipn 1 v))
  else NumericParser.parse_numeric v.

(** [AssemblerEngine._assemble_directive] *)
Definition assemble_directive (line : str) (address : Z) (line_num : nat)
  : option Assembler.Instruction :=
  match split_ws line with
  | directive :: args =>
      if str_eqb (upper directive) (L ".BYTE") then
        match args with
        | [] => None
        | a :: _ =>
            match parse_numeric_value a with
            | Some v => Some (Assembler.MkInstruction address (Z.land v 255) None 1 line_num line)
            | None => None
            end
        end
      else Some (Assembler.MkInstruction address 0 None 0 line_num line)
  | [] => None
  end.

(** [AssemblerEngine._assemble_instruction] *)
Definition assemble_instruction (ld : InstructionSetLoader)
           (labels : gmap str Assembler.Label) (line : str) (address : Z)
           (line_num : nat) : option Assembler.Instruction :=
  let line := if ch_in ";" line
              then match split_ch ";" line with w :: _ => w | [] => [] end
              else line in
  let line := strip line in
  if is_nil line then Some (Assembler.MkInstruction address 0 None 0 line_num line)
  else if startswith line (L ".") then assemble_directive line address line_num
  else
    match parse_instruction_line line line_num with
    | None => Some (Assembler.MkInstruction address 0 None 0 line_num line)
    | Some p =>
        let label_addresses := Assembler.lb_address <$> labels in
        match encode_instruction ld p (Some address) (Some label_addresses) with
        | None => None
        | Some e =>
            Some (Assembler.MkInstruction address (binary_value e) None
                                          (opcode_size (definition e) / 8) line_num line)
        end
    end.

End Pipeline.


(** ** The selector and the split encoder, as the specification words them *)

Module SelectorSpec.
Import Rx Loader.

(** The rows of a mnemonic that survive the filters of [find_instruction]
    on the operand count and on the two configuration flags. *)
Definition candidates (ld : InstructionSetLoader) (mnemonic : str) (n_operands : Z)
  : list InstructionDefinition :=
  let by_count := filter (fun v => operand_count v =? n_operands)
                         (get_instruction_variants ld mnemonic) in
  let m1 := if force_32bit ld
            then filter (fun v => 32 <=? opcode_size v) by_count else by_count in
  if no_implicit ld
  then filter (fun v => negb (mentions_implicit (syntax v))) m1 else m1.

(** Slot [i] of the row names the fixed register [c[n]]. *)
Definition names_fixed_register (d : InstructionDefinition) (i : nat)
           (c : ascii) (n : Z) : Prop :=
  exists p, nth_error (operand_patterns true (syntax d)) i = Some p
            /\ spec_reg_match (upper p) = Some (c, n).

(** For every syntax slot of the row: does it name a fixed register? *)
Definition fixed_slots (d : InstructionDefinition) : list bool :=
  map (fun p => is_specific (is_specific_register_syntax p))
      (operand_patterns true (syntax d)).

(** The operand is the register [c k], as both recognisers of the
    selector read it. *)
Definition is_register_operand (op : ParsedOperand) (c : ascii) (k : Z) : Prop :=
  actual_reg_match (upper (remove_ch "]" (remove_ch "[" (strip (text op))))) = Some (c, k)
  /\ extract_register_info (text op) = Reg c k.

(** The penalty of the range selector, on the flags of the slots and of
    the operands. *)
Definition penalty_count (flags regs : list bool) : nat :=
  length (filter (fun p : bool * bool => negb (fst p) && snd p) (combine flags regs)).

Definition is_reg_text (t : str) : bool :=
  match extract_register_info t with NoReg => false | _ => true end.

(** Row [w] is generic in slot [i] and names a fixed register only in
    slots where row [v_s] names one too. *)
Definition generic_beside (v_s : InstructionDefinition) (i : nat)
           (w : InstructionDefinition) : bool :=
  Nat.eqb (length (fixed_slots w)) (length (fixed_slots v_s))
  && negb (nth i (fixed_slots w) true)
  && forallb (fun p : bool * bool => implb (fst p) (snd p))
             (combine (fixed_slots w) (fixed_slots v_s)).

(** No row has a negative bit width for one of the first [n] operands. *)
Definition widths_not_negative (cs : list InstructionDefinition) (n : nat) : bool :=
  forallb (fun w => forallb (fun k => 0 <=? get_operand_bit_width w k) (seq 1 n)) cs.

(** The call takes the [LOOP] shortcut of [find_instruction]. *)
Definition loop_with_label (mnemonic : str) (ops : list ParsedOperand) : bool :=
  str_eqb (upper mnemonic) (L "LOOP") && loop_has_label ops.

(** The rows that are type-compatible with the operands: those the type
    filter of [find_instruction] keeps. *)
Definition compatible_rows (cs : list InstructionDefinition) (ops : list ParsedOperand)
  : list InstructionDefinition :=
  filter (fun w => type_matched ops w) cs.

End SelectorSpec.

Module SplitSpec.
Import Loader Encoder.

(** The split encoding as the specification words it. *)

(** [value], cut to [len] bits, placed at bit [pos]. *)
Definition field_bits (pos len value : Z) : Z :=
  Z.shiftl (Z.land value (2 ^ len - 1)) pos.

(** [(value >> lo) & ((1 << (hi - lo + 1)) - 1)] *)
Definition extract_window (value : Z) (w : Z * Z) : Z :=
  Z.land (Z.shiftr value (snd w)) (2 ^ (fst w - snd w + 1) - 1).

(** The sum of the widths of the windows. *)
Definition effective_width (ranges : list (Z * Z)) : Z :=
  fold_right (fun w acc => (fst w - snd w + 1) + acc) 0 ranges.

(** The value of the split operand after its [/2] modifier. *)
Definition split_value (d : InstructionDefinition) (s : nat) (v : Z) : Z :=
  match nth_error (extract_operand_patterns (syntax d)) s with
  | Some p => if contains p (L "/2") then v / 2 else v
  | None => v
  end.

(** The bit-field slot (1-based) of the parsed operand [j] when operand
    [s] is split into [k] windows: operands left of the split operand
    keep their own slot, the windows take the slots [s+1 .. s+k], and
    operands to the right move up by [k - 1]. *)
Definition slot_of (s k j : nat) : nat :=
  if (j <=? s)%nat then S j else (j + k)%nat.

(** What the parsed operand [j] of value [v] contributes to the word. *)
Definition contribution (d : InstructionDefinition) (s : nat) (ranges : list (Z * Z))
           (jv : nat * Z) : list Z :=
  let '(j, v) := jv in
  if (j =? s)%nat then
    map (fun sw : nat * (Z * Z) =>
           let '(pos, len) := get_operand_info d (fst sw) in
           field_bits pos len (extract_window (split_value d s v) (snd sw)))
        (combine (seq (S s) (length ranges)) ranges)
  else
    let '(pos, len) := get_operand_info d (slot_of s (length ranges) j) in
    if 0 <? len then [field_bits pos len v] else [].

Definition split_word_from (d : InstructionDefinition) (s : nat) (ranges : list (Z * Z))
           (j : nat) (values : list Z) (base : Z) : Z :=
  fold_left Z.lor
            (flat_map (contribution d s ranges) (combine (seq j (length values)) values))
            base.

Definition split_word (d : InstructionDefinition) (s : nat) (ranges : list (Z * Z))
           (values : list Z) (base : Z) : Z :=
  split_word_from d s ranges O values base.

End SplitSpec.

(** ** Sample table rows and sources

    Rows in the shape of the TriCore table (section 6.2 of the
    specification, the scenarios of its section 8 and the repository's
    tests), used to run the model on concrete inputs. *)

Module Samples.
Import Loader Encoder.

Definition row (opc : string) (size : Z) (m syn : string) (n : Z)
           (p1 l1 p2 l2 p3 l3 p4 l4 : Z) : InstructionDefinition :=
  MkDefinition (L opc) size (L m) (L m) (L syn) [] n p1 l1 p2 l2 p3 l3 p4 l4 0 0.

Definition jnz_d15 := row "0x00EE" 16 "JNZ" "JNZ D[15], disp8/2" 2 0 0 8 8 0 0 0 0.
Definition jnz_db := row "0x00F6" 16 "JNZ" "JNZ D[b], disp4/2" 2 12 4 8 4 0 0 0 0.
Definition mov_const4 := row "0x0082" 16 "MOV" "MOV D[a], const4" 2 8 4 12 4 0 0 0 0.
Definition mov_const16 := row "0x0000003B" 32 "MOV" "MOV D[c], const16" 2 28 4 12 16 0 0 0 0.
Definition mov_reg := row "0x0002" 16 "MOV" "MOV D[a], D[b]" 2 8 4 12 4 0 0 0 0.
Definition mov_d15_const8 := row "0x00DA" 16 "MOV" "MOV D[15], const8" 2 0 0 8 8 0 0 0 0.
Definition mova_16 := row "0x0060" 16 "MOV.A" "MOV.A A[a], D[b]" 2 8 4 12 4 0 0 0 0.
Definition mova_32 := row "0x06300001" 32 "MOV.A" "MOV.A A[c], D[b]" 2 28 4 12 4 0 0 0 0.
Definition stw_16 := row "0x006C" 16 "ST.W" "ST.W A[b], off4, D[15]" 3 12 4 8 4 0 0 0 0.
Definition stw_32 :=
  row "0x64000089" 32 "ST.W" "ST.W A[b], off10 {[9:6][5:0]}, D[a]" 3 12 4 28 4 16 6 8 4.
Definition j_16 := row "0x003C" 16 "J" "J disp8/2" 1 8 8 0 0 0 0 0 0.
Definition j_32 := row "0x0000001D" 32 "J" "J disp24/2 {[15:0],[23:16]}" 1 16 16 8 8 0 0 0 0.
Definition nop_16 := row "0x0000" 16 "NOP" "NOP" 0 0 0 0 0 0 0 0 0.

Definition sample_table : gmap str (list InstructionDefinition) :=
  list_to_map
    [(L "JNZ", [jnz_d15; jnz_db]);
     (L "MOV", [mov_const4; mov_const16; mov_reg]);
     (L "MOV.A", [mova_16; mova_32]);
     (L "ST.W", [stw_16; stw_32]);
     (L "J", [j_16; j_32]);
     (L "NOP", [nop_16])].

Definition sample_loader : InstructionSetLoader := MkLoader false false sample_table.

(** A table with one row naming the fixed register D15 and one generic
    row of the same mnemonic and arity. *)
Definition mov_d15_table : gmap str (list InstructionDefinition) :=
  {[ L "MOV" := [mov_d15_const8; mov_const16] ]}.

Definition operand (s : string) : ParsedOperand :=
  MkOperand (L s) (classify_operand_type (L s)).

(** Tables on which the fixed-register row is not the one selected: a
    [LOOP] with a fixed and a generic row; a generic row whose stored
    width is negative; two rows that name the fixed register in
    different slots. *)
Definition loop_d15 := row "0x00FC" 16 "LOOP" "LOOP D[15], disp4/2" 2 0 0 8 4 0 0 0 0.
Definition loop_db := row "0x000000FD" 32 "LOOP" "LOOP D[b], disp15/2" 2 12 4 16 15 0 0 0 0.
Definition loop_table : gmap str (list InstructionDefinition) :=
  {[ L "LOOP" := [loop_d15; loop_db] ]}.

Definition mov_bad_width := row "0x0000003B" 32 "MOV" "MOV D[c], value" 2 28 4 12 (-1) 0 0 0 0.
Definition bad_width_table : gmap str (list InstructionDefinition) :=
  {[ L "MOV" := [mov_d15_const8; mov_bad_width] ]}.

Definition add_d15_first := row "0x0092" 16 "ADD" "ADD D[15], D[a]" 2 0 0 8 4 0 0 0 0.
Definition add_d15_second := row "0x0000008B" 32 "ADD" "ADD D[c], D[15]" 2 28 4 0 0 0 0 0 0.
Definition crossed_table : gmap str (list InstructionDefinition) :=
  {[ L "ADD" := [add_d15_first; add_d15_second] ]}.

(** The assembler's two passes over the sample table; data directives
    are not used by the sample sources. *)
Definition no_float : str -> option unit := fun _ => None.

Definition sample_assemble (lines : list string) : Assembler.engine * bool :=
  Assembler.assemble unit no_float
    (fun _ _ _ => None)
    (Pipeline.calculate_instruction_size sample_loader)
    (fun _ _ _ _ => None)
    (Pipeline.assemble_instruction sample_loader)
    Assembler.initial_engine (map L lines).

Definition sample_first_pass (lines : list string) : Assembler.engine * bool :=
  Assembler.first_pass unit no_float
    (fun _ _ _ => None)
    (Pipeline.calculate_instruction_size sample_loader)
    Assembler.initial_engine (map L lines).

(** [ST.W [a12]176, d15], whose offset needs the split 10-bit row. *)
Definition stw_far : ParsedInstruction :=
  MkParsed (L "ST.W") [operand "a12"; operand "176"; operand "d15"]
           (L "ST.W [a12]176, d15") 1.

(** The linked record of the 2-byte instruction [MOV D4, #1] at the
    default origin, and the memory image of its opcode. *)
Definition mov_d4_record : Linker.linked_instruction :=
  Linker.LinkedInstruction 2147483648 5250 None (L "MOV D4, #1") (L "a.asm") 2.

Definition sample_image : gmap Z Z := Linker.write_opcode true ∅ 2147483648 5250.

(** A constant table with one [EQU] symbol. *)
Definition known_constants : gmap str Z := {[ L "BUFFER_SIZE" := 64 ]}.

End Samples.

Module NumericDigitsDefs.
Import NumericParser NumericFormat.

(** The characters the renderer writes for digits. *)
Definition hexd (c : ascii) : bool := is_digit c || ch_in c (L "abcdef").

(** A character that neither [strip] nor the removal of underscores
    touches. *)
Definition clean (c : ascii) : Prop := is_space c = false /\ ch_eqb c "_" = false.

(** [ds] are the digits of [n] in [base], most significant first. *)
Record digits_of (base n : Z) (ds : str) : Prop := DigitsOf {
  do_hexd : Forall (fun c => hexd c = true) ds;
  do_decimal : base <= 10 -> Forall (fun c => is_digit c = true) ds;
  do_head : exists d1 rest, ds = d1 :: rest /\ ch_eqb "0" d1 = false
                            /\ ch_eqb d1 "0" = false;
  do_value : forall a r, exists k,
      0 <= k /\
      py_digits base a false (ds ++ r) = py_digits base (a * base ^ k + n) false r
}.

End NumericDigitsDefs.

Module SelectorPartsDefs.
Import Rx Loader SelectorSpec.

(** The rows of the mnemonic with the requested operand count. *)
Definition by_count (ld : InstructionSetLoader) (mnemonic : str) (n_operands : Z)
  : list InstructionDefinition :=
  filter (fun v => operand_count v =? n_operands) (get_instruction_variants ld mnemonic).

(** The special case of [find_instruction] for [LOOP] with a label
    operand: the largest row, before any other filter. *)
Definition loop_shortcut (ld : InstructionSetLoader) (mnemonic : str) (n_operands : Z)
           (ops : list ParsedOperand) : option InstructionDefinition :=
  if str_eqb (upper mnemonic) (L "LOOP") && negb (is_nil ops) && loop_has_label ops
  then match by_count ld mnemonic n_operands with
       | _ :: _ :: _ => hd_error (sort_by by_size_desc (by_count ld mnemonic n_operands))
       | _ => None
       end
  else None.

(** The choice among the candidate rows: type filter, then range
    selector, with the two fall-backs on the opcode size. *)
Definition select (cs : list InstructionDefinition) (ops : list ParsedOperand)
  : outcome (option InstructionDefinition) :=
  match cs with
  | [] => Returns None
  | [v] => Returns (Some v)
  | _ =>
      let matched := if is_nil ops then [] else filter (type_matched ops) cs in
      match matched with
      | [] => Returns (hd_error (sort_by by_size_asc cs))
      | [v] => Returns (Some v)
      | _ =>
          match find_best_variant_by_operand_range matched (map text ops) with
          | Returns (Some best) => Returns (Some best)
          | Returns None => Returns (hd_error (sort_by by_size_desc matched))
          | Raises => Raises
          end
      end
  end.

(** The range check of a row says "fits". *)
Definition fits (texts : list str) (d : InstructionDefinition) : bool :=
  match can_fit texts d with
  | Returns fit => fit
  | Raises => false
  end.

(** The sort key of the range selector. *)
Definition has_labels (texts : list str) : bool :=
  existsb (fun v : option Z => match v with None => true | Some _ => false end)
          (map operand_value texts).

Definition selector_key (texts : list str) (v : InstructionDefinition) : Z * Z :=
  (non_specific_matches texts v,
   if has_labels texts then - opcode_size v else opcode_size v).

End SelectorPartsDefs.

Module OutputSpec.
Import Linker.

(** The value of a byte string read least significant byte first. *)
Definition le_value (bs : list Z) : Z := fold_right (fun b acc => b + 256 * acc) 0 bs.

(** The addresses a record stores: [(first, count)]. *)
Definition footprint (data_handler : linked_instruction -> data_outcome)
           (i : linked_instruction) : Z * Z :=
  if classified_data_directive (li_source_text i) then
    match data_handler i with
    | DataBytes bs => (li_address i, Z.of_nat (length bs))
    | DataException => (li_address i, 4)
    | DataAbort => (li_address i, 0)
    end
  else (li_address i, 4).

Definition in_footprint (data_handler : linked_instruction -> data_outcome)
           (i : linked_instruction) (k : Z) : Prop :=
  fst (footprint data_handler i) <= k
  < fst (footprint data_handler i) + snd (footprint data_handler i).

End OutputSpec.

Module PassSpec.
Import Assembler.

(** The engine a line of a pass leaves. *)
Definition engine_of (r : line_result) : engine :=
  match r with Continue e _ => e | Abort e => e end.

(** The first pass emits no code and never changes a label it has. *)
Definition first_pass_keeps (e e' : engine) : Prop :=
  instructions e' = instructions e
  /\ forall name l, labels e !! name = Some l -> labels e' !! name = Some l.

(** The second pass leaves the symbol tables and the listing alone and
    only appends code. *)
Definition second_pass_keeps (e e' : engine) : Prop :=
  labels e' = labels e /\ constants e' = constants e
  /\ source_listing e' = source_listing e
  /\ exists new, instructions e' = instructions e ++ new.

End PassSpec.

Module DataSizeSpec.
Import NumericParser DataDirective.

(** Result of [calculate_size]: an [int], or the product of a count that
    is not an [int] (a float or a byte string). *)
Inductive size_result :=
| SizeInt (z : Z)
| SizeOther.

Section Handler.
Variable F : Type.
Variable py_float : str -> option F.
Variable little_endian : bool.
Variable constants : gmap str Z.
Variable labels : gmap str Z.
Variable float_bytes : Z -> bool -> F -> list Z.
(** [_calculate_times_size] and [_calculate_incbin_size], which read the
    repeated statement and the file system. *)
Variable times_size : str -> size_result.
Variable incbin_size : str -> size_result.

(** The loop over the values of a data directive: the length of a byte
    string, the directive width for anything else. *)
Definition values_size (size : Z) (values : list (value F)) : Z :=
  fold_left (fun total v => match v with
                            | VBytes b => total + Z.of_nat (length b)
                            | _ => total + size
                            end) values 0.

(** [DataDirective.calculate_size] *)
Definition calculate_size (line : str) : size_result :=
  let line := if ch_in ";" line then strip_comment false None line else line in
  match split_ws1 (strip line) with
  | [] => SizeInt 0
  | d :: rest =>
      let directive := upper d in
      if str_eqb directive (L "TIMES") then times_size line
      else
        match RESERVE_SIZES directive with
        | Some size =>
            match rest with
            | [] => SizeInt 0
            | r :: _ =>
                match parse_value F py_float constants labels r with
                | VInt count => SizeInt (count * size)
                | _ => SizeOther
                end
            end
        | None =>
            match DATA_SIZES directive with
            | Some size =>
                match rest with
                | [] => SizeInt 0
                | r :: _ =>
                    SizeInt (values_size size (parse_data_list F py_float constants labels r))
                end
            | None =>
                if str_eqb directive (L "INCBIN")
                then incbin_size (match rest with r :: _ => r | [] => [] end)
                else SizeInt 0
            end
        end
  end.

(** The branch of [AssemblerEngine._assemble_data_directive] for the
    directives of [DATA_SIZES]: the bytes [data] it encodes, [None] when
    the encoding raises; a line without any word gives no bytes.  The
    line is not one of [TIMES], [RES*], [INCBIN]. *)
Definition data_directive_bytes (line : str) : option (list Z) :=
  let line := if ch_in ";" line
              then strip (match split_ch ";" line with w :: _ => w | [] => [] end)
              else line in
  match split_ws1 line with
  | [] => Some []
  | d :: rest =>
      let directive := upper d in
      let operands := match rest with r :: _ => r | [] => [] end in
      encode_data F little_endian float_bytes directive
                  (parse_data_list F py_float constants labels operands)
  end.

End Handler.

End DataSizeSpec.

Module LayoutSpec.
Import Linker.

(** Every instruction starts at or after the end of the one before it. *)
Fixpoint laid_out (l : list obj_instruction) : bool :=
  match l with
  | a :: ((b :: _) as r) => (i_address a + i_size a <=? i_address b) && laid_out r
  | _ => true
  end.

(** An encoder that fails on every text: the optimisation keeps every
    instruction. *)
Definition keep_all : str -> Z -> gmap str Z -> option (Z * Z) := fun _ _ _ => None.

(** Three instructions in a row, a jump in the middle, and a label on the
    jump. *)
Definition loop_object : ObjectFile :=
  MkObjectFile (L "a.asm")
    [ObjInstruction 2147483648 0 None (L "NOP") 2;
     ObjInstruction 2147483650 60 None (L "J again") 2;
     ObjInstruction 2147483652 0 None (L "NOP") 2]
    {[ L "again" := 2147483650 ]}.

End LayoutSpec.

(** * Properties *)

(** ** Lists *)

Module Basics.

(** [filter] on a boolean predicate, one element at a time. *)
Lemma filter_bool_cons {A} (f : A -> bool) (x : A) (l : list A) :
  filter (fun y => f y) (x :: l)
  = if f x then x :: filter (fun y => f y) l else filter (fun y => f y) l.
Proof.
  rewrite filter_cons. destruct (decide (f x)) as [H|H]; destruct (f x); simpl in *;
    try reflexivity; try contradiction.
Qed.

Lemma filter_bool_nil {A} (f : A -> bool) : filter (fun y => f y) (@nil A) = [].
Proof. reflexivity. Qed.

End Basics.

(** ** instruction_loader.py: lemmas on the selector *)

Module SelectorBasics.
Import Basics Rx Loader Encoder SelectorSpec SelectorPartsDefs.

(** *** The stable sort *)

Section Sort.
Context {A : Type} (le : A -> A -> bool).

Lemma elem_of_insert_by x y l : x ∈ insert_by le y l <-> x = y \/ x ∈ l.
Proof.
  induction l as [|z l IH]; cbn [insert_by].
  - rewrite list_elem_of_singleton, elem_of_nil. tauto.
  - destruct (le y z).
    + rewrite elem_of_cons. tauto.
    + rewrite !elem_of_cons, IH. tauto.
Qed.

Lemma elem_of_sort_by x l : x ∈ sort_by le l <-> x ∈ l.
Proof.
  unfold sort_by. induction l as [|y l IH]; cbn [fold_right]; [tauto|].
  rewrite elem_of_insert_by, elem_of_cons, IH. tauto.
Qed.

Lemma hd_error_elem_of (l : list A) v : hd_error l = Some v -> v ∈ l.
Proof. destruct l; [discriminate|]. intros [= ->]. apply list_elem_of_here. Qed.

Lemma hd_sort_by_elem_of l v : hd_error (sort_by le l) = Some v -> v ∈ l.
Proof. intros H. apply elem_of_sort_by, hd_error_elem_of, H. Qed.

Lemma hd_insert_by x l :
  hd_error (insert_by le x l)
  = Some (match l with
          | [] => x
          | y :: _ => if le x y then x else y
          end).
Proof. destruct l as [|y l]; cbn [insert_by]; [reflexivity|]. destruct (le x y); reflexivity. Qed.

Lemma hd_sort_by_nonempty l x : x ∈ l -> exists h, hd_error (sort_by le l) = Some h.
Proof.
  intros Hx. apply elem_of_sort_by in Hx.
  destruct (sort_by le l) as [|h r]; [inversion Hx|]. exists h. reflexivity.
Qed.

Lemma find_only (P : A -> bool) l v :
  v ∈ l -> P v = true -> (forall x, x ∈ l -> P x = true -> x = v) ->
  List.find P l = Some v.
Proof.
  induction l as [|y l IH]; intros Hv HP Hu; [inversion Hv|].
  cbn [List.find]. destruct (P y) eqn:Ey.
  - f_equal. apply Hu; [apply list_elem_of_here|exact Ey].
  - apply IH; [|exact HP|].
    + apply elem_of_cons in Hv as [->|Hv]; [congruence|exact Hv].
    + intros x Hx. apply Hu. apply list_elem_of_further, Hx.
Qed.

Hypothesis le_total : forall a b, le a b = false -> le b a = true.
Hypothesis le_trans : forall a b c, le a b = true -> le b c = true -> le a c = true.

Lemma le_refl a : le a a = true.
Proof.
  destruct (le a a) eqn:E; [reflexivity|]. pose proof (le_total _ _ E). congruence.
Qed.

Lemma find_strengthen (P Q : A -> bool) l h :
  (forall x, x ∈ l -> P x = true -> Q x = true) ->
  List.find Q l = Some h -> P h = true -> List.find P l = Some h.
Proof.
  induction l as [|x l IH]; intros HPQ HQ HP; [discriminate|].
  cbn [List.find] in *. destruct (Q x) eqn:Eq.
  - injection HQ as ->. rewrite HP. reflexivity.
  - destruct (P x) eqn:Ep.
    + rewrite (HPQ x (list_elem_of_here _ _) Ep) in Eq. discriminate.
    + apply IH; [|exact HQ|exact HP].
      intros y Hy. apply HPQ. apply list_elem_of_further, Hy.
Qed.

(** The head of the sorted list is the first element of the list that
    is not above any other. *)
Lemma hd_sort_by_first_minimal l :
  hd_error (sort_by le l) = List.find (fun x => forallb (le x) l) l.
Proof.
  induction l as [|a l IH]; [reflexivity|].
  change (sort_by le (a :: l)) with (insert_by le a (sort_by le l)).
  rewrite hd_insert_by. cbn [List.find forallb]. rewrite le_refl. cbn [andb].
  destruct (sort_by le l) as [|h s] eqn:Es.
  - assert (l = []) as ->.
    { destruct l as [|y l']; [reflexivity|]. exfalso.
      assert (y ∈ sort_by le (y :: l')) as Hy by (apply elem_of_sort_by, list_elem_of_here).
      rewrite Es in Hy. inversion Hy. }
    reflexivity.
  - cbn [hd_error] in IH. symmetry in IH.
    assert (Hh : h ∈ l).
    { apply elem_of_sort_by. rewrite Es. apply list_elem_of_here. }
    assert (Hmin : forallb (le h) l = true).
    { apply find_some in IH. apply IH. }
    destruct (le a h) eqn:Eah.
    + assert (forallb (le a) l = true) as ->; [|reflexivity].
      apply forallb_forall. intros x Hx.
      apply (le_trans a h x Eah).
      rewrite forallb_forall in Hmin. apply Hmin, Hx.
    + assert (forallb (le a) l = false) as ->.
      { destruct (forallb (le a) l) eqn:E; [|reflexivity].
        rewrite forallb_forall in E. rewrite (E h) in Eah; [discriminate|].
        apply list_elem_of_In, Hh. }
      symmetry. apply (find_strengthen _ (fun x => forallb (le x) l)).
      * intros x _ Hx. apply andb_true_iff in Hx. apply Hx.
      * exact IH.
      * rewrite Hmin. rewrite (le_total _ _ Eah). reflexivity.
Qed.

End Sort.

Lemma lex_le_total a b : lex_le a b = false -> lex_le b a = true.
Proof.
  unfold lex_le. destruct a as [a1 a2], b as [b1 b2]. cbn [fst snd]. intros H.
  apply orb_false_iff in H as [H1 H2]. apply Z.ltb_ge in H1.
  destruct (Z.ltb_spec b1 a1); [reflexivity|]. cbn [orb].
  assert (a1 = b1) by lia. subst.
  rewrite Z.eqb_refl in *. cbn [andb] in *. apply Z.leb_gt in H2.
  apply Z.leb_le. lia.
Qed.

Lemma lex_le_trans a b c : lex_le a b = true -> lex_le b c = true -> lex_le a c = true.
Proof.
  unfold lex_le. destruct a as [a1 a2], b as [b1 b2], c as [c1 c2]. cbn [fst snd].
  intros H1 H2.
  apply orb_true_iff in H1 as [H1|H1]; apply orb_true_iff in H2 as [H2|H2];
    repeat match goal with
           | H : _ && _ = true |- _ => apply andb_true_iff in H as [? ?]
           | H : (_ <? _) = true |- _ => apply Z.ltb_lt in H
           | H : (_ =? _) = true |- _ => apply Z.eqb_eq in H
           | H : (_ <=? _) = true |- _ => apply Z.leb_le in H
           end; subst.
  - destruct (Z.ltb_spec a1 c1); [reflexivity|lia].
  - destruct (Z.ltb_spec a1 c1); [reflexivity|lia].
  - destruct (Z.ltb_spec b1 c1); [reflexivity|lia].
  - rewrite Z.eqb_refl. destruct (Z.leb_spec a2 c2); [apply orb_true_r|lia].
Qed.

Lemma lex_le_spec a b :
  lex_le a b = true <-> fst a < fst b \/ (fst a = fst b /\ snd a <= snd b).
Proof.
  unfold lex_le. rewrite orb_true_iff, andb_true_iff, Z.ltb_lt, Z.eqb_eq, Z.leb_le.
  tauto.
Qed.

Lemma elem_of_filter_bool {A} (f : A -> bool) (l : list A) x :
  x ∈ filter (fun y => f y) l <-> f x = true /\ x ∈ l.
Proof.
  rewrite list_elem_of_filter. destruct (f x); cbn; intuition congruence.
Qed.

(** *** The range check and its exception *)

Lemma fits_width_raises (op_len value : Z) :
  fits_width op_len value = Raises <-> op_len < 1.
Proof.
  unfold fits_width, shift_one.
  destruct (Z.ltb_spec (op_len - 1) 0); [split; [lia|reflexivity]|].
  destruct (Z.ltb_spec op_len 0); [lia|]. split; [discriminate|lia].
Qed.

Lemma operand_fits_returns d texts i v :
  0 <= get_operand_bit_width d (S i) -> operand_fits d texts i v <> Raises.
Proof.
  intros Hw. unfold operand_fits. destruct v as [value|].
  - cbv zeta. destruct (Z.eqb_spec (get_operand_bit_width d (S i)) 0); [discriminate|].
    intros E. apply fits_width_raises in E. lia.
  - destruct (nth_error (operand_patterns false (syntax d)) i); [|discriminate].
    destruct (nth_error texts i); [|discriminate]. cbv zeta.
    destruct (looks_like_register _); discriminate.
Qed.

Lemma all_operands_fit_returns d texts i values :
  (forall k, (i < k <= i + length values)%nat -> 0 <= get_operand_bit_width d k) ->
  all_operands_fit d texts i values <> Raises.
Proof.
  revert i. induction values as [|v r IH]; intros i Hw; cbn [all_operands_fit];
    [discriminate|].
  destruct (operand_fits d texts i v) as [[|]|] eqn:E.
  - apply IH. intros k Hk. apply Hw. cbn [length]. lia.
  - discriminate.
  - exfalso. apply (operand_fits_returns d texts i v); [|exact E].
    apply Hw. cbn [length]. lia.
Qed.

(** A row without negative bit width passes the range check without
    exception. *)
Lemma can_fit_returns texts d :
  (forall k, (1 <= k <= length texts)%nat -> 0 <= get_operand_bit_width d k) ->
  can_fit texts d <> Raises.
Proof.
  intros Hw. unfold can_fit. apply all_operands_fit_returns.
  intros k Hk. apply Hw. rewrite length_map in Hk. lia.
Qed.

Lemma fits_true texts d : fits texts d = true <-> can_fit texts d = Returns true.
Proof.
  unfold fits. destruct (can_fit texts d) as [[|]|]; split; congruence.
Qed.

Lemma suitable_variants_returns texts vs sv :
  suitable_variants texts vs = Returns sv ->
  sv = filter (fun v => fits texts v) vs
  /\ forall w, w ∈ vs -> can_fit texts w <> Raises.
Proof.
  revert sv. induction vs as [|v vs IH]; intros sv; cbn [suitable_variants].
  - intros [= <-]. split; [reflexivity|]. intros w Hw. inversion Hw.
  - destruct (can_fit texts v) as [fit|] eqn:Ev; [|discriminate].
    destruct (suitable_variants texts vs) as [l|]; [|discriminate].
    intros [= <-]. destruct (IH l eq_refl) as [-> Hr]. split.
    + rewrite filter_bool_cons.
      assert (fits texts v = fit) as -> by (unfold fits; rewrite Ev; reflexivity).
      reflexivity.
    + intros w Hw. apply elem_of_cons in Hw as [->|Hw]; [congruence|apply Hr, Hw].
Qed.

Lemma suitable_variants_total texts vs :
  (forall w, w ∈ vs -> can_fit texts w <> Raises) ->
  suitable_variants texts vs = Returns (filter (fun v => fits texts v) vs).
Proof.
  induction vs as [|v vs IH]; intros Hr; cbn [suitable_variants]; [reflexivity|].
  rewrite IH by (intros w Hw; apply Hr, list_elem_of_further, Hw).
  rewrite filter_bool_cons.
  destruct (can_fit texts v) as [fit|] eqn:Ev.
  - assert (fits texts v = fit) as -> by (unfold fits; rewrite Ev; reflexivity).
    reflexivity.
  - exfalso. apply (Hr v); [apply list_elem_of_here|exact Ev].
Qed.

(** What the range selector returns: the head of the fitting rows in
    the order of the sort key. *)
Lemma find_best_returns vs texts r :
  find_best_variant_by_operand_range vs texts = Returns r ->
  r = hd_error (sort_by (fun a b => lex_le (selector_key texts a) (selector_key texts b))
                        (filter (fun v => fits texts v) vs))
  /\ forall w, w ∈ vs -> can_fit texts w <> Raises.
Proof.
  unfold find_best_variant_by_operand_range. cbv zeta.
  destruct (suitable_variants texts vs) as [sv|] eqn:Es; [|discriminate].
  apply suitable_variants_returns in Es as [-> Hr].
  destruct (filter (fun v => fits texts v) vs); intros [= <-]; (split; [reflexivity|exact Hr]).
Qed.

Lemma find_best_total vs texts :
  (forall w, w ∈ vs -> can_fit texts w <> Raises) ->
  find_best_variant_by_operand_range vs texts
  = Returns (hd_error (sort_by (fun a b => lex_le (selector_key texts a)
                                                  (selector_key texts b))
                               (filter (fun v => fits texts v) vs))).
Proof.
  intros Hr. unfold find_best_variant_by_operand_range. cbv zeta.
  rewrite (suitable_variants_total _ _ Hr).
  destruct (filter (fun v => fits texts v) vs); reflexivity.
Qed.

Lemma find_best_properties vs texts best :
  find_best_variant_by_operand_range vs texts = Returns (Some best) ->
  best ∈ vs /\ can_fit texts best = Returns true.
Proof.
  intros H. apply find_best_returns in H as [H _]. symmetry in H.
  apply hd_sort_by_elem_of in H. apply elem_of_filter_bool in H as [Hf Hin].
  split; [exact Hin|apply fits_true, Hf].
Qed.

(** *** The stages of [find_instruction] *)

Lemma find_instruction_parts ld mnemonic n_operands operands :
  find_instruction ld mnemonic n_operands operands
  = match loop_shortcut ld mnemonic n_operands (default [] operands) with
    | Some v => Returns (Some v)
    | None => select (candidates ld mnemonic n_operands) (default [] operands)
    end.
Proof.
  unfold find_instruction, loop_shortcut, select, candidates, by_count. cbv zeta.
  match goal with
  | |- match ?x with _ => _ end = match ?x with _ => _ end => destruct x
  end; [reflexivity|].
  destruct (filter (fun v => operand_count v =? n_operands)
                   (get_instruction_variants ld mnemonic)) as [|a l].
  - destruct (force_32bit ld), (no_implicit ld); reflexivity.
  - destruct (force_32bit ld).
    + destruct (filter (fun v => 32 <=? opcode_size v) (a :: l)) as [|a1 l1].
      * destruct (no_implicit ld); reflexivity.
      * destruct (no_implicit ld);
          [destruct (filter (fun v => negb (mentions_implicit (syntax v))) (a1 :: l1))
             as [|x [|y r]]
          |destruct l1]; reflexivity.
    + destruct (no_implicit ld);
        [destruct (filter (fun v => negb (mentions_implicit (syntax v))) (a :: l))
           as [|x [|y r]]
        |destruct l]; reflexivity.
Qed.

Lemma loop_shortcut_by_count ld mnemonic n_operands ops v :
  loop_shortcut ld mnemonic n_operands ops = Some v ->
  v ∈ by_count ld mnemonic n_operands.
Proof.
  unfold loop_shortcut.
  destruct (str_eqb (upper mnemonic) (L "LOOP") && negb (is_nil ops) && loop_has_label ops);
    [|discriminate].
  destruct (by_count ld mnemonic n_operands) as [|a [|b l]] eqn:E; try discriminate.
  intros H. apply hd_sort_by_elem_of in H. exact H.
Qed.

Lemma select_elem_of cs ops v : select cs ops = Returns (Some v) -> v ∈ cs.
Proof.
  unfold select. destruct cs as [|a [|b l]]; [discriminate| |].
  - intros [= <-]. apply list_elem_of_here.
  - cbv zeta. set (cs := a :: b :: l).
    assert (Hsub : forall x, x ∈ (if is_nil ops then [] else filter (type_matched ops) cs)
                             -> x ∈ cs).
    { intros x. destruct (is_nil ops); [intros H; inversion H|].
      intros H. apply elem_of_filter_bool in H. apply H. }
    destruct (if is_nil ops then [] else filter (type_matched ops) cs)
      as [|m1 [|m2 ms]] eqn:Em.
    + intros H. apply (hd_sort_by_elem_of by_size_asc). congruence.
    + intros [= <-]. apply Hsub, list_elem_of_here.
    + destruct (find_best_variant_by_operand_range (m1 :: m2 :: ms) (map text ops))
        as [[best|]|] eqn:Eb.
      * intros [= <-]. apply Hsub. apply find_best_properties in Eb. apply Eb.
      * intros H. apply Hsub. apply (hd_sort_by_elem_of by_size_desc). congruence.
      * discriminate.
Qed.

Lemma candidates_by_count ld mnemonic n_operands v :
  v ∈ candidates ld mnemonic n_operands ->
  v ∈ by_count ld mnemonic n_operands
  /\ (force_32bit ld = true -> 32 <= opcode_size v)
  /\ (no_implicit ld = true -> mentions_implicit (syntax v) = false).
Proof.
  unfold candidates, by_count. cbv zeta. intros H.
  assert (H1 : v ∈ (if force_32bit ld
                    then filter (fun v => 32 <=? opcode_size v)
                           (filter (fun v => operand_count v =? n_operands)
                                   (get_instruction_variants ld mnemonic))
                    else filter (fun v => operand_count v =? n_operands)
                                (get_instruction_variants ld mnemonic))
               /\ (no_implicit ld = true -> mentions_implicit (syntax v) = false)).
  { destruct (no_implicit ld).
    - apply elem_of_filter_bool in H as [Hi H]. split; [exact H|].
      intros _. apply negb_true_iff, Hi.
    - split; [exact H|discriminate]. }
  destruct H1 as [H1 Himp]. split; [|split; [|exact Himp]].
  - destruct (force_32bit ld); [|exact H1].
    apply elem_of_filter_bool in H1. apply H1.
  - destruct (force_32bit ld); [|discriminate].
    intros _. apply elem_of_filter_bool in H1 as [H32 _]. apply Z.leb_le, H32.
Qed.

(** A call without operands does not reach the range selector. *)
Lemma find_instruction_without_operands ld mnemonic n_operands :
  find_instruction ld mnemonic n_operands None <> Raises.
Proof.
  rewrite find_instruction_parts. cbn [default].
  destruct (loop_shortcut ld mnemonic n_operands []); [discriminate|].
  unfold select. destruct (candidates ld mnemonic n_operands) as [|a [|b l]];
    discriminate.
Qed.

End SelectorBasics.

(** ** numeric_parser.py *)

Module NumericParserFacts.
Import NumericParser NumericFormat.

(** C1 (failing input). Zero rendered with the trailing [b] or the
    trailing [o] is the text [0b] or [0o]; the parser takes it for the
    binary or octal prefix with no digits and fails, while the sibling
    forms [0y], [0q], [0d] and [0h], whose prefix tests ask for more
    than two characters, parse to zero. *)
Theorem roundtrip_fails_on_zero_with_suffix_b_o :
  render BinSuffixB false 0 = L "0b"
  /\ parse_numeric (render BinSuffixB false 0) = None
  /\ render OctSuffixO false 0 = L "0o"
  /\ parse_numeric (render OctSuffixO false 0) = None
  /\ parse_numeric (render BinSuffixY false 0) = Some 0
  /\ parse_numeric (render OctSuffixQ false 0) = Some 0
  /\ parse_numeric (render DecSuffixD false 0) = Some 0
  /\ parse_numeric (render HexSuffixH false 0) = Some 0.
Proof. vm_compute. repeat split; reflexivity. Qed.

End NumericParserFacts.

(** ** data_directives.py *)

Module DataDirectiveFacts.
Import NumericParser DataDirective Samples.

Lemma int_to_bytes_zero size little :
  In size [1; 2; 4; 8; 10; 16; 32; 64] ->
  int_to_bytes size little 0 = Some (repeat 0 (Z.to_nat size)).
Proof.
  intros H. simpl in H.
  repeat (destruct H as [<-|H]; [destruct little; vm_compute; reflexivity|]).
  contradiction.
Qed.

Lemma DATA_SIZES_values d size :
  DATA_SIZES d = Some size -> In size [1; 2; 4; 8; 10; 16; 32; 64].
Proof.
  unfold DATA_SIZES.
  repeat match goal with
         | |- context [if ?b then _ else _] => destruct b
         end; intros H; try discriminate; injection H as <-; simpl; tauto.
Qed.

(** C10. An operand that is not a quoted literal, is not read as a
    float, names no [EQU] constant and no label, and is rejected by the
    numeric parser evaluates to the integer 0; in a data list of any
    directive width it is encoded as that many zero bytes. *)
Theorem parse_value_unrecognized_is_zero
        (F : Type) (py_float : str -> option F) (little_endian : bool)
        (constants labels : gmap str Z) (float_bytes : Z -> bool -> F -> list Z)
        (value_str : str) :
  let v := strip value_str in
  quoted_with dquote v = false ->
  quoted_with "'" v = false ->
  (float_candidate v = false \/ py_float v = None) ->
  constants !! v = None ->
  labels !! v = None ->
  parse_numeric v = None ->
  parse_value F py_float constants labels value_str = VInt 0
  /\ forall directive size,
       DATA_SIZES (upper directive) = Some size ->
       encode_data F little_endian float_bytes directive
                   [parse_value F py_float constants labels value_str]
       = Some (repeat 0 (Z.to_nat size)).
Proof.
  intros v Hq1 Hq2 Hf Hc Hl Hn.
  assert (E : parse_value F py_float constants labels value_str = VInt 0).
  { unfold parse_value. fold v. rewrite Hq1, Hq2.
    replace (if float_candidate v then py_float v else None) with (@None F)
      by (destruct Hf as [-> | ->]; [reflexivity|destruct (float_candidate v); reflexivity]).
    rewrite Hc, Hl, Hn. reflexivity. }
  split; [exact E|].
  intros directive size Hs. unfold encode_data. rewrite Hs, E. simpl.
  rewrite (int_to_bytes_zero size little_endian (DATA_SIZES_values _ _ Hs)).
  rewrite app_nil_r. reflexivity.
Qed.

(** The misspelled constant [BUFER_SIZE] meets the hypotheses of
    [parse_value_unrecognized_is_zero]. *)
Lemma parse_value_unrecognized_is_zero_witness :
  parse_value unit (fun _ => None) known_constants ∅ (L "BUFER_SIZE") = VInt 0
  /\ forall directive size,
       DATA_SIZES (upper directive) = Some size ->
       encode_data unit true (fun _ _ _ => []) directive
                   [parse_value unit (fun _ => None) known_constants ∅ (L "BUFER_SIZE")]
       = Some (repeat 0 (Z.to_nat size)).
Proof.
  apply (parse_value_unrecognized_is_zero unit (fun _ => None) true known_constants ∅
           (fun _ _ _ => []) (L "BUFER_SIZE")).
  - vm_compute. reflexivity.
  - vm_compute. reflexivity.
  - right. reflexivity.
  - vm_compute. reflexivity.
  - vm_compute. reflexivity.
  - vm_compute. reflexivity.
Defined.

End DataDirectiveFacts.

(** ** instruction_loader.py: the variant selector *)

Module SelectorFacts.
Import Basics SelectorBasics Rx Loader Encoder SelectorSpec SelectorPartsDefs Samples.



(** *** The two readings of a fixed-register slot agree *)

Lemma upper_ch_digit c : is_digit (upper_ch c) = is_digit c.
Proof. destruct c as [[] [] [] [] [] [] [] []]; reflexivity. Qed.

Lemma upper_ch_digit_id c : is_digit c = true -> upper_ch c = c.
Proof. destruct c as [[] [] [] [] [] [] [] []]; intros H; try reflexivity; discriminate H. Qed.

Lemma upper_ch_open c : upper_ch c = "["%char -> c = "["%char.
Proof. destruct c as [[] [] [] [] [] [] [] []]; intros H; try reflexivity; discriminate H. Qed.

Lemma upper_ch_close c : upper_ch c = "]"%char -> c = "]"%char.
Proof. destruct c as [[] [] [] [] [] [] [] []]; intros H; try reflexivity; discriminate H. Qed.

Lemma DAEP_is_DAEPC c : is_DAEP c = true -> in_class "DAEPC" c = true.
Proof.
  unfold is_DAEP, in_class. simpl. intros H.
  repeat (apply orb_prop in H as [H|H]; [rewrite H; rewrite ?orb_true_r; reflexivity|]).
  discriminate.
Qed.

Lemma ch_eqb_eq a b : ch_eqb a b = true -> a = b.
Proof. apply Ascii.eqb_eq. Qed.

Lemma lit1_some c s r : lit [c] s = Some r -> s = c :: r.
Proof.
  destruct s as [|y s]; simpl; [discriminate|].
  destruct (ch_eqb c y) eqn:E; [|discriminate].
  apply ch_eqb_eq in E. subst. intros [= <-]. reflexivity.
Qed.

Lemma lit1_cons c r : lit [c] (c :: r) = Some r.
Proof. simpl. unfold ch_eqb. rewrite Ascii.eqb_refl. reflexivity. Qed.

Lemma span_digit_upper s :
  span is_digit (upper s)
  = (fst (span is_digit s), upper (snd (span is_digit s))).
Proof.
  induction s as [|c r IH]; simpl; [reflexivity|].
  rewrite upper_ch_digit. destruct (is_digit c) eqn:E.
  - fold (upper r). rewrite IH. destruct (span is_digit r) as [a b]. simpl.
    rewrite (upper_ch_digit_id c E). reflexivity.
  - reflexivity.
Qed.

Lemma digits1_upper s ds r :
  digits1 (upper s) = Some (ds, r) ->
  exists r0, digits1 s = Some (ds, r0) /\ r = upper r0.
Proof.
  unfold digits1. rewrite span_digit_upper.
  destruct (span is_digit s) as [a b]. simpl.
  destruct (is_nil a); [discriminate|].
  intros [= <- <-]. eauto.
Qed.

Lemma cls_some f s c r : cls f s = Some (c, r) -> s = c :: r /\ f c = true.
Proof.
  destruct s as [|x s]; simpl; [discriminate|].
  destruct (f x) eqn:E; [|discriminate]. intros [= <- <-]. auto.
Qed.

Lemma reg_form2_intro c0 s ds r :
  is_DAEPC_i c0 = true ->
  digits1 s = Some (ds, "]"%char :: r) ->
  reg_form2 (c0 :: "["%char :: s) = Some (Reg (upper_ch c0) (int_of_digits ds)).
Proof.
  intros Hc Hd. unfold reg_form2, cls. rewrite Hc. cbn [mbind option_bind].
  change (L "[") with ["["%char]. change (L "]") with ["]"%char].
  rewrite lit1_cons. cbn [mbind option_bind]. rewrite Hd. cbn [mbind option_bind].
  rewrite lit1_cons. reflexivity.
Qed.

Lemma spec_reg_match_is_specific p c n :
  spec_reg_match (upper p) = Some (c, n) ->
  is_specific_register_syntax p = SynSpecific c n.
Proof.
  unfold spec_reg_match. intros H.
  apply bind_Some in H as ([c1 s1] & Hc & H).
  apply bind_Some in H as (s2 & Hl & H).
  apply bind_Some in H as ([ds s3] & Hd & H).
  apply bind_Some in H as (s4 & Hl2 & H).
  injection H as <- <-.
  apply cls_some in Hc as [Hp Hc].
  destruct p as [|c0 p1]; [discriminate|]. injection Hp as <- <-.
  apply lit1_some in Hl.
  destruct p1 as [|x p2]; [discriminate|]. injection Hl as Hx <-.
  apply upper_ch_open in Hx. subst x.
  apply digits1_upper in Hd as (r0 & Hd & ->).
  apply lit1_some in Hl2.
  destruct r0 as [|y r1]; [discriminate|]. injection Hl2 as Hy <-.
  apply upper_ch_close in Hy. subst y.
  unfold is_specific_register_syntax.
  rewrite (reg_form2_intro c0 p2 ds r1); [reflexivity| |exact Hd].
  unfold is_DAEPC_i. apply DAEP_is_DAEPC, Hc.
Qed.

(** *** The penalty of the range selector *)

Lemma non_specific_matches_count (texts : list str) (d : InstructionDefinition) :
  non_specific_matches texts d
  = Z.of_nat (penalty_count (fixed_slots d) (map is_reg_text texts)).
Proof.
  unfold non_specific_matches, penalty_count, fixed_slots. f_equal.
  generalize (operand_patterns true (syntax d)) as ps.
  intros ps. revert texts. induction ps as [|p ps IH]; intros texts; [reflexivity|].
  destruct texts as [|t texts]; [reflexivity|]. cbn [map combine].
  rewrite !filter_bool_cons. cbn [fst snd]. unfold is_reg_text at 1.
  destruct (negb (is_specific (is_specific_register_syntax p))
            && match extract_register_info t with NoReg => false | _ => true end);
    cbn [length]; rewrite IH; reflexivity.
Qed.

Lemma penalty_count_insert (flags regs : list bool) (i : nat) :
  nth_error flags i = Some true ->
  nth_error regs i = Some true ->
  penalty_count (<[i := false]> flags) regs = S (penalty_count flags regs).
Proof.
  revert regs i. induction flags as [|f flags IH]; intros regs i Hf Hr.
  - destruct i; discriminate.
  - destruct regs as [|r regs]; [destruct i; discriminate|].
    destruct i as [|i]; simpl in Hf, Hr.
    + injection Hf as ->. injection Hr as ->.
      unfold penalty_count.
      change (<[O := false]> (true :: flags)) with (false :: flags).
      cbn [combine]. rewrite !filter_bool_cons. reflexivity.
    + unfold penalty_count in *.
      change (<[S i := false]> (f :: flags)) with (f :: <[i := false]> flags).
      cbn [combine]. rewrite !filter_bool_cons. cbn [fst snd].
      specialize (IH regs i Hf Hr).
      destruct (negb f && r); cbn [length]; rewrite IH; reflexivity.
Qed.

(** *** The register check of the type filter *)

Lemma registers_incompatible ps ops i p op c n k :
  nth_error ps i = Some p ->
  nth_error ops i = Some op ->
  spec_reg_match (upper p) = Some (c, n) ->
  actual_reg_match (upper (remove_ch "]" (remove_ch "[" (strip (text op))))) = Some (c, k) ->
  k <> n ->
  registers_compatible ps ops = false.
Proof.
  revert ps ops. induction i as [|i IH]; intros ps ops Hp Ho Hs Ha Hk.
  - destruct ps as [|q ps]; [discriminate|]. destruct ops as [|o ops]; [discriminate|].
    simpl in Hp, Ho. injection Hp as ->. injection Ho as ->.
    cbn [registers_compatible]. rewrite Hs. cbv zeta. rewrite Ha.
    destruct (Z.eqb_spec k n); [contradiction|].
    rewrite orb_true_r. reflexivity.
  - destruct ps as [|q ps]; [discriminate|]. destruct ops as [|o ops]; [discriminate|].
    simpl in Hp, Ho. cbn [registers_compatible].
    specialize (IH ps ops Hp Ho Hs Ha Hk). rewrite IH. clear Hp Ho Hs Ha.
    destruct (spec_reg_match (upper q)) as [[t m]|]; [|reflexivity].
    cbv zeta.
    destruct (actual_reg_match _) as [[t' m']|]; [|reflexivity].
    destruct (negb (ch_eqb t' t) || negb (m' =? m)); reflexivity.
Qed.

Lemma fixed_row_rejects_other_register ops d i c n k op :
  names_fixed_register d i c n ->
  nth_error ops i = Some op ->
  is_register_operand op c k ->
  k <> n ->
  type_matched ops d = false.
Proof.
  intros (p & Hp & Hs) Ho [Ha _] Hk. unfold type_matched.
  assert (Hsplit : exists a b, split_ws1 (syntax d) = [a; b]).
  { unfold operand_patterns in Hp.
    destruct (split_ws1 (syntax d)) as [|a [|b [|? ?]]];
      try (destruct i; discriminate Hp). eauto. }
  destruct Hsplit as (a & b & Hsplit). rewrite Hsplit.
  rewrite (registers_incompatible _ _ _ _ _ _ _ _ Hp Ho Hs Ha Hk).
  apply andb_false_r.
Qed.

(** *** The penalty of a row beside the fixed-register row *)

Lemma penalty_count_mono (fw fs regs : list bool) :
  length fw = length fs ->
  forallb (fun p : bool * bool => implb (fst p) (snd p)) (combine fw fs) = true ->
  (penalty_count fs regs <= penalty_count fw regs)%nat.
Proof.
  revert fs regs. induction fw as [|a fw IH]; intros [|b fs] regs Hl Hi;
    try discriminate; [reflexivity|].
  destruct regs as [|r regs]; [reflexivity|].
  cbn [combine forallb fst snd] in Hi. apply andb_true_iff in Hi as [Hab Hi].
  injection Hl as Hl. specialize (IH fs regs Hl Hi).
  unfold penalty_count in *. cbn [combine]. rewrite !filter_bool_cons. cbn [fst snd].
  destruct a, b, r; cbn [negb andb length] in *; try discriminate; lia.
Qed.

Lemma penalty_count_strict (fw fs regs : list bool) (i : nat) :
  length fw = length fs ->
  forallb (fun p : bool * bool => implb (fst p) (snd p)) (combine fw fs) = true ->
  nth i fw true = false ->
  nth_error fs i = Some true ->
  nth_error regs i = Some true ->
  (S (penalty_count fs regs) <= penalty_count fw regs)%nat.
Proof.
  revert fs regs i. induction fw as [|a fw IH]; intros [|b fs] regs i Hl Hi Hw Hs Hr;
    try discriminate; [destruct i; discriminate|].
  destruct regs as [|r regs]; [destruct i; discriminate|].
  cbn [combine forallb fst snd] in Hi. apply andb_true_iff in Hi as [Hab Hi].
  injection Hl as Hl.
  unfold penalty_count in *. cbn [combine]. rewrite !filter_bool_cons. cbn [fst snd].
  destruct i as [|i]; cbn [nth nth_error] in Hw, Hs, Hr.
  - subst a. injection Hs as ->. injection Hr as ->. cbn [negb andb length].
    pose proof (penalty_count_mono fw fs regs Hl Hi) as Hm. unfold penalty_count in Hm. lia.
  - specialize (IH fs regs i Hl Hi Hw Hs Hr).
    destruct a, b, r; cbn [negb andb length] in *; try discriminate; lia.
Qed.

Lemma penalty_lt ops d_s w i c n op :
  names_fixed_register d_s i c n ->
  generic_beside d_s i w = true ->
  nth_error ops i = Some op ->
  is_register_operand op c n ->
  non_specific_matches (map text ops) d_s < non_specific_matches (map text ops) w.
Proof.
  intros (p & Hp & Hs) Hg Ho [_ He]. unfold generic_beside in Hg.
  apply andb_true_iff in Hg as [Hg Himp]. apply andb_true_iff in Hg as [Hlen Hi].
  apply Nat.eqb_eq in Hlen. apply negb_true_iff in Hi.
  rewrite !non_specific_matches_count.
  pose proof (penalty_count_strict (fixed_slots w) (fixed_slots d_s)
                (map is_reg_text (map text ops)) i Hlen Himp Hi) as H.
  assert (S (penalty_count (fixed_slots d_s) (map is_reg_text (map text ops)))
          <= penalty_count (fixed_slots w) (map is_reg_text (map text ops)))%nat; [|lia].
  apply H.
  - unfold fixed_slots. rewrite nth_error_map, Hp. cbn [option_map].
    rewrite (spec_reg_match_is_specific _ _ _ Hs). reflexivity.
  - rewrite !nth_error_map, Ho. cbn [option_map]. unfold is_reg_text. rewrite He.
    reflexivity.
Qed.

(** *** The choice among the candidate rows *)

Lemma definition_eq_dec (a b : InstructionDefinition) : {a = b} + {a <> b}.
Proof. repeat decide equality. Qed.

Lemma widths_not_negative_spec cs n :
  widths_not_negative cs n = true ->
  forall w, w ∈ cs -> forall texts : list str, length texts = n ->
    can_fit texts w <> Raises.
Proof.
  unfold widths_not_negative. rewrite forallb_forall. intros H w Hw texts Hn.
  apply can_fit_returns. intros k Hk.
  specialize (H w (proj1 (list_elem_of_In _ _) Hw)). rewrite forallb_forall in H.
  apply Z.leb_le, H, in_seq. lia.
Qed.

Lemma loop_shortcut_none ld mnemonic n_operands ops :
  loop_with_label mnemonic ops = false ->
  loop_shortcut ld mnemonic n_operands ops = None.
Proof.
  unfold loop_with_label, loop_shortcut. intros H.
  destruct (str_eqb (upper mnemonic) (L "LOOP")); [|reflexivity].
  cbn [andb] in *. rewrite H, andb_false_r. reflexivity.
Qed.

(** A type-matched fitting row whose penalty is below that of every
    other type-matched row is the one chosen. *)
Lemma select_least_penalty cs ops v :
  ops <> [] ->
  v ∈ compatible_rows cs ops ->
  can_fit (map text ops) v = Returns true ->
  (forall w, w ∈ compatible_rows cs ops -> can_fit (map text ops) w <> Raises) ->
  (forall w, w ∈ compatible_rows cs ops -> w <> v ->
     non_specific_matches (map text ops) v < non_specific_matches (map text ops) w) ->
  select cs ops = Returns (Some v).
Proof.
  unfold compatible_rows. intros Hops Hv Hfit Hraise Hpen. unfold select.
  destruct cs as [|a [|b l]].
  - inversion Hv.
  - apply elem_of_filter_bool in Hv as [_ Hv].
    apply list_elem_of_singleton in Hv as ->. reflexivity.
  - cbv zeta. set (cs := a :: b :: l) in *.
    assert (Hn : is_nil ops = false) by (destruct ops; [contradiction|reflexivity]).
    rewrite Hn.
    destruct (filter (fun w => type_matched ops w) cs) as [|m1 [|m2 ms]] eqn:Em.
    + inversion Hv.
    + apply list_elem_of_singleton in Hv as ->. reflexivity.
    + set (matched := m1 :: m2 :: ms) in *.
      rewrite find_best_total by exact Hraise.
      set (le := fun x y => lex_le (selector_key (map text ops) x)
                                   (selector_key (map text ops) y)).
      set (fitting := filter (fun d => fits (map text ops) d) matched).
      assert (Hvf : v ∈ fitting).
      { apply elem_of_filter_bool. split; [apply fits_true, Hfit|exact Hv]. }
      assert (Hle : forall x, x ∈ fitting -> le v x = true).
      { intros x Hx. apply elem_of_filter_bool in Hx as [_ Hx].
        unfold le. apply lex_le_spec. unfold selector_key. cbn [fst snd].
        destruct (definition_eq_dec x v) as [->|Hne]; [right; split; [reflexivity|lia]|].
        left. apply Hpen; assumption. }
      assert (Hhd : hd_error (sort_by le fitting) = Some v).
      { rewrite (hd_sort_by_first_minimal le);
          [|intros x y; apply lex_le_total|intros x y z; apply lex_le_trans].
        apply find_only.
        - exact Hvf.
        - apply forallb_forall. intros x Hx. apply Hle, list_elem_of_In, Hx.
        - intros x Hx Hmin. destruct (definition_eq_dec x v) as [E|Hne]; [exact E|].
          exfalso. rewrite forallb_forall in Hmin.
          specialize (Hmin v (proj1 (list_elem_of_In _ _) Hvf)).
          unfold le in Hmin. apply lex_le_spec in Hmin. unfold selector_key in Hmin.
          cbn [fst snd] in Hmin.
          apply elem_of_filter_bool in Hx as [_ Hx].
          specialize (Hpen x Hx Hne). lia. }
      rewrite Hhd. reflexivity.
Qed.

(** When some row passes the type filter, a row that passes it is
    chosen. *)
Lemma select_type_matched cs ops :
  ops <> [] ->
  compatible_rows cs ops <> [] ->
  (forall x, x ∈ compatible_rows cs ops -> can_fit (map text ops) x <> Raises) ->
  exists v, select cs ops = Returns (Some v) /\ v ∈ compatible_rows cs ops.
Proof.
  unfold compatible_rows. intros Hops Hne Hraise. unfold select.
  destruct cs as [|a [|b l]].
  - contradiction.
  - exists a. split; [reflexivity|]. rewrite filter_bool_cons, filter_bool_nil in *.
    destruct (type_matched ops a); [apply list_elem_of_here|contradiction].
  - cbv zeta. set (cs := a :: b :: l) in *.
    assert (Hn : is_nil ops = false) by (destruct ops; [contradiction|reflexivity]).
    rewrite Hn.
    destruct (filter (fun w => type_matched ops w) cs) as [|m1 [|m2 ms]] eqn:Em.
    + contradiction.
    + exists m1. split; [reflexivity|apply list_elem_of_here].
    + set (matched := m1 :: m2 :: ms) in *.
      rewrite find_best_total by exact Hraise.
      match goal with
      | |- context [hd_error (sort_by ?le (filter ?f matched))] =>
          destruct (hd_error (sort_by le (filter f matched))) as [best|] eqn:Eb
      end.
      * exists best. split; [reflexivity|].
        apply hd_sort_by_elem_of, elem_of_filter_bool in Eb. apply Eb.
      * destruct (hd_sort_by_nonempty by_size_desc matched m1 (list_elem_of_here _ _))
          as [h Hh].
        exists h. rewrite Hh. split; [reflexivity|].
        apply (hd_sort_by_elem_of by_size_desc), Hh.
Qed.

(** C3, amended.  Let [cs] be the rows of a mnemonic left by the filters
    on operand count, [force_32bit] and [no_implicit], and let [v_s] name
    the fixed register [c[n]] in slot [i].  Take a call that is not
    [LOOP] with a label operand, and let the rows of [cs] that are
    type-compatible with its operands have no negative bit width and,
    apart from [v_s], be generic in slot [i] and name fixed registers
    only in slots where [v_s] does.  Then
    - operands whose operand [i] is the register [c n], that are
      type-compatible with [v_s] and whose immediates fit [v_s], select
      [v_s];
    - operands whose operand [i] is another register [c k] select a
      generic row that is type-compatible with them, when there is such a
      row. *)
Theorem fixed_register_row_selected
        (ld : InstructionSetLoader) (mnemonic : str) (n_operands : Z)
        (v_s : InstructionDefinition) (i : nat) (c : ascii) (n : Z) :
  let cs := candidates ld mnemonic n_operands in
  names_fixed_register v_s i c n ->
  (forall ops op,
      nth_error ops i = Some op ->
      is_register_operand op c n ->
      loop_with_label mnemonic ops = false ->
      widths_not_negative (compatible_rows cs ops) (length ops) = true ->
      Forall (fun w => w = v_s \/ generic_beside v_s i w = true) (compatible_rows cs ops) ->
      v_s ∈ compatible_rows cs ops ->
      can_fit (map text ops) v_s = Returns true ->
      find_instruction ld mnemonic n_operands (Some ops) = Returns (Some v_s))
  /\ (forall ops op k,
         nth_error ops i = Some op ->
         is_register_operand op c k ->
         k <> n ->
         loop_with_label mnemonic ops = false ->
         widths_not_negative (compatible_rows cs ops) (length ops) = true ->
         Forall (fun w => w = v_s \/ generic_beside v_s i w = true) (compatible_rows cs ops) ->
         compatible_rows cs ops <> [] ->
         exists v_g,
           find_instruction ld mnemonic n_operands (Some ops) = Returns (Some v_g)
           /\ v_g ∈ compatible_rows cs ops
           /\ generic_beside v_s i v_g = true).
Proof.
  intros cs Hfixed. split.
  - intros ops op Ho Hreg Hloop Hwidth Hothers Hin Hfit.
    rewrite Forall_forall in Hothers.
    rewrite find_instruction_parts. change (default [] (Some ops)) with ops.
    rewrite (loop_shortcut_none _ _ _ _ Hloop). fold cs.
    apply select_least_penalty; try assumption.
    + intros ->. destruct i; discriminate.
    + intros w Hw. apply (widths_not_negative_spec _ (length ops) Hwidth w Hw).
      apply length_map.
    + intros w Hw Hne. apply (penalty_lt ops v_s w i c n op); try assumption.
      destruct (Hothers w Hw) as [E|Hg]; [contradiction|exact Hg].
  - intros ops op k Ho Hreg Hk Hloop Hwidth Hothers Hne.
    rewrite Forall_forall in Hothers.
    pose proof (fixed_row_rejects_other_register ops v_s i c n k op Hfixed Ho Hreg Hk) as Hno.
    rewrite find_instruction_parts. change (default [] (Some ops)) with ops.
    rewrite (loop_shortcut_none _ _ _ _ Hloop). fold cs.
    destruct (select_type_matched cs ops) as (v & Hsel & Hv); try assumption.
    + intros ->. destruct i; discriminate.
    + intros x Hx. apply (widths_not_negative_spec _ (length ops) Hwidth x Hx).
      apply length_map.
    + exists v. split; [exact Hsel|]. split; [exact Hv|].
      destruct (Hothers v Hv) as [->|Hg]; [|exact Hg].
      apply elem_of_filter_bool in Hv as [Hv _]. congruence.
Qed.

(** The two [JNZ] rows of the sample table meet the hypotheses of
    [fixed_register_row_selected]: [JNZ d15, 0x10] takes the row of the
    fixed register, [JNZ d4, 0x10] the generic one. *)
Lemma fixed_register_row_selected_witness :
  find_instruction sample_loader (L "JNZ") 2 (Some [operand "d15"; operand "0x10"])
  = Returns (Some jnz_d15)
  /\ exists v_g,
       find_instruction sample_loader (L "JNZ") 2 (Some [operand "d4"; operand "0x10"])
       = Returns (Some v_g)
       /\ v_g ∈ compatible_rows (candidates sample_loader (L "JNZ") 2)
                                [operand "d4"; operand "0x10"]
       /\ generic_beside jnz_d15 0 v_g = true.
Proof.
  destruct (fixed_register_row_selected sample_loader (L "JNZ") 2 jnz_d15
              0 "D"%char 15) as [H15 H4].
  - exists (L "D[15]"). split; reflexivity.
  - split.
    + apply (H15 _ (operand "d15")); try reflexivity.
      * split; reflexivity.
      * change (compatible_rows _ _) with [jnz_d15; jnz_db].
        constructor; [left; reflexivity|]. constructor; [right; reflexivity|]. constructor.
      * change (compatible_rows _ _) with [jnz_d15; jnz_db]. apply list_elem_of_here.
    + apply (H4 _ (operand "d4") 4); try reflexivity.
      * split; reflexivity.
      * lia.
      * change (compatible_rows _ _) with [jnz_db].
        constructor; [right; reflexivity|]. constructor.
      * change (compatible_rows _ _) with [jnz_db]. discriminate.
Defined.

(** C2 (failing input). [MOV.A a4, d2] has a 16-bit and a 32-bit row of
    the same arity; both registers are generic, both rows pass the range
    check with the same penalty, and no operand is a label.  The selector
    still returns the 32-bit row, because a register operand has no
    numeric value and is counted as a label; the encoder emits the 32-bit
    word.  The same happens to [MOV d4, 1], whose immediate fits both
    rows; an instruction without register operand ([J 4]) gets the 16-bit
    row, and a label operand ([J target]) the 32-bit one. *)
Theorem selector_takes_register_operand_for_label :
  let ops := [operand "a4"; operand "d2"] in
  can_fit (map text ops) mova_16 = Returns true
  /\ can_fit (map text ops) mova_32 = Returns true
  /\ non_specific_matches (map text ops) mova_16
     = non_specific_matches (map text ops) mova_32
  /\ map operand_value (map text ops) = [None; None]
  /\ find_instruction sample_loader (L "MOV.A") 2 (Some ops) = Returns (Some mova_32)
  /\ option_map (fun e => (opcode_size (definition e), hex_value e))
       (parse_instruction_line (L "MOV.A a4, d2") 1
          ≫= fun p => encode_instruction sample_loader p (Some 2147483648) (Some ∅))
     = Some (32, L "0x46302001")
  /\ can_fit [L "d4"; L "1"] mov_const4 = Returns true
  /\ can_fit [L "d4"; L "1"] mov_const16 = Returns true
  /\ find_instruction sample_loader (L "MOV") 2 (Some [operand "d4"; operand "1"])
     = Returns (Some mov_const16)
  /\ find_instruction sample_loader (L "J") 1 (Some [operand "4"]) = Returns (Some j_16)
  /\ find_instruction sample_loader (L "J") 1 (Some [operand "target"])
     = Returns (Some j_32).
Proof. vm_compute. repeat split; reflexivity. Qed.

(** C3 as claimed fails.  Every table below has a row that names the
    fixed register D15 in its first slot and a row that is generic there.
    - [MOV d15, 1000]: the immediate does not fit the 8-bit slot of the
      fixed row, and the generic row is returned.
    - [LOOP d15, again]: the operands are type-compatible with the fixed
      row and fit it, but [LOOP] with a label takes the largest row.
    - [MOV d15, 5] on a table whose generic row has a negative width:
      the range check raises.
    - [MOV d15, 1] under [force_32bit]: the 16-bit fixed row is filtered
      out.
    - [ADD d15, d15] on two rows that name D15 in different slots: equal
      penalties, and the larger row, generic in the first slot, is
      returned.
    - [MOV d4, d1]: no row is type-compatible, and the fall-back returns
      the smallest row, which is the one of D15. *)
Lemma fixed_register_row_not_always_selected :
  find_instruction (MkLoader false false mov_d15_table) (L "MOV") 2
                   (Some [operand "d15"; operand "1000"])
  = Returns (Some mov_const16)
  /\ (type_matched [operand "d15"; operand "again"] loop_d15 = true
      /\ can_fit [L "d15"; L "again"] loop_d15 = Returns true
      /\ find_instruction (MkLoader false false loop_table) (L "LOOP") 2
                          (Some [operand "d15"; operand "again"])
         = Returns (Some loop_db))
  /\ (type_matched [operand "d15"; operand "5"] mov_d15_const8 = true
      /\ can_fit [L "d15"; L "5"] mov_d15_const8 = Returns true
      /\ find_instruction (MkLoader false false bad_width_table) (L "MOV") 2
                          (Some [operand "d15"; operand "5"])
         = Raises)
  /\ find_instruction (MkLoader true false mov_d15_table) (L "MOV") 2
                      (Some [operand "d15"; operand "1"])
     = Returns (Some mov_const16)
  /\ (type_matched [operand "d15"; operand "d15"] add_d15_first = true
      /\ can_fit [L "d15"; L "d15"] add_d15_first = Returns true
      /\ find_instruction (MkLoader false false crossed_table) (L "ADD") 2
                          (Some [operand "d15"; operand "d15"])
         = Returns (Some add_d15_second))
  /\ find_instruction (MkLoader false false mov_d15_table) (L "MOV") 2
                      (Some [operand "d4"; operand "d1"])
     = Returns (Some mov_d15_const8).
Proof. vm_compute. repeat split; reflexivity. Qed.

End SelectorFacts.

(** ** instruction_encoder.py: split operands *)

Module SplitFacts.
Import Loader Encoder SplitSpec Samples.

Lemma total_window_bits_from (ranges : list (Z * Z)) (a : Z) :
  fold_left (fun total w => total + (fst w - snd w + 1)) ranges a
  = a + effective_width ranges.
Proof.
  revert a. induction ranges as [|w r IH]; intros a; simpl.
  - lia.
  - rewrite IH. unfold effective_width. simpl. lia.
Qed.

Lemma total_window_bits_sum (ranges : list (Z * Z)) :
  total_window_bits ranges = effective_width ranges.
Proof. unfold total_window_bits. rewrite total_window_bits_from. lia. Qed.

Lemma shl1_some (n m : Z) : shl1 n = Some m -> 0 <= n /\ m = 2 ^ n.
Proof.
  unfold shl1. destruct (n <? 0) eqn:E; [discriminate|].
  intros [= <-]. apply Z.ltb_ge in E. split; [exact E|].
  rewrite Z.shiftl_1_l. reflexivity.
Qed.

Lemma mask_of_some (n m : Z) : mask_of n = Some m -> 0 <= n /\ m = 2 ^ n - 1.
Proof.
  unfold mask_of. destruct (shl1 n) as [x|] eqn:E; [|discriminate].
  simpl. intros [= <-]. apply shl1_some in E as [? ->]. auto.
Qed.

Lemma or_field_some (b v pos len b' : Z) :
  or_field b v pos len = Some b' -> b' = Z.lor b (field_bits pos len v).
Proof.
  unfold or_field. destruct (mask_of len) as [m|] eqn:E; [|discriminate].
  simpl. apply mask_of_some in E as [_ ->].
  unfold shl. destruct (pos <? 0); [discriminate|]. simpl.
  intros [= <-]. reflexivity.
Qed.

Lemma window_value_some (v : Z) (w : Z * Z) (x : Z) :
  window_value v w = Some x -> x = extract_window v w.
Proof.
  unfold window_value. destruct (mask_of _) as [m|] eqn:E; [|discriminate].
  simpl. apply mask_of_some in E as [_ ->]. intros [= <-]. reflexivity.
Qed.

Lemma encode_parts_some d v ranges num b b' :
  encode_parts d v ranges num b = Some b' ->
  b' = fold_left Z.lor
         (map (fun sw : nat * (Z * Z) =>
                 let '(pos, len) := get_operand_info d (fst sw) in
                 field_bits pos len (extract_window v (snd sw)))
              (combine (seq num (length ranges)) ranges))
         b.
Proof.
  revert num b. induction ranges as [|w r IH]; intros num b; simpl.
  - intros [= <-]. reflexivity.
  - destruct (get_operand_info d num) as [pos len] eqn:Ei.
    destruct (window_value v w) as [x|] eqn:Ew; [|discriminate]. simpl.
    destruct (or_field b x pos len) as [b1|] eqn:Eo; [|discriminate]. simpl.
    intros H. apply IH in H. rewrite H.
    apply or_field_some in Eo. apply window_value_some in Ew. subst. reflexivity.
Qed.

Section Loop.
Variable current_address : option Z.
Variable labels : option (gmap str Z).
Variable d : InstructionDefinition.
Variable s : nat.
Variable ranges : list (Z * Z).

Lemma encode_split_loop_some ops j b w :
  encode_split_loop current_address labels d s ranges ops j
                    (slot_of s (length ranges) j) b = Some w ->
  exists values,
    map (operand_value_of current_address labels) ops = map Some values
    /\ (forall v, (j <= s)%nat -> nth_error values (s - j) = Some v ->
          split_value d s v <= 2 ^ effective_width ranges - 1
          \/ 2 ^ 32 <= split_value d s v)
    /\ w = split_word_from d s ranges j values b.
Proof.
  revert j b. induction ops as [|op rest IH]; intros j b; simpl.
  - intros [= <-]. exists []. split; [reflexivity|]. split.
    + intros v _ H. destruct (s - j)%nat; simpl in H; discriminate H.
    + reflexivity.
  - destruct (Nat.eqb_spec j s) as [->|Hne].
    + destruct (operand_value_of current_address labels op) as [v|] eqn:Ev;
        [|discriminate]. simpl.
      destruct (shl1 (total_window_bits ranges)) as [bound|] eqn:Eb; [|discriminate].
      simpl. apply shl1_some in Eb as [Hpos ->].
      rewrite total_window_bits_sum in *.
      change (match nth_error (extract_operand_patterns (syntax d)) s with
              | Some p => if contains p _ then v / 2 else v
              | None => v
              end) with (split_value d s v).
      destruct ((2 ^ effective_width ranges - 1 <? split_value d s v)
                && (split_value d s v <? 4294967296)) eqn:Echk; [discriminate|].
      destruct (encode_parts d (split_value d s v) ranges
                             (slot_of s (length ranges) s) b) as [b1|] eqn:Ep;
        [|discriminate]. simpl.
      assert (Hslot : slot_of s (length ranges) s = S s).
      { unfold slot_of. rewrite Nat.leb_refl. reflexivity. }
      assert (Hnext : (slot_of s (length ranges) s + length ranges)%nat
                      = slot_of s (length ranges) (S s)).
      { unfold slot_of. rewrite Nat.leb_refl.
        destruct (Nat.leb_spec (S s) s); [lia|]. reflexivity. }
      rewrite Hnext. intros H. apply IH in H as (values & Hv & _ & ->).
      exists (v :: values). split; [simpl; rewrite ?Ev, Hv; reflexivity|]. split.
      * intros v0 _. rewrite Nat.sub_diag. simpl. intros [= <-].
        apply andb_false_iff in Echk as [E|E].
        -- left. apply Z.ltb_ge in E. exact E.
        -- right. apply Z.ltb_ge in E. change (2 ^ 32) with 4294967296. exact E.
      * unfold split_word_from. simpl. rewrite Nat.eqb_refl.
        rewrite fold_left_app. f_equal.
        rewrite Hslot in Ep. apply encode_parts_some in Ep. exact Ep.
    + destruct (operand_value_of current_address labels op) as [v|] eqn:Ev;
        [|discriminate]. simpl.
      destruct (get_operand_info d (slot_of s (length ranges) j)) as [pos len] eqn:Ei.
      assert (Hnext : S (slot_of s (length ranges) j) = slot_of s (length ranges) (S j)).
      { unfold slot_of.
        destruct (Nat.leb_spec j s), (Nat.leb_spec (S j) s); lia. }
      rewrite Hnext.
      destruct (0 <? len) eqn:El.
      * destruct (mask_of len) as [m|] eqn:Em; [|discriminate]. simpl.
        destruct (m <? v); [discriminate|].
        destruct (or_field b v pos len) as [b1|] eqn:Eo; [|discriminate]. simpl.
        intros H. apply IH in H as (values & Hv & Hc & ->).
        exists (v :: values). split; [simpl; rewrite ?Ev, Hv; reflexivity|]. split.
        -- intros v0 Hle. assert (j < s)%nat by lia.
           replace (s - j)%nat with (S (s - S j)) by lia. simpl.
           apply Hc. lia.
        -- unfold split_word_from. simpl.
           destruct (Nat.eqb_spec j s); [contradiction|].
           rewrite Ei, El. simpl. apply or_field_some in Eo. subst. reflexivity.
      * simpl. intros H. apply IH in H as (values & Hv & Hc & ->).
        exists (v :: values). split; [simpl; rewrite ?Ev, Hv; reflexivity|]. split.
        -- intros v0 Hle. assert (j < s)%nat by lia.
           replace (s - j)%nat with (S (s - S j)) by lia. simpl.
           apply Hc. lia.
        -- unfold split_word_from. simpl.
           destruct (Nat.eqb_spec j s); [contradiction|].
           rewrite Ei, El. simpl. reflexivity.
Qed.

End Loop.

(** C4.  Whenever the split encoder produces a word for a row whose
    syntax has a brace block at operand [s] with windows [ranges]: every
    operand had a value; the value of the split operand (after its [/2]
    modifier) passed the range check against the SUM of the window
    widths (it is at most [2^sum - 1], or it is at least [2^32], which
    the check lets through); and the word is the base opcode ORed with,
    for each window in the order listed, the bits
    [(value >> lo) & ((1 << (hi - lo + 1)) - 1)] placed in the next
    bit-field slot of the row ([s+1], [s+2], ...), and with every other
    operand placed in its own slot. *)
Theorem split_operand_encoding
        (current_address : option Z) (labels : option (gmap str Z))
        (p : ParsedInstruction) (d : InstructionDefinition) (base : Z)
        (s : nat) (ranges : list (Z * Z)) (w : Z) :
  parse_split_operand_syntax (syntax d) = (S s, ranges) ->
  encode_split_operand_instruction current_address labels p d base = Some w ->
  exists values,
    map (operand_value_of current_address labels) (operands p) = map Some values
    /\ (forall v, nth_error values s = Some v ->
          split_value d s v <= 2 ^ effective_width ranges - 1
          \/ 2 ^ 32 <= split_value d s v)
    /\ w = split_word d s ranges values base.
Proof.
  intros Hs. unfold encode_split_operand_instruction. rewrite Hs.
  destruct ranges as [|r0 rs]; [discriminate|].
  intros H.
  change 1%nat with (slot_of s (length (r0 :: rs)) 0) in H.
  apply encode_split_loop_some in H as (values & Hv & Hc & ->).
  exists values. split; [exact Hv|]. split; [|reflexivity].
  intros v Hn. apply Hc; [lia|]. rewrite Nat.sub_0_r. exact Hn.
Qed.

(** [ST.W [a12]176, d15] on the row [ST.W A[b], off10 {[9:6][5:0]}, D[a]]
    meets the hypotheses of [split_operand_encoding]. *)
Lemma split_operand_encoding_witness :
  exists values,
    map (operand_value_of None None) (operands stw_far) = map Some values
    /\ (forall v, nth_error values 1 = Some v ->
          split_value stw_32 1 v <= 2 ^ effective_width [(9, 6); (5, 0)] - 1
          \/ 2 ^ 32 <= split_value stw_32 1 v)
    /\ 1680920457 = split_word stw_32 1 [(9, 6); (5, 0)] values 1677721737.
Proof.
  apply (split_operand_encoding None None stw_far stw_32 1677721737 1
                                [(9, 6); (5, 0)] 1680920457).
  - vm_compute. reflexivity.
  - vm_compute. reflexivity.
Defined.

End SplitFacts.

(** ** assembler.py: the two passes *)

Module AssemblerFacts.
Import Assembler.

Section Passes.
Variable F : Type.
Variable py_float : str -> option F.
Variable calculate_size : gmap str Z -> str -> Z -> option Z.
Variable calculate_instruction_size : str -> nat -> option Z.

(** The loop of the first pass resumes after a prefix that did not abort. *)
Lemma first_pass_loop_app e address n pre rest e' address' :
  first_pass_prefix F py_float calculate_size calculate_instruction_size
                    e address n pre = Some (e', address') ->
  first_pass_loop F py_float calculate_size calculate_instruction_size
                  e address n (pre ++ rest)
  = first_pass_loop F py_float calculate_size calculate_instruction_size
                    e' address' (n + length pre) rest.
Proof.
  revert e address n. induction pre as [|l pre IH]; intros e address n H; simpl in *.
  - injection H as <- <-. rewrite Nat.add_0_r. reflexivity.
  - destruct (first_pass_line _ _ _ _ e address n l) as [e1 a1|e1]; [|discriminate].
    rewrite (IH _ _ _ H). f_equal. lia.
Qed.

(** A line that defines an already defined label aborts the pass. *)
Lemma duplicate_label_line e address n line name :
  label_of_line line = Some name ->
  valid_label_syntax name = true ->
  is_Some (labels e !! name) ->
  first_pass_line F py_float calculate_size calculate_instruction_size e address n line
  = Abort (log_error e "DUPLICATE_LABEL" n).
Proof.
  unfold label_of_line, first_pass_line. intros Hl Hv [prev Hprev].
  destruct (is_nil (strip line) || startswith (strip line) (L ";")
            || startswith (strip line) (L "#")); [discriminate|].
  destruct (startswith (upper (strip line)) (L ".ORG")); [discriminate|].
  destruct (matches_equ (upper (strip line))); [discriminate|].
  destruct (has_label (strip line)); [|discriminate].
  injection Hl as Hl.
  destruct (split_colon (strip line)) as [label_part instruction_part].
  simpl in Hl. rewrite Hl.
  unfold validate_label_name. rewrite Hv.
  destruct name as [|c name']; [discriminate|].
  simpl. rewrite Hprev. reflexivity.
Qed.

End Passes.

(** C5 (as the code behaves). When the first pass reaches a line that
    defines a label already in the table, it logs one [DUPLICATE_LABEL]
    error for that line and returns failure at once: the engine is the one
    reached before the line plus that diagnostic, whatever the remaining
    lines are, and those lines are neither examined nor listed. *)
Theorem duplicate_label_aborts_first_pass
        (F : Type) (py_float : str -> option F)
        (calculate_size : gmap str Z -> str -> Z -> option Z)
        (calculate_instruction_size : str -> nat -> option Z)
        (e0 e : engine) (address : Z) (pre rest : list str) (line name : str) :
  first_pass_prefix F py_float calculate_size calculate_instruction_size
                    e0 (current_address e0) 1 pre = Some (e, address) ->
  label_of_line line = Some name ->
  valid_label_syntax name = true ->
  is_Some (labels e !! name) ->
  first_pass F py_float calculate_size calculate_instruction_size
             e0 (pre ++ line :: rest)
  = (log_error e "DUPLICATE_LABEL" (S (length pre)), false).
Proof.
  intros Hpre Hl Hv Hdup. unfold first_pass.
  rewrite (first_pass_loop_app _ _ _ _ _ _ _ _ _ _ _ Hpre). simpl.
  rewrite (duplicate_label_line _ _ _ _ e address _ line name Hl Hv Hdup).
  reflexivity.
Qed.

(** The source [a: / a: / b:] meets the hypotheses of
    [duplicate_label_aborts_first_pass] at its second line. *)
Lemma duplicate_label_aborts_first_pass_witness :
  Samples.sample_first_pass ["a:"; "a:"; "b:"]%string
  = (log_error (add_listing (add_label initial_engine (MkLabel (L "a") default_start 1))
                            1 (Some default_start) (L "a:"))
               "DUPLICATE_LABEL" 2, false).
Proof.
  unfold Samples.sample_first_pass.
  apply (duplicate_label_aborts_first_pass unit Samples.no_float _ _
           initial_engine _ default_start [L "a:"] [L "b:"] (L "a:") (L "a")).
  - vm_compute. reflexivity.
  - vm_compute. reflexivity.
  - vm_compute. reflexivity.
  - eexists. vm_compute. reflexivity.
Defined.

(** C5 as claimed fails: after the duplicate definition on line 2 the
    pass has returned failure, the label [b] of line 3 was never
    collected and no line after the first was listed. *)
Lemma duplicate_label_stops_collection :
  let r := Samples.sample_first_pass ["a:"; "a:"; "b:"]%string in
  snd r = false
  /\ labels (fst r) !! L "b" = None
  /\ map le_line (source_listing (fst r)) = [1%nat]
  /\ diagnostics (fst r) = [Diagnostic "DUPLICATE_LABEL" 2].
Proof. vm_compute. repeat split; reflexivity. Qed.

(** C6 (failing input). With code before an [.ORG], the second pass does
    not restart from the origin of the first pass: it starts from the
    address the last [.ORG] left in [current_address].  Line 1 gets
    [0x80000000] in pass 1 and [0x80001000] in pass 2, and both emitted
    instructions land on the same address. *)
Theorem second_pass_starts_at_last_origin :
  let r := Samples.sample_assemble ["NOP"; ".ORG 0x80001000"; "NOP"]%string in
  snd r = true
  /\ pass1_address (fst r) 1 = Some 2147483648
  /\ pass2_address (fst r) 1 = Some 2147487744
  /\ pass1_address (fst r) 3 = Some 2147487744
  /\ pass2_address (fst r) 3 = Some 2147487744.
Proof. vm_compute. repeat split; reflexivity. Qed.

End AssemblerFacts.

(** ** linker.py: the convergence loop *)

Module LinkerLoopFacts.
Import Linker.

Section Loop.
Variable reencode : str -> Z -> gmap str Z -> option (Z * Z).

Lemma optimize_loop_step fuel st :
  optimize_loop reencode (S fuel) st =
  if ls_iteration st <? max_iterations then
    let iteration := ls_iteration st + 1 in
    let r := optimization_pass reencode (ls_objs st) in
    let trace := ls_trace st ++ [snd r] in
    if negb (snd r) && (2 <=? iteration)
    then LoopState (fst r) iteration trace true
    else optimize_loop reencode fuel (LoopState (fst r) iteration trace false)
  else st.
Proof.
  simpl. destruct (ls_iteration st <? max_iterations); [|reflexivity].
  destruct (optimization_pass reencode (ls_objs st)); reflexivity.
Qed.

Lemma passes_snoc n objs :
  after_passes reencode (S n) objs = fst (optimization_pass reencode (after_passes reencode n objs)).
Proof.
  revert objs; induction n as [|n IH]; intros objs; [reflexivity|].
  change (after_passes reencode (S (S n)) objs) with (after_passes reencode (S n) (fst (optimization_pass reencode objs))).
  rewrite IH. reflexivity.
Qed.

Lemma optimize_loop_post objs0 fuel st :
  ls_converged st = false ->
  0 <= ls_iteration st <= max_iterations ->
  max_iterations <= ls_iteration st + Z.of_nat fuel ->
  Z.of_nat (length (ls_trace st)) = ls_iteration st ->
  ls_objs st = after_passes reencode (length (ls_trace st)) objs0 ->
  (forall k, (k < length (ls_trace st))%nat ->
     nth k (ls_trace st) true = snd (optimization_pass reencode (after_passes reencode k objs0))) ->
  (forall k, (k < length (ls_trace st))%nat ->
     nth k (ls_trace st) true = true \/ (k = 0)%nat) ->
  loop_post reencode objs0 (optimize_loop reencode fuel st).
Proof.
  revert st. induction fuel as [|fuel IH]; intros st Hc Hit Hfuel Hlen Hobjs Htr Hgo.
  - simpl. constructor; try lia; auto.
    + intros k Hk. apply Hgo. lia.
    + rewrite Hc. discriminate.
  - rewrite optimize_loop_step. destruct (ls_iteration st <? max_iterations) eqn:Hlt.
    2:{ apply Z.ltb_ge in Hlt. constructor; try lia; auto.
        - intros k Hk. apply Hgo. lia.
        - rewrite Hc; discriminate. }
    apply Z.ltb_lt in Hlt.
    cbv zeta.
    remember (optimization_pass reencode (ls_objs st)) as r eqn:Hp.
    destruct r as [objs' changed]. symmetry in Hp.
    cbn [fst snd].
    assert (Hlen' : Z.of_nat (length (ls_trace st ++ [changed])) = ls_iteration st + 1).
    { rewrite length_app. simpl. lia. }
    assert (Hobjs' : objs' = after_passes reencode (length (ls_trace st ++ [changed])) objs0).
    { rewrite length_app. simpl. rewrite Nat.add_1_r, passes_snoc, <- Hobjs, Hp.
      reflexivity. }
    assert (Htr' : forall k, (k < length (ls_trace st ++ [changed]))%nat ->
              nth k (ls_trace st ++ [changed]) true = snd (optimization_pass reencode (after_passes reencode k objs0))).
    { intros k Hk. rewrite length_app in Hk. simpl in Hk.
      destruct (Nat.lt_ge_cases k (length (ls_trace st))) as [Hk'|Hk'].
      - rewrite app_nth1 by lia. auto.
      - assert (k = length (ls_trace st)) by lia. subst k.
        rewrite app_nth2 by lia. rewrite Nat.sub_diag. cbn [nth].
        rewrite <- Hobjs, Hp. reflexivity. }
    destruct (negb changed && (2 <=? ls_iteration st + 1)) eqn:Hbrk.
    + apply andb_true_iff in Hbrk as [Hch H2].
      apply negb_true_iff in Hch. apply Z.leb_le in H2. subst changed.
      constructor; simpl; try lia; auto; try discriminate.
      * intros k Hk. rewrite length_app in Hk. simpl in Hk.
        rewrite app_nth1 by lia. apply Hgo. lia.
      * intros _. split; [|lia]. apply last_last.
    + apply IH; simpl; try lia; auto.
      intros k Hk. rewrite length_app in Hk. simpl in Hk.
      destruct (Nat.lt_ge_cases k (length (ls_trace st))) as [Hk'|Hk'].
      * rewrite app_nth1 by lia. auto.
      * assert (k = length (ls_trace st)) by lia. subst k.
        rewrite app_nth2 by lia. rewrite Nat.sub_diag. cbn [nth].
        apply andb_false_iff in Hbrk as [Hch|H2].
        -- left. now apply negb_false_iff in Hch.
        -- right. apply Z.leb_gt in H2. lia.
Qed.

End Loop.

(** C7. The convergence loop of [_optimize_instruction_sizes] runs at most
    [max_iterations = 10] times; its trace is the sequence of
    [sizes_changed] flags of the successive after_passes reencode; it stops by
    convergence only after a optimization_pass reencode without size change and at least two
    after_passes reencode, and it never goes on past such a optimization_pass reencode; when the cap is reached
    without convergence the warning is logged and the function still
    returns success. *)
Theorem optimize_loop_bounded_and_converging
        (reencode : str -> Z -> gmap str Z -> option (Z * Z))
        (objs : list ObjectFile) :
  let r := optimize_instruction_sizes reencode true objs in
  max_iterations = 10
  /\ 0 <= or_iterations r <= max_iterations
  /\ Z.of_nat (length (or_trace r)) = or_iterations r
  /\ or_objs r = after_passes reencode (length (or_trace r)) objs
  /\ (forall k, (k < length (or_trace r))%nat ->
        nth k (or_trace r) true
        = snd (optimization_pass reencode (after_passes reencode k objs)))
  /\ (forall k, (S k < length (or_trace r))%nat ->
        nth k (or_trace r) true = true \/ k = O)
  /\ (or_converged r = true ->
        List.last (or_trace r) true = false /\ 2 <= or_iterations r)
  /\ (or_converged r = false ->
        or_iterations r = max_iterations /\ or_warned r = true)
  /\ or_success r = true.
Proof.
  intros r.
  pose proof (optimize_loop_post reencode objs (Z.to_nat max_iterations)
                (LoopState objs 0 [] false)) as H.
  assert (P : loop_post reencode objs
                (optimize_loop reencode (Z.to_nat max_iterations)
                               (LoopState objs 0 [] false))).
  { apply H; cbn [ls_converged ls_iteration ls_trace ls_objs length after_passes];
      try reflexivity; try (unfold max_iterations; lia);
      intros k Hk; lia. }
  clear H. destruct P as [P1 P2 P3 P4 P5 P6 P7 P8].
  subst r. unfold optimize_instruction_sizes.
  cbn [or_objs or_iterations or_trace or_converged or_warned or_success].
  split; [reflexivity|].
  split; [lia|].
  split; [exact P3|].
  split; [exact P4|].
  split; [exact P5|].
  split; [exact P6|].
  split; [exact P7|].
  split; [|reflexivity].
  intros Hc. split; [exact (P8 Hc)|]. rewrite (P8 Hc). reflexivity.
Qed.

End LinkerLoopFacts.

(** ** linker.py: Intel HEX output *)

Module IntelHexFacts.
Import Linker Samples.



Lemma check_range_spec (P : Z -> bool) (n : nat) (z : Z) :
  check_range P n z = true ->
  forall k, z <= k < z + Z.of_nat n -> P k = true.
Proof.
  revert z. induction n as [|n IH]; intros z H k Hk; [lia|].
  simpl in H. apply andb_true_iff in H as [H0 H1].
  destruct (Z.eq_dec k z) as [->|Hne]; [exact H0|].
  apply (IH (z + 1) H1). lia.
Qed.

Lemma forallb_below (P : Z -> bool) (n : Z) :
  check_range P (Z.to_nat n) 0 = true ->
  forall z, 0 <= z < n -> P z = true.
Proof.
  intros H z Hz. apply (check_range_spec P (Z.to_nat n) 0 H). lia.
Qed.

Lemma decodes_to_spec s bs :
  decodes_to s bs = true ->
  decode_pairs s = Some bs /\ length s = (2 * length bs)%nat.
Proof.
  unfold decodes_to. destruct (decode_pairs s) as [l|]; [|discriminate].
  intros H. apply andb_true_iff in H as [H H3]. apply andb_true_iff in H as [H1 H2].
  apply Nat.eqb_eq in H2, H3. split; [|exact H3]. f_equal.
  clear H3. revert bs H1 H2. induction l as [|x l IH]; intros [|b bs] H1 H2;
    simpl in *; try discriminate; try reflexivity.
  apply andb_true_iff in H1 as [Hx H1]. apply Z.eqb_eq in Hx. subst.
  f_equal. injection H2 as H2. apply (IH bs H1 H2).
Qed.

Lemma fmtX2_decodes b :
  0 <= b < 256 -> decode_pairs (fmtX 2 b) = Some [b] /\ length (fmtX 2 b) = 2%nat.
Proof.
  intros Hb. apply decodes_to_spec.
  apply (forallb_below (fun b => decodes_to (fmtX 2 b) [b]) 256); [|lia].
  vm_compute. reflexivity.
Qed.

Lemma fmtX4_decodes a :
  0 <= a < 65536 ->
  decode_pairs (fmtX 4 a) = Some [a / 256; a mod 256] /\ length (fmtX 4 a) = 4%nat.
Proof.
  intros Ha. apply decodes_to_spec.
  apply (forallb_below (fun a => decodes_to (fmtX 4 a) [a / 256; a mod 256]) 65536);
    [|lia].
  vm_compute. reflexivity.
Qed.

Lemma decode_pairs_app s1 s2 bs1 :
  decode_pairs s1 = Some bs1 ->
  decode_pairs (s1 ++ s2) = option_map (app bs1) (decode_pairs s2).
Proof.
  revert bs1. induction s1 as [s1 IH] using (induction_ltof1 _ (@length _)).
  unfold ltof in IH. destruct s1 as [|a [|b r]].
  - intros bs1 H. injection H as <-. simpl. destruct (decode_pairs s2); reflexivity.
  - intros bs1 H. discriminate.
  - intros bs1 H. simpl in H. simpl.
    destruct (hex_digit_value a); [|discriminate].
    destruct (hex_digit_value b); [|discriminate].
    destruct (decode_pairs r) as [l|] eqn:Hr; [|discriminate].
    injection H as <-.
    rewrite (IH r) with (bs1 := l); [|simpl; lia|exact Hr].
    destruct (decode_pairs s2); reflexivity.
Qed.



Lemma decode_data data :
  Forall byte_range data ->
  decode_pairs (concat (map (fmtX 2) data)) = Some data.
Proof.
  induction 1 as [|b data Hb _ IH]; [reflexivity|].
  simpl. destruct (fmtX2_decodes b Hb) as [Hd _].
  rewrite (decode_pairs_app _ _ _ Hd), IH. reflexivity.
Qed.

Lemma land_255 x : Z.land x 255 = x mod 256.
Proof. change 255 with (Z.ones 8). rewrite Z.land_ones by lia. reflexivity. Qed.

Lemma land_65535 x : Z.land x 65535 = x mod 65536.
Proof. change 65535 with (Z.ones 16). rewrite Z.land_ones by lia. reflexivity. Qed.

Lemma fold_left_add data init :
  fold_left Z.add data init = init + sum_bytes data.
Proof.
  revert init. induction data as [|b data IH]; intros init; simpl; [lia|].
  rewrite IH. unfold sum_bytes. simpl. lia.
Qed.

Lemma sum_bytes_app a b : sum_bytes (a ++ b) = sum_bytes a + sum_bytes b.
Proof. unfold sum_bytes. induction a; simpl; lia. Qed.

(** Reading back a line made of decodable fields. *)
Lemma record_bytes_line body bs :
  decode_pairs body = Some bs ->
  record_bytes (L ":" ++ body ++ [newline]) = Some bs.
Proof.
  intros H. unfold record_bytes. cbn [L list_ascii_of_string app].
  assert (E : endswith (body ++ [newline]) [newline] = true).
  { unfold endswith. rewrite rev_app_distr. simpl.
    destruct (rev body); reflexivity. }
  rewrite E. cbn [ch_eqb Ascii.eqb andb]. unfold drop_last.
  change (ch_eqb ":" ":") with true. cbn [andb].
  rewrite removelast_last. exact H.
Qed.

(** A line is good when it has the record shape and a valid checksum. *)
Lemma checksum_closes fields ck :
  ck = (- sum_bytes fields) mod 256 ->
  List.last (fields ++ [ck]) 0 = (- sum_bytes (removelast (fields ++ [ck]))) mod 256
  /\ sum_bytes (fields ++ [ck]) mod 256 = 0.
Proof.
  intros ->. rewrite last_last, removelast_last. split; [reflexivity|].
  rewrite sum_bytes_app. unfold sum_bytes at 2. simpl.
  rewrite Z.add_0_r, Zplus_mod_idemp_r.
  replace (sum_bytes fields + - sum_bytes fields) with 0 by lia. reflexivity.
Qed.

Lemma write_hex_record_good address data :
  Forall byte_range data -> (1 <= length data <= 16)%nat ->
  good_line (write_hex_record address data).
Proof.
  intros Hdata Hlen. unfold write_hex_record.
  set (count := Z.of_nat (length data)).
  set (a16 := Z.land address 65535).
  set (hi := Z.land (Z.shiftr a16 8) 255).
  set (lo := Z.land a16 255).
  set (ck := Z.land (- fold_left Z.add data (count + hi + lo + 0)) 255).
  assert (Ha16 : 0 <= a16 < 65536).
  { subst a16. rewrite land_65535. apply Z.mod_pos_bound. lia. }
  assert (Hhi : hi = a16 / 256).
  { subst hi. rewrite land_255, Z.shiftr_div_pow2 by lia. change (2 ^ 8) with 256.
    apply Z.mod_small. split; [apply Z.div_pos; lia|].
    apply Z.div_lt_upper_bound; lia. }
  assert (Hlo : lo = a16 mod 256) by (subst lo; apply land_255).
  assert (Hck : ck = (- sum_bytes ([count; hi; lo; 0] ++ data)) mod 256).
  { subst ck. rewrite land_255, fold_left_add, sum_bytes_app.
    unfold sum_bytes at 2. simpl. f_equal. lia. }
  assert (Hckr : byte_range ck).
  { rewrite Hck. apply Z.mod_pos_bound. lia. }
  assert (Hcount : byte_range count) by (unfold byte_range; lia).
  assert (Hdec : decode_pairs (fmtX 2 count ++ fmtX 4 a16 ++ fmtX 2 0
                               ++ concat (map (fmtX 2) data) ++ fmtX 2 ck)
                 = Some (([count; hi; lo; 0] ++ data) ++ [ck])).
  { destruct (fmtX2_decodes count Hcount) as [D1 _].
    destruct (fmtX4_decodes a16 Ha16) as [D2 _].
    destruct (fmtX2_decodes 0 ltac:(lia)) as [D3 _].
    destruct (fmtX2_decodes ck Hckr) as [D5 _].
    rewrite (decode_pairs_app _ _ _ D1), (decode_pairs_app _ _ _ D2),
      (decode_pairs_app _ _ _ D3), (decode_pairs_app _ _ _ (decode_data data Hdata)), D5.
    rewrite Hhi, Hlo. simpl. rewrite <- ?app_assoc. reflexivity. }
  assert (Hline : record_bytes
            (L ":" ++ fmtX 2 count ++ fmtX 4 a16 ++ fmtX 2 0
               ++ concat (map (fmtX 2) data) ++ fmtX 2 ck ++ [newline])
          = Some (([count; hi; lo; 0] ++ data) ++ [ck])).
  { replace (fmtX 2 count ++ fmtX 4 a16 ++ fmtX 2 0
               ++ concat (map (fmtX 2) data) ++ fmtX 2 ck ++ [newline])
      with ((fmtX 2 count ++ fmtX 4 a16 ++ fmtX 2 0
               ++ concat (map (fmtX 2) data) ++ fmtX 2 ck) ++ [newline])
      by (rewrite <- !app_assoc; reflexivity).
    apply record_bytes_line. exact Hdec. }
  split.
  - exists (([count; hi; lo; 0] ++ data) ++ [ck]). split; [exact Hline|].
    apply checksum_closes. exact Hck.
  - exists count, hi, lo, 0, data, ck. split; [|split; [reflexivity|split]].
    + rewrite Hline. rewrite <- app_assoc. reflexivity.
    + repeat (apply Forall_cons; split); try (unfold byte_range in *; lia).
      * rewrite Hhi. split; [apply Z.div_pos; lia|apply Z.div_lt_upper_bound; lia].
      * rewrite Hlo. apply Z.mod_pos_bound. lia.
      * apply Forall_app. split; [exact Hdata|]. apply Forall_cons. split; [exact Hckr|constructor].
    + left. split; [reflexivity|]. subst count. lia.
Qed.

Lemma write_extended_address_record_good e :
  good_line (write_extended_address_record e).
Proof.
  unfold write_extended_address_record.
  set (dh := Z.land (Z.shiftr e 8) 255).
  set (dl := Z.land e 255).
  set (ck := Z.land (- (2 + Z.shiftr 0 8 + Z.land 0 255 + 4 + dh + dl)) 255).
  assert (Hdh : byte_range dh).
  { unfold byte_range. subst dh. rewrite land_255. apply Z.mod_pos_bound. lia. }
  assert (Hdl : byte_range dl).
  { unfold byte_range. subst dl. rewrite land_255. apply Z.mod_pos_bound. lia. }
  assert (Hck : ck = (- sum_bytes ([2; 0; 0; 4] ++ [dh; dl])) mod 256).
  { subst ck. rewrite land_255. unfold sum_bytes. cbn [app fold_right].
    change (Z.shiftr 0 8) with 0. change (Z.land 0 255) with 0.
    apply (f_equal (fun x => x mod 256)). lia. }
  assert (Hckr : byte_range ck).
  { unfold byte_range. rewrite Hck. apply Z.mod_pos_bound. lia. }
  assert (Hdec : decode_pairs (fmtX 2 2 ++ fmtX 4 0 ++ fmtX 2 4 ++ fmtX 2 dh
                               ++ fmtX 2 dl ++ fmtX 2 ck)
                 = Some (([2; 0; 0; 4] ++ [dh; dl]) ++ [ck])).
  { destruct (fmtX2_decodes 2 ltac:(lia)) as [D1 _].
    destruct (fmtX4_decodes 0 ltac:(lia)) as [D2 _].
    destruct (fmtX2_decodes 4 ltac:(lia)) as [D3 _].
    destruct (fmtX2_decodes dh Hdh) as [D4 _].
    destruct (fmtX2_decodes dl Hdl) as [D5 _].
    destruct (fmtX2_decodes ck Hckr) as [D6 _].
    rewrite (decode_pairs_app _ _ _ D1), (decode_pairs_app _ _ _ D2),
      (decode_pairs_app _ _ _ D3), (decode_pairs_app _ _ _ D4),
      (decode_pairs_app _ _ _ D5), D6. reflexivity. }
  assert (Hline : record_bytes
            (L ":" ++ fmtX 2 2 ++ fmtX 4 0 ++ fmtX 2 4 ++ fmtX 2 dh
               ++ fmtX 2 dl ++ fmtX 2 ck ++ [newline])
          = Some (([2; 0; 0; 4] ++ [dh; dl]) ++ [ck])).
  { replace (fmtX 2 2 ++ fmtX 4 0 ++ fmtX 2 4 ++ fmtX 2 dh
               ++ fmtX 2 dl ++ fmtX 2 ck ++ [newline])
      with ((fmtX 2 2 ++ fmtX 4 0 ++ fmtX 2 4 ++ fmtX 2 dh
               ++ fmtX 2 dl ++ fmtX 2 ck) ++ [newline])
      by (rewrite <- !app_assoc; reflexivity).
    apply record_bytes_line. exact Hdec. }
  split.
  - exists (([2; 0; 0; 4] ++ [dh; dl]) ++ [ck]). split; [exact Hline|].
    apply checksum_closes. exact Hck.
  - exists 2, 0, 0, 4, [dh; dl], ck. split; [|split; [reflexivity|split]].
    + rewrite Hline. reflexivity.
    + repeat (apply Forall_cons; split); try (unfold byte_range in *; lia).
      constructor.
    + right. left. repeat split; reflexivity.
Qed.

Lemma eof_record_good : good_line eof_record.
Proof.
  split.
  - exists [0; 0; 0; 1; 255]. split; [vm_compute; reflexivity|]. split; reflexivity.
  - exists 0, 0, 0, 1, [], 255. split; [vm_compute; reflexivity|].
    split; [reflexivity|]. split.
    + repeat (apply Forall_cons; split); try lia. constructor.
    + right. right. split; reflexivity.
Qed.

Section Image.
Variable m : gmap Z Z.
Hypothesis m_bytes : forall a b, m !! a = Some b -> byte_range b.

Lemma image_byte a : byte_range (m !!! a).
Proof.
  rewrite lookup_total_alt. destruct (m !! a) as [b|] eqn:E; simpl.
  - eapply m_bytes; eauto.
  - vm_compute. split; [discriminate|reflexivity].
Qed.

Lemma Forall_snoc {A} (P : A -> Prop) l x : Forall P l -> P x -> Forall P (l ++ [x]).
Proof. intros. apply Forall_app. split; [assumption|]. constructor; [assumption|constructor]. Qed.

Lemma hex_step_inv st addr :
  hex_inv st -> exists st', hex_step m st addr = Some st' /\ hex_inv st'.
Proof.
  intros [Hw Hb Hs Ha]. unfold hex_step.
  set (e := Z.land (Z.shiftr addr 16) 65535).
  pose proof (image_byte addr) as Hbyte.
  (* the state after the extended-address part *)
  assert (H1 : exists st1,
     (if bool_decide (current_extended_addr st = Some e) then Some st
      else match (if is_nil (current_data st) then Some (written st, current_data st)
                  else option_map (fun w => (w, [])) (flush_record st)) with
           | Some (w, d) => Some (HexState (Some e) None d
                                           (w ++ [write_extended_address_record e]))
           | None => None
           end) = Some st1 /\ hex_inv st1).
  { destruct (bool_decide (current_extended_addr st = Some e)).
    - exists st. split; [reflexivity|]. constructor; assumption.
    - destruct (current_data st) as [|d0 dr] eqn:Ed.
      + simpl. eexists. split; [reflexivity|].
        constructor; simpl;
          [apply Forall_snoc; [assumption|apply write_extended_address_record_good]
          |constructor | lia | intros H; contradiction].
      + simpl. unfold flush_record.
        destruct (current_address st) as [ca|] eqn:Eca.
        2:{ exfalso. apply Ha; [discriminate|reflexivity]. }
        simpl. eexists. split; [reflexivity|].
        constructor; simpl; [|constructor | lia | intros H; contradiction].
        apply Forall_snoc; [|apply write_extended_address_record_good].
        apply Forall_snoc; [assumption|].
        rewrite Ed. apply write_hex_record_good; [assumption|].
        simpl in *. lia. }
  destruct H1 as [st1 [-> [Hw1 Hb1 Hs1 Ha1]]].
  destruct (current_address st1) as [ca|] eqn:Eca.
  - destruct (addr =? ca + Z.of_nat (length (current_data st1))) eqn:Econs.
    + destruct (16 <=? length (current_data st1 ++ [m !!! addr]))%nat eqn:Efull.
      * eexists. split; [reflexivity|].
        constructor; simpl; [|constructor | lia | intros H; contradiction].
        apply Forall_snoc; [assumption|].
        apply write_hex_record_good; [apply Forall_snoc; assumption|].
        rewrite length_app. simpl. lia.
      * eexists. split; [reflexivity|].
        constructor; simpl;
          [assumption | apply Forall_snoc; assumption
          | apply Nat.leb_gt in Efull; exact Efull | intros _; discriminate].
    + eexists. split; [reflexivity|].
      constructor; simpl;
        [| constructor; [assumption|constructor] | lia | intros _; discriminate].
      destruct (current_data st1) as [|d0 dr] eqn:Ed; simpl; [assumption|].
      apply Forall_snoc; [assumption|].
      apply write_hex_record_good; [assumption|]. simpl in *. lia.
  - eexists. split; [reflexivity|].
    constructor; simpl;
      [assumption | constructor; [assumption|constructor] | lia | intros _; discriminate].
Qed.

Lemma hex_loop_inv addrs st :
  hex_inv st -> exists st', hex_loop m st addrs = Some st' /\ hex_inv st'.
Proof.
  revert st. induction addrs as [|a r IH]; intros st Hinv; simpl.
  - exists st. split; [reflexivity|assumption].
  - destruct (hex_step_inv st a Hinv) as [st1 [-> Hinv1]]. apply IH. exact Hinv1.
Qed.

Lemma generate_intel_hex_custom_good :
  exists lines, generate_intel_hex_custom m = Some lines /\ Forall good_line lines.
Proof.
  unfold generate_intel_hex_custom.
  destruct (sorted_keys m) as [|a0 r] eqn:Ek.
  - eexists. split; [reflexivity|]. constructor; [apply eof_record_good|constructor].
  - assert (I0 : hex_inv (HexState None None [] [])).
    { constructor; simpl; [constructor | constructor | lia | intros H; contradiction]. }
    destruct (hex_loop_inv (a0 :: r) _ I0) as [st [-> [Hw Hb Hs Ha]]].
    destruct (current_data st) as [|d0 dr] eqn:Ed; simpl.
    + eexists. split; [reflexivity|]. apply Forall_snoc; [assumption|apply eof_record_good].
    + unfold flush_record. destruct (current_address st) as [ca|] eqn:Eca.
      2:{ exfalso. apply Ha; [discriminate|reflexivity]. }
      simpl. eexists. split; [reflexivity|].
      apply Forall_snoc; [|apply eof_record_good].
      apply Forall_snoc; [assumption|]. rewrite Ed.
      apply write_hex_record_good; [assumption|]. simpl in *. lia.
Qed.

End Image.

(** C8. Every line of an emitted Intel HEX file reads back as a record
    (byte count, 16-bit address, type, data, checksum) of type 00 with 1
    to 16 data bytes, type 04 with two data bytes, or the end record 01;
    its last byte is the two's complement of the sum of the others, so
    all its bytes add up to 0 modulo 256.  The generator never fails on
    an image of bytes. *)
Theorem intel_hex_records_valid (memory_image : gmap Z Z) :
  (forall a b, memory_image !! a = Some b -> 0 <= b < 256) ->
  exists lines,
    generate_intel_hex_custom memory_image = Some lines
    /\ Forall (fun line => record_valid line /\ record_shape line) lines.
Proof.
  intros H. apply generate_intel_hex_custom_good. exact H.
Qed.

(** The image of one 16-bit instruction at [0x80000000] satisfies the
    hypothesis of [intel_hex_records_valid]. *)
Lemma intel_hex_records_valid_witness :
  exists lines,
    generate_intel_hex_custom sample_image = Some lines
    /\ Forall (fun line => record_valid line /\ record_shape line) lines.
Proof.
  apply (intel_hex_records_valid sample_image).
  intros a b. unfold sample_image, write_opcode.
  rewrite !lookup_insert. repeat case_decide; intros E; try discriminate;
    injection E as <-; vm_compute; split; congruence.
Defined.

End IntelHexFacts.

(** ** linker.py: the memory image *)

Module OutputFacts.
Import Linker Samples.

Lemma write_opcode_outside le (m : gmap Z Z) a opc k :
  ~ (a <= k <= a + 3) -> write_opcode le m a opc !! k = m !! k.
Proof.
  intros Hk. unfold write_opcode. destruct le;
    rewrite !lookup_insert_ne by lia; reflexivity.
Qed.

Lemma write_opcode_inside le (m : gmap Z Z) a opc k :
  a <= k <= a + 3 ->
  exists b, write_opcode le m a opc !! k = Some b /\ 0 <= b < 256.
Proof.
  intros Hk. unfold write_opcode.
  assert (R : forall x, 0 <= Z.land x 255 < 256).
  { intros x. change 255 with (Z.ones 8). rewrite Z.land_ones by lia.
    apply Z.mod_pos_bound. lia. }
  assert (C : k = a \/ k = a + 1 \/ k = a + 2 \/ k = a + 3) by lia.
  destruct le; destruct C as [ -> | [ -> | [ -> | -> ] ] ];
    repeat first [rewrite lookup_insert_eq | rewrite lookup_insert_ne by lia];
    eexists; (split; [reflexivity|apply R]).
Qed.

Lemma write_opcode_little_16bit (m : gmap Z Z) a opc :
  0 <= opc < 65536 ->
  write_opcode true m a opc !! a = Some (opc mod 256)
  /\ write_opcode true m a opc !! (a + 1) = Some (opc / 256)
  /\ write_opcode true m a opc !! (a + 2) = Some 0
  /\ write_opcode true m a opc !! (a + 3) = Some 0.
Proof.
  intros Hopc. unfold write_opcode.
  assert (L255 : forall x, Z.land x 255 = x mod 256).
  { intros x. change 255 with (Z.ones 8). rewrite Z.land_ones by lia. reflexivity. }
  repeat split;
    repeat first [rewrite lookup_insert_eq | rewrite lookup_insert_ne by lia];
    f_equal; rewrite L255, ?Z.shiftr_div_pow2 by lia.
  - reflexivity.
  - change (2 ^ 8) with 256. apply Z.mod_small.
    split; [apply Z.div_pos; lia|apply Z.div_lt_upper_bound; lia].
  - change (2 ^ 16) with 65536. rewrite Z.div_small by lia. reflexivity.
  - change (2 ^ 24) with 16777216. rewrite Z.div_small by lia. reflexivity.
Qed.

Lemma write_opcode_big_16bit (m : gmap Z Z) a opc :
  0 <= opc < 65536 ->
  write_opcode false m a opc !! a = Some 0
  /\ write_opcode false m a opc !! (a + 1) = Some 0
  /\ write_opcode false m a opc !! (a + 2) = Some (opc / 256)
  /\ write_opcode false m a opc !! (a + 3) = Some (opc mod 256).
Proof.
  intros Hopc. unfold write_opcode.
  assert (L255 : forall x, Z.land x 255 = x mod 256).
  { intros x. change 255 with (Z.ones 8). rewrite Z.land_ones by lia. reflexivity. }
  repeat split;
    repeat first [rewrite lookup_insert_eq | rewrite lookup_insert_ne by lia];
    f_equal; rewrite L255, ?Z.shiftr_div_pow2 by lia.
  - change (2 ^ 24) with 16777216. rewrite Z.div_small by lia. reflexivity.
  - change (2 ^ 16) with 65536. rewrite Z.div_small by lia. reflexivity.
  - change (2 ^ 8) with 256. apply Z.mod_small.
    split; [apply Z.div_pos; lia|apply Z.div_lt_upper_bound; lia].
  - reflexivity.
Qed.

Lemma build_memory_image_app le dh m l1 l2 :
  build_memory_image le dh m (l1 ++ l2) =
  match build_memory_image le dh m l1 with
  | Some m1 => build_memory_image le dh m1 l2
  | None => None
  end.
Proof.
  revert m. induction l1 as [|i l1 IH]; intros m; simpl; [reflexivity|].
  destruct (emit_instruction le dh m i); [apply IH|reflexivity].
Qed.

(** C9, amended. A record that is not classified as a data directive
    stores exactly the four addresses [address .. address + 3] of the
    image, whatever its recorded size: every other address keeps its
    content and each of the four holds a byte.  For a 16-bit opcode the
    image reaches two bytes past the instruction: in little-endian mode
    the opcode is at [address] and [address + 1] and the bytes at
    [address + 2] and [address + 3] are zero; in big-endian mode the zero
    bytes are at [address] and [address + 1] and the opcode is at
    [address + 2] and [address + 3]. *)
Theorem opcode_record_writes_four_bytes
        (little_endian : bool) (data_handler : linked_instruction -> data_outcome)
        (m : gmap Z Z) (i : linked_instruction) :
  classified_data_directive (li_source_text i) = false ->
  exists m',
    emit_instruction little_endian data_handler m i = Some m'
    /\ (forall sz, emit_instruction little_endian data_handler m (with_size i sz) = Some m')
    /\ (forall k, li_address i <= k <= li_address i + 3 ->
          exists b, m' !! k = Some b /\ 0 <= b < 256)
    /\ (forall k, ~ (li_address i <= k <= li_address i + 3) -> m' !! k = m !! k)
    /\ (0 <= li_opcode i < 65536 ->
          if little_endian
          then m' !! li_address i = Some (li_opcode i mod 256)
               /\ m' !! (li_address i + 1) = Some (li_opcode i / 256)
               /\ m' !! (li_address i + 2) = Some 0
               /\ m' !! (li_address i + 3) = Some 0
          else m' !! li_address i = Some 0
               /\ m' !! (li_address i + 1) = Some 0
               /\ m' !! (li_address i + 2) = Some (li_opcode i / 256)
               /\ m' !! (li_address i + 3) = Some (li_opcode i mod 256))
    /\ (forall before m0,
          build_memory_image little_endian data_handler m0 before = Some m ->
          build_memory_image little_endian data_handler m0 (before ++ [i]) = Some m').
Proof.
  intros Hc. exists (write_opcode little_endian m (li_address i) (li_opcode i)).
  unfold emit_instruction. cbn [with_size li_source_text li_address li_opcode].
  rewrite Hc. split; [reflexivity|]. split; [reflexivity|].
  split; [intros k Hk; apply write_opcode_inside; exact Hk|].
  split; [intros k Hk; apply write_opcode_outside; exact Hk|].
  split.
  - intros Hopc. destruct little_endian.
    + apply write_opcode_little_16bit, Hopc.
    + apply write_opcode_big_16bit, Hopc.
  - intros before m0 Hb. rewrite build_memory_image_app, Hb. simpl.
    unfold emit_instruction. rewrite Hc. reflexivity.
Qed.

(** The 2-byte instruction [MOV D4, #1] satisfies the hypothesis of
    [opcode_record_writes_four_bytes]. *)
Lemma opcode_record_writes_four_bytes_witness :
  exists m',
    emit_instruction true (fun _ => DataException) ∅ mov_d4_record = Some m'
    /\ (forall sz, emit_instruction true (fun _ => DataException) ∅ (with_size mov_d4_record sz) = Some m')
    /\ (forall k, li_address mov_d4_record <= k <= li_address mov_d4_record + 3 ->
          exists b, m' !! k = Some b /\ 0 <= b < 256)
    /\ (forall k, ~ (li_address mov_d4_record <= k <= li_address mov_d4_record + 3) -> m' !! k = (∅ : gmap Z Z) !! k)
    /\ (0 <= li_opcode mov_d4_record < 65536 ->
          m' !! li_address mov_d4_record = Some (li_opcode mov_d4_record mod 256)
          /\ m' !! (li_address mov_d4_record + 1) = Some (li_opcode mov_d4_record / 256)
          /\ m' !! (li_address mov_d4_record + 2) = Some 0
          /\ m' !! (li_address mov_d4_record + 3) = Some 0)
    /\ (forall before m0,
          build_memory_image true (fun _ => DataException) m0 before = Some ∅ ->
          build_memory_image true (fun _ => DataException) m0 (before ++ [mov_d4_record]) = Some m').
Proof.
  apply (opcode_record_writes_four_bytes true (fun _ => DataException) ∅ mov_d4_record).
  vm_compute. reflexivity.
Defined.

(** The binary file of a lone 2-byte instruction is four bytes long. *)
Lemma binary_of_one_16bit_instruction :
  (build_memory_image true (fun _ => DataException) ∅ [mov_d4_record]) ≫= binary_output
  = Some [130; 20; 0; 0].
Proof. vm_compute. reflexivity. Qed.

(** C9 as claimed fails in big-endian mode: the two bytes stored past the
    2-byte instruction [MOV D4, #1] (opcode [0x1482]) are not zero, they
    are the opcode; the zero bytes come first. *)
Lemma big_endian_extra_bytes_are_the_opcode :
  classified_data_directive (li_source_text mov_d4_record) = false
  /\ li_size mov_d4_record = 2
  /\ (emit_instruction false (fun _ => DataException) ∅ mov_d4_record
      ≫= fun m' => m' !! (li_address mov_d4_record + 2)) = Some 20
  /\ (emit_instruction false (fun _ => DataException) ∅ mov_d4_record
      ≫= fun m' => m' !! (li_address mov_d4_record + 3)) = Some 130
  /\ (build_memory_image false (fun _ => DataException) ∅ [mov_d4_record]
      ≫= binary_output) = Some [0; 0; 20; 130].
Proof. vm_compute. repeat split; reflexivity. Qed.

End OutputFacts.

Module NumericRoundTrip.
Import Basics NumericParser NumericFormat NumericDigitsDefs.

(** *** Characters of rendered digits *)

Lemma hexd_facts c :
  hexd c = true ->
  is_space c = false /\ ch_eqb c "_" = false /\ lower_ch c = c
  /\ ch_eqb c "+" = false /\ ch_eqb c "-" = false
  /\ ch_eqb "x" c = false /\ ch_eqb "h" c = false /\ ch_eqb "$" c = false
  /\ ch_eqb "y" c = false /\ ch_eqb "q" c = false /\ ch_eqb "o" c = false
  /\ ch_eqb c "x" = false /\ ch_eqb c "h" = false.
Proof.
  destruct c as [[] [] [] [] [] [] [] []]; intros H; try discriminate H;
    vm_compute; repeat split; reflexivity.
Qed.

Lemma is_digit_facts c :
  is_digit c = true ->
  hexd c = true /\ ch_eqb "b" c = false /\ ch_eqb "d" c = false.
Proof.
  destruct c as [[] [] [] [] [] [] [] []]; intros H; try discriminate H;
    vm_compute; repeat split; reflexivity.
Qed.

Lemma digit_char_cases (P : Z -> Prop) m :
  0 <= m < 16 ->
  P 0 -> P 1 -> P 2 -> P 3 -> P 4 -> P 5 -> P 6 -> P 7 -> P 8 -> P 9 -> P 10 ->
  P 11 -> P 12 -> P 13 -> P 14 -> P 15 -> P m.
Proof.
  intros Hm. intros.
  assert (m = 0 \/ m = 1 \/ m = 2 \/ m = 3 \/ m = 4 \/ m = 5 \/ m = 6 \/ m = 7
          \/ m = 8 \/ m = 9 \/ m = 10 \/ m = 11 \/ m = 12 \/ m = 13 \/ m = 14
          \/ m = 15) as Hc by lia.
  repeat (destruct Hc as [-> | Hc]; [assumption|]). subst. assumption.
Qed.

Lemma digit_char_hexd m : 0 <= m < 16 -> hexd (digit_char m) = true.
Proof.
  intros H. apply (digit_char_cases (fun m => hexd (digit_char m) = true) m H);
    reflexivity.
Qed.

Lemma digit_char_value m : 0 <= m < 16 -> digit_value (digit_char m) = Some m.
Proof.
  intros H.
  apply (digit_char_cases (fun m => digit_value (digit_char m) = Some m) m H);
    reflexivity.
Qed.

Lemma digit_char_is_digit m : 0 <= m < 10 -> is_digit (digit_char m) = true.
Proof.
  intros H. assert (H16 : 0 <= m < 16) by lia. revert H.
  apply (digit_char_cases (fun m => 0 <= m < 10 -> is_digit (digit_char m) = true) m H16);
    intros; try reflexivity; lia.
Qed.

Lemma digit_char_nonzero m :
  0 < m < 16 -> ch_eqb "0" (digit_char m) = false /\ ch_eqb (digit_char m) "0" = false.
Proof.
  intros H. assert (H16 : 0 <= m < 16) by lia. revert H.
  apply (digit_char_cases
           (fun m => 0 < m < 16 -> ch_eqb "0" (digit_char m) = false
                                   /\ ch_eqb (digit_char m) "0" = false) m H16);
    intros; try (split; reflexivity); lia.
Qed.

(** *** The digits of a positive number *)

Lemma py_digits_digit base a m r :
  0 <= m < base -> base <= 16 ->
  py_digits base a false (digit_char m :: r) = py_digits base (a * base + m) false r.
Proof.
  intros Hm Hb. cbn [py_digits].
  destruct (hexd_facts _ (digit_char_hexd m ltac:(lia))) as (_ & -> & _).
  rewrite digit_char_value by lia.
  destruct (Z.ltb_spec m base); [reflexivity|lia].
Qed.

Lemma to_digits_aux_spec base fuel n acc :
  2 <= base <= 16 ->
  0 < n < 2 ^ (Z.of_nat fuel + 1) ->
  exists ds, to_digits_aux fuel base n acc = ds ++ acc /\ digits_of base n ds.
Proof.
  intros Hb. revert n acc. induction fuel as [|fuel IH]; intros n acc Hn.
  - assert (n = 1) by (change (2 ^ (Z.of_nat 0 + 1)) with 2 in Hn; lia). subst n.
    cbn [to_digits_aux]. rewrite Z.mod_1_l by lia.
    exists [digit_char 1]. split; [reflexivity|]. constructor.
    + repeat constructor.
    + intros _. repeat constructor.
    + exists (digit_char 1), []. repeat split; reflexivity.
    + intros a r. exists 1. split; [lia|]. cbn [app].
      rewrite py_digits_digit by lia. rewrite Z.pow_1_r. reflexivity.
  - cbn [to_digits_aux]. destruct (Z.ltb_spec n base) as [Hlt|Hge].
    + exists [digit_char n]. split; [reflexivity|]. constructor.
      * constructor; [apply digit_char_hexd; lia|constructor].
      * intros H10. constructor; [apply digit_char_is_digit; lia|constructor].
      * exists (digit_char n), []. split; [reflexivity|]. apply digit_char_nonzero. lia.
      * intros a r. exists 1. split; [lia|]. cbn [app].
        rewrite py_digits_digit by lia. rewrite Z.pow_1_r. reflexivity.
    + assert (Hq : 0 < n / base < 2 ^ (Z.of_nat fuel + 1)).
      { split.
        - apply Z.div_str_pos. lia.
        - apply Z.div_lt_upper_bound; [lia|].
          replace (Z.of_nat (S fuel) + 1) with (Z.succ (Z.of_nat fuel + 1)) in Hn by lia.
          rewrite Z.pow_succ_r in Hn by lia.
          assert (0 < 2 ^ (Z.of_nat fuel + 1)) by (apply Z.pow_pos_nonneg; lia).
          nia. }
      destruct (IH (n / base) (digit_char (n mod base) :: acc) Hq) as (ds & Hds & D).
      assert (Hm : 0 <= n mod base < base) by (apply Z.mod_pos_bound; lia).
      exists (ds ++ [digit_char (n mod base)]). split.
      { rewrite Hds, <- app_assoc. reflexivity. }
      destruct D as [D1 D2 D3 D4]. constructor.
      * apply Forall_app. split; [exact D1|].
        constructor; [apply digit_char_hexd; lia|constructor].
      * intros H10. apply Forall_app. split; [auto|].
        constructor; [apply digit_char_is_digit; lia|constructor].
      * destruct D3 as (d1 & rest & -> & H0). exists d1, (rest ++ [digit_char (n mod base)]).
        split; [reflexivity|exact H0].
      * intros a r. destruct (D4 a (digit_char (n mod base) :: r)) as (k & Hk & E).
        exists (k + 1). split; [lia|].
        rewrite <- app_assoc. cbn [app]. rewrite E.
        rewrite py_digits_digit by lia. f_equal.
        rewrite Z.pow_add_r, Z.pow_1_r by lia.
        rewrite (Z.div_mod n base) at 3 by lia. ring.
Qed.

Lemma to_digits_spec base n :
  2 <= base <= 16 -> 0 < n -> digits_of base n (to_digits base n).
Proof.
  intros Hb Hn. unfold to_digits.
  destruct (to_digits_aux_spec base (Z.to_nat (Z.log2 n)) n [] Hb) as (ds & E & D).
  - split; [exact Hn|]. rewrite Z2Nat.id by apply Z.log2_nonneg.
    replace (Z.log2 n + 1) with (Z.succ (Z.log2 n)) by lia.
    apply Z.log2_spec. exact Hn.
  - rewrite E, app_nil_r. exact D.
Qed.


(** *** Strings without blanks and underscores *)

Lemma hexd_clean c : hexd c = true -> clean c.
Proof. intros H. destruct (hexd_facts c H) as (? & ? & _). split; assumption. Qed.

Lemma lstrip_clean v : Forall clean v -> lstrip v = v.
Proof. intros [|c r [Hc _] _]; [reflexivity|]. cbn [lstrip]. rewrite Hc. reflexivity. Qed.

Lemma strip_clean v : Forall clean v -> strip v = v.
Proof.
  intros H. unfold strip, rstrip. rewrite (lstrip_clean v H).
  rewrite lstrip_clean by (apply Forall_rev; exact H). apply rev_involutive.
Qed.

Lemma remove_underscore_clean v : Forall clean v -> remove_ch "_" v = v.
Proof.
  unfold remove_ch. induction 1 as [|c r [_ Hc] _ IH]; [reflexivity|].
  rewrite (filter_bool_cons (fun x => negb (ch_eqb x "_"))), Hc. cbn [negb].
  f_equal. exact IH.
Qed.

Lemma digits_clean base n ds : digits_of base n ds -> Forall clean ds.
Proof.
  intros [H _ _ _]. eapply Forall_impl; [exact H|]. intros c Hc. apply hexd_clean, Hc.
Qed.

Lemma endswith_snoc l c h : endswith (lower (l ++ [c])) [h] = ch_eqb h (lower_ch c).
Proof.
  unfold endswith, lower. rewrite map_app, rev_app_distr. cbn [map rev app startswith].
  destruct (rev (map lower_ch l)); apply andb_true_r.
Qed.

Lemma drop_last_snoc (l : str) c : drop_last (l ++ [c]) = l.
Proof. apply removelast_last. Qed.

(** *** [int(s, base)] on rendered digits *)

Lemma py_digits_value base n ds :
  digits_of base n ds -> py_digits base 0 false ds = Some n.
Proof.
  intros [_ _ _ H]. destruct (H 0 []) as (k & _ & E).
  rewrite app_nil_r in E. rewrite E. cbn [py_digits]. f_equal. all: lia.
Qed.

Lemma py_int_digits base n ds :
  digits_of base n ds -> py_int base ds = Some n.
Proof.
  intros D. unfold py_int. rewrite (strip_clean ds (digits_clean _ _ _ D)).
  pose proof (py_digits_value _ _ _ D) as V.
  destruct D as [Hh _ (d1 & rest & -> & H0 & H0') _].
  apply Forall_cons in Hh as [Hd1 _].
  destruct (hexd_facts d1 Hd1) as (_ & Hus & _ & Hplus & Hminus & _).
  rewrite Hplus, Hminus.
  assert (Hskip : skip_base_prefix base (d1 :: rest) = d1 :: rest).
  { unfold skip_base_prefix. destruct rest as [|l r]; [reflexivity|].
    destruct (base_prefix_letter base); [|reflexivity].
    rewrite H0'. reflexivity. }
  rewrite Hskip, Hus, V. cbn [option_map]. f_equal. all: lia.
Qed.

Lemma py_int_zero_digits n ds :
  digits_of 16 n ds -> py_int 16 ("0"%char :: ds) = Some n.
Proof.
  intros D. unfold py_int.
  rewrite strip_clean
    by (constructor; [split; reflexivity|exact (digits_clean _ _ _ D)]).
  pose proof (py_digits_value _ _ _ D) as V.
  destruct D as [Hh _ (d1 & rest & -> & H0 & H0') _].
  apply Forall_cons in Hh as [Hd1 _].
  destruct (hexd_facts d1 Hd1) as (_ & _ & Hlow & _ & _ & _ & _ & _ & _ & _ & _ & Hx & _).
  change (ch_eqb "0" "+") with false. change (ch_eqb "0" "-") with false. cbv iota.
  assert (Hskip : skip_base_prefix 16 ("0"%char :: d1 :: rest) = "0"%char :: d1 :: rest).
  { unfold skip_base_prefix. change (base_prefix_letter 16) with (Some "x"%char).
    rewrite Hlow, Hx. rewrite andb_false_r. reflexivity. }
  rewrite Hskip. change (ch_eqb "0" "_") with false. cbv iota.
  cbn [py_digits]. change (ch_eqb "0" "_") with false. cbv iota.
  change (digit_value "0") with (Some 0). cbv iota. change (0 <? 16) with true.
  cbv iota. change (0 * 16 + 0) with 0. cbn [py_digits] in V. rewrite V. cbn [option_map]. f_equal. all: lia.
Qed.

Lemma py_int_0x_digits n ds x :
  lower_ch x = "x"%char ->
  digits_of 16 n ds -> py_int 16 ("0"%char :: x :: ds) = Some n.
Proof.
  intros Hx D. unfold py_int.
  assert (Hcx : clean x).
  { revert Hx. destruct x as [[] [] [] [] [] [] [] []]; intros Hx; try discriminate Hx;
      split; reflexivity. }
  rewrite strip_clean
    by (constructor; [split; reflexivity|constructor;
                      [exact Hcx|exact (digits_clean _ _ _ D)]]).
  pose proof (py_digits_value _ _ _ D) as V.
  destruct D as [Hh _ (d1 & rest & -> & H0 & H0') _].
  apply Forall_cons in Hh as [Hd1 _].
  destruct (hexd_facts d1 Hd1) as (_ & Hus & _).
  change (ch_eqb "0" "+") with false. change (ch_eqb "0" "-") with false. cbv iota.
  assert (Hskip : skip_base_prefix 16 ("0"%char :: x :: d1 :: rest) = d1 :: rest).
  { unfold skip_base_prefix. change (base_prefix_letter 16) with (Some "x"%char).
    rewrite Hx. change (ch_eqb "0" "0" && ch_eqb "x" "x") with true. cbv iota.
    rewrite Hus. reflexivity. }
  rewrite Hskip, Hus, V. cbn [option_map]. f_equal. all: lia.
Qed.


(** *** The tests of the cascade on rendered texts *)

Lemma parse_unfold v :
  Forall clean v -> v <> [] ->
  parse v =
    if startswith (lower v) (L "0x") then py_int 16 v
    else if has_alt_prefix "h" v then py_int 16 (skipn 2 v)
    else if endswith (lower v) (L "h") then
      let hex_str := drop_last v in
      if first_is_hex_letter hex_str then None
      else py_int 16 hex_str
    else if startswith v (L "$") then
      let hex_str := skipn 1 v in
      match hex_str with
      | [] => None
      | _ => if first_is_hex_letter hex_str then None else py_int 16 hex_str
      end
    else if startswith (lower v) (L "0b") then py_int 2 (skipn 2 v)
    else if has_alt_prefix "y" v then py_int 2 (skipn 2 v)
    else if endswith (lower v) (L "b") then py_int 2 (drop_last v)
    else if endswith (lower v) (L "y") then py_int 2 (drop_last v)
    else if startswith (lower v) (L "0o") then py_int 8 (skipn 2 v)
    else if has_alt_prefix "q" v then py_int 8 (skipn 2 v)
    else if endswith (lower v) (L "q") then py_int 8 (drop_last v)
    else if endswith (lower v) (L "o") then py_int 8 (drop_last v)
    else if has_alt_prefix "d" v then py_int 10 (skipn 2 v)
    else if endswith (lower v) (L "d") then py_int 10 (drop_last v)
    else py_int 10 v.
Proof.
  intros Hc Hne. unfold parse. rewrite (strip_clean v Hc).
  destruct v as [|c r]; [contradiction|].
  rewrite (remove_underscore_clean _ Hc). reflexivity.
Qed.

Section Tests.
Variables (base n : Z) (ds : str).
Hypothesis D : digits_of base n ds.

Lemma head_not_zero_lower x q : startswith (lower (ds ++ x)) ("0"%char :: q) = false.
Proof.
  destruct D as [Hh _ (d1 & rest & -> & H0 & _) _].
  apply Forall_cons in Hh as [Hd1 _].
  destruct (hexd_facts d1 Hd1) as (_ & _ & Hlow & _).
  cbn [app lower map startswith]. rewrite Hlow, H0. reflexivity.
Qed.

Lemma head_no_alt_prefix k x : has_alt_prefix k (ds ++ x) = false.
Proof.
  destruct D as [_ _ (d1 & rest & -> & _ & H0) _].
  cbn [app]. unfold has_alt_prefix. destruct (rest ++ x) as [|a [|b r]]; try reflexivity.
  rewrite H0. reflexivity.
Qed.

Lemma head_not_dollar x : startswith (ds ++ x) ["$"%char] = false.
Proof.
  destruct D as [Hh _ (d1 & rest & -> & _) _].
  apply Forall_cons in Hh as [Hd1 _].
  destruct (hexd_facts d1 Hd1) as (_ & _ & _ & _ & _ & _ & _ & Hd & _).
  cbn [app startswith]. rewrite Hd. reflexivity.
Qed.

Lemma digits_last : exists init z, ds = init ++ [z] /\ hexd z = true
                                   /\ (base <= 10 -> is_digit z = true).
Proof.
  destruct D as [Hh Hd (d1 & rest & E & _) _].
  destruct (exists_last (l := ds)) as (init & z & ->); [rewrite E; discriminate|].
  exists init, z. split; [reflexivity|].
  apply Forall_app in Hh as [_ Hz]. apply Forall_cons in Hz as [Hz _].
  split; [exact Hz|]. intros Hb. specialize (Hd Hb).
  apply Forall_app in Hd as [_ Hd]. apply Forall_cons in Hd as [Hd _]. exact Hd.
Qed.

Lemma tail_not_letter p h :
  hexd h = false -> endswith (lower (p ++ ds)) [h] = false.
Proof.
  intros Hh. destruct digits_last as (init & z & -> & Hz & _).
  rewrite app_assoc, endswith_snoc.
  destruct (hexd_facts z Hz) as (_ & _ & -> & _).
  destruct (ch_eqb h z) eqn:E; [|reflexivity].
  apply Ascii.eqb_eq in E. subst. congruence.
Qed.

Lemma tail_not_decimal_letter p h :
  base <= 10 -> is_digit h = false -> endswith (lower (p ++ ds)) [h] = false.
Proof.
  intros Hb Hh. destruct digits_last as (init & z & -> & Hz & Hd).
  rewrite app_assoc, endswith_snoc.
  destruct (hexd_facts z Hz) as (_ & _ & -> & _).
  destruct (ch_eqb h z) eqn:E; [|reflexivity].
  apply Ascii.eqb_eq in E. subst. rewrite (Hd Hb) in Hh. discriminate.
Qed.

Lemma alt_prefix_digits p1 p2 k :
  has_alt_prefix k (p1 :: p2 :: ds) = ch_eqb p1 "0" && ch_eqb (lower_ch p2) k.
Proof.
  destruct D as [_ _ (d1 & rest & -> & _) _]. reflexivity.
Qed.

Lemma tail_not_letter2 p1 p2 h :
  hexd h = false -> endswith (lower (p1 :: p2 :: ds)) [h] = false.
Proof. apply (tail_not_letter [p1; p2]). Qed.

Lemma tail_not_decimal_letter2 p1 p2 h :
  base <= 10 -> is_digit h = false -> endswith (lower (p1 :: p2 :: ds)) [h] = false.
Proof. apply (tail_not_decimal_letter [p1; p2]). Qed.

Lemma tail_not_letter0 h : hexd h = false -> endswith (lower ds) [h] = false.
Proof. apply (tail_not_letter []). Qed.

Lemma tail_not_decimal_letter0 h :
  base <= 10 -> is_digit h = false -> endswith (lower ds) [h] = false.
Proof. apply (tail_not_decimal_letter []). Qed.

Lemma head_not_zero_lower0 q : startswith (lower ds) ("0"%char :: q) = false.
Proof. rewrite <- (app_nil_r ds). apply head_not_zero_lower. Qed.

Lemma head_no_alt_prefix0 k : has_alt_prefix k ds = false.
Proof. rewrite <- (app_nil_r ds). apply head_no_alt_prefix. Qed.

Lemma head_not_dollar0 : startswith ds ["$"%char] = false.
Proof. rewrite <- (app_nil_r ds). apply head_not_dollar. Qed.

Lemma zero_head_not_0x x : startswith (lower ("0"%char :: ds ++ x)) ["0"%char; "x"%char] = false.
Proof.
  destruct D as [Hh _ (d1 & rest & -> & _) _].
  apply Forall_cons in Hh as [Hd1 _].
  destruct (hexd_facts d1 Hd1) as (_ & _ & Hlow & _ & _ & Hx & _).
  cbn [app lower map startswith]. rewrite Hlow, Hx. reflexivity.
Qed.

Lemma zero_head_no_alt_h x : has_alt_prefix "h" ("0"%char :: ds ++ x) = false.
Proof.
  destruct D as [Hh _ (d1 & rest & -> & _) _].
  apply Forall_cons in Hh as [Hd1 _].
  destruct (hexd_facts d1 Hd1) as (_ & _ & Hlow & _ & _ & _ & _ & _ & _ & _ & _ & _ & Hh).
  cbn [app]. unfold has_alt_prefix. destruct (rest ++ x); [reflexivity|].
  rewrite Hlow, Hh. apply andb_false_r.
Qed.

End Tests.

Lemma startswith_lower2 p1 p2 r a b :
  startswith (lower (p1 :: p2 :: r)) [a; b]
  = ch_eqb a (lower_ch p1) && ch_eqb b (lower_ch p2).
Proof.
  cbn [lower map startswith].
  destruct r, (ch_eqb a (lower_ch p1)), (ch_eqb b (lower_ch p2)); reflexivity.
Qed.

(** Evaluation of the comparisons of two known characters. *)
Ltac eval_closed :=
  repeat match goal with
         | |- context [ch_eqb ?a ?b] =>
             let v := eval vm_compute in (ch_eqb a b) in
             lazymatch v with
             | true => change (ch_eqb a b) with true
             | false => change (ch_eqb a b) with false
             end
         end;
  cbn [andb orb negb].


Ltac solve_clean D :=
  repeat first
    [ exact (digits_clean _ _ _ D)
    | apply Forall_nil_2
    | apply Forall_cons; split; [split; reflexivity|]
    | apply Forall_app; split ].

Ltac finish D :=
  eval_closed; cbv iota zeta; cbn [skipn];
  first [ exact (py_int_digits _ _ _ D)
        | exact (py_int_zero_digits _ _ D)
        | apply py_int_0x_digits; [reflexivity|exact D] ].

Ltac prefix_tests D :=
  rewrite ?startswith_lower2, ?(alt_prefix_digits _ _ _ D);
  rewrite ?(tail_not_letter2 _ _ _ D _ _ "h" eq_refl),
          ?(tail_not_letter2 _ _ _ D _ _ "y" eq_refl),
          ?(tail_not_letter2 _ _ _ D _ _ "q" eq_refl),
          ?(tail_not_letter2 _ _ _ D _ _ "o" eq_refl);
  try rewrite (tail_not_decimal_letter2 _ _ _ D _ _ "b" ltac:(lia) eq_refl);
  try rewrite (tail_not_decimal_letter2 _ _ _ D _ _ "d" ltac:(lia) eq_refl).

Ltac suffix_tests D :=
  rewrite ?(head_not_zero_lower _ _ _ D), ?(head_no_alt_prefix _ _ _ D),
          ?(head_not_dollar _ _ _ D), ?endswith_snoc, ?drop_last_snoc.

(** The magnitude of a positive number reads back in every format. *)
Lemma magnitude_roundtrip f n : 0 < n -> parse (render_magnitude f n) = Some n.
Proof.
  intros Hn.
  assert (Hb : 2 <= format_base f <= 16) by (destruct f; cbn; lia).
  pose proof (to_digits_spec (format_base f) n Hb Hn) as D.
  unfold render_magnitude. set (ds := to_digits (format_base f) n) in *. clearbody ds.
  destruct f; cbn [format_base] in *; cbn [L list_ascii_of_string app].
  - (* 0x *) rewrite parse_unfold; [|solve_clean D|discriminate].
    cbn [L list_ascii_of_string]. prefix_tests D. finish D.
  - (* 0X *) rewrite parse_unfold; [|solve_clean D|discriminate].
    cbn [L list_ascii_of_string]. prefix_tests D. finish D.
  - (* 0h *) rewrite parse_unfold; [|solve_clean D|discriminate].
    cbn [L list_ascii_of_string]. prefix_tests D. finish D.
  - (* suffix h *)
    destruct (first_is_hex_letter ds) eqn:F; cbn [L list_ascii_of_string app].
    + rewrite parse_unfold; [|solve_clean D|discriminate].
      cbn [L list_ascii_of_string].
      rewrite (zero_head_not_0x _ _ _ D), (zero_head_no_alt_h _ _ _ D).
      change ("0"%char :: ds ++ ["h"%char]) with (("0"%char :: ds) ++ ["h"%char]).
      rewrite endswith_snoc, drop_last_snoc. finish D.
    + rewrite parse_unfold; [|solve_clean D|destruct ds; discriminate].
      cbn [L list_ascii_of_string]. suffix_tests D. eval_closed. cbv iota zeta.
      rewrite F. exact (py_int_digits _ _ _ D).
  - (* $0 *) rewrite parse_unfold; [|solve_clean D|discriminate].
    cbn [L list_ascii_of_string]. prefix_tests D.
    cbn [startswith skipn first_is_hex_letter]. finish D.
  - (* 0b *) rewrite parse_unfold; [|solve_clean D|discriminate].
    cbn [L list_ascii_of_string]. prefix_tests D.
    cbn [startswith]. finish D.
  - (* 0y *) rewrite parse_unfold; [|solve_clean D|discriminate].
    cbn [L list_ascii_of_string]. prefix_tests D.
    cbn [startswith]. finish D.
  - (* suffix b *) rewrite parse_unfold; [|solve_clean D|destruct ds; discriminate].
    cbn [L list_ascii_of_string]. suffix_tests D. finish D.
  - (* suffix y *) rewrite parse_unfold; [|solve_clean D|destruct ds; discriminate].
    cbn [L list_ascii_of_string]. suffix_tests D. finish D.
  - (* 0o *) rewrite parse_unfold; [|solve_clean D|discriminate].
    cbn [L list_ascii_of_string]. prefix_tests D.
    cbn [startswith]. finish D.
  - (* 0q *) rewrite parse_unfold; [|solve_clean D|discriminate].
    cbn [L list_ascii_of_string]. prefix_tests D.
    cbn [startswith]. finish D.
  - (* suffix o *) rewrite parse_unfold; [|solve_clean D|destruct ds; discriminate].
    cbn [L list_ascii_of_string]. suffix_tests D. finish D.
  - (* suffix q *) rewrite parse_unfold; [|solve_clean D|destruct ds; discriminate].
    cbn [L list_ascii_of_string]. suffix_tests D. finish D.
  - (* 0d *) rewrite parse_unfold; [|solve_clean D|discriminate].
    cbn [L list_ascii_of_string]. prefix_tests D.
    cbn [startswith]. finish D.
  - (* suffix d *) rewrite parse_unfold; [|solve_clean D|destruct ds; discriminate].
    cbn [L list_ascii_of_string]. suffix_tests D. finish D.
  - (* plain *)
    rewrite parse_unfold; [|solve_clean D|destruct D as [_ _ (? & ? & -> & _) _]; discriminate].
    cbn [L list_ascii_of_string].
    rewrite !(head_not_zero_lower0 _ _ _ D), !(head_no_alt_prefix0 _ _ _ D),
            (head_not_dollar0 _ _ _ D).
    rewrite (tail_not_letter0 _ _ _ D "h" eq_refl), (tail_not_letter0 _ _ _ D "y" eq_refl),
            (tail_not_letter0 _ _ _ D "q" eq_refl), (tail_not_letter0 _ _ _ D "o" eq_refl),
            (tail_not_decimal_letter0 _ _ _ D "b" ltac:(lia) eq_refl),
            (tail_not_decimal_letter0 _ _ _ D "d" ltac:(lia) eq_refl).
    exact (py_int_digits _ _ _ D).
Qed.


Lemma startswith_nil s : startswith s [] = true.
Proof. destruct s; reflexivity. Qed.

Lemma magnitude_clean f n :
  0 < n ->
  Forall clean (render_magnitude f n)
  /\ startswith (render_magnitude f n) ["+"%char] = false
  /\ startswith (render_magnitude f n) ["-"%char] = false.
Proof.
  intros Hn.
  assert (Hb : 2 <= format_base f <= 16) by (destruct f; cbn; lia).
  pose proof (to_digits_spec (format_base f) n Hb Hn) as D.
  unfold render_magnitude. set (ds := to_digits (format_base f) n) in *. clearbody ds.
  assert (Hhead : forall x, startswith (ds ++ x) ["+"%char] = false
                            /\ startswith (ds ++ x) ["-"%char] = false).
  { intros x. destruct D as [Hh _ (d1 & rest & -> & _) _].
    apply Forall_cons in Hh as [Hd1 _].
    destruct (hexd_facts d1 Hd1) as (_ & _ & _ & Hp & Hm & _).
    cbn [app startswith]. unfold ch_eqb in *.
    rewrite (Ascii.eqb_sym "+" d1), (Ascii.eqb_sym "-" d1), Hp, Hm. split; reflexivity. }
  destruct f; cbn [format_base] in *; cbn [L list_ascii_of_string app];
    try (split; [solve_clean D|split; reflexivity]);
    try (split; [solve_clean D|apply Hhead]).
  - destruct (first_is_hex_letter ds); cbn [L list_ascii_of_string app].
    + split; [solve_clean D|split; reflexivity].
    + split; [solve_clean D|apply Hhead].
  - split; [solve_clean D|]. rewrite <- (app_nil_r ds). apply Hhead.
Qed.

(** X1. Rendering an integer in any of the formats, with or without an
    explicit plus sign, and parsing the text gives the integer back, with
    two exceptions: zero written with the binary suffix [b] or with the
    octal suffix [o], which the parser rejects. *)
Theorem numeric_roundtrip_except_zero_b_o (f : num_format) (plus : bool) (n : Z) :
  parse_numeric (render f plus n)
  = match f with
    | BinSuffixB | OctSuffixO => if n =? 0 then None else Some n
    | _ => Some n
    end.
Proof.
  destruct (Z.lt_trichotomy n 0) as [Hneg | [-> | Hpos]].
  - assert (E : parse_numeric (render f plus n) = Some n).
    { unfold parse_numeric, parse_with_sign, render.
      destruct (Z.ltb_spec n 0); [|lia].
      destruct (magnitude_clean f (- n) ltac:(lia)) as (Hc & _ & _).
      cbn [L list_ascii_of_string app].
      rewrite strip_clean by (apply Forall_cons; split; [split; reflexivity|exact Hc]).
      cbn [startswith skipn]. eval_closed. rewrite startswith_nil, drop_0.
      rewrite magnitude_roundtrip by lia. cbn [option_map]. f_equal. lia. }
    rewrite E. destruct (Z.eqb_spec n 0); [lia|]. destruct f; reflexivity.
  - destruct f, plus; vm_compute; reflexivity.
  - assert (E : parse_numeric (render f plus n) = Some n).
    { unfold parse_numeric, parse_with_sign, render.
      destruct (Z.ltb_spec n 0); [lia|].
      destruct (magnitude_clean f n Hpos) as (Hc & Hp & Hm).
      destruct plus; cbn [L list_ascii_of_string app].
      - rewrite strip_clean by (apply Forall_cons; split; [split; reflexivity|exact Hc]).
        cbn [startswith skipn]. eval_closed. rewrite startswith_nil, drop_0.
        apply magnitude_roundtrip, Hpos.
      - rewrite (strip_clean _ Hc), Hp, Hm. apply magnitude_roundtrip, Hpos. }
    rewrite E. destruct (Z.eqb_spec n 0); [lia|]. destruct f; reflexivity.
Qed.

End NumericRoundTrip.

Module SelectorProperties.
Import Basics SelectorBasics Rx Loader Encoder SelectorSpec SelectorPartsDefs Samples.

(** *** The range selector *)

(** X2. The range selector returns a row of the list whose immediates fit,
    with the least penalty for generic slots among the fitting rows and,
    at equal penalty, the smallest opcode (the largest when an operand has
    no numeric value). *)
Theorem range_selector_minimal
        (vs : list InstructionDefinition) (texts : list str) (best : InstructionDefinition) :
  find_best_variant_by_operand_range vs texts = Returns (Some best) ->
  best ∈ vs
  /\ can_fit texts best = Returns true
  /\ forall w, w ∈ vs -> can_fit texts w = Returns true ->
       non_specific_matches texts best < non_specific_matches texts w
       \/ (non_specific_matches texts best = non_specific_matches texts w
           /\ if has_labels texts
              then opcode_size w <= opcode_size best
              else opcode_size best <= opcode_size w).
Proof.
  intros H. apply find_best_returns in H as [H _]. symmetry in H.
  set (le := fun a b => lex_le (selector_key texts a) (selector_key texts b)) in *.
  assert (Hin : best ∈ filter (fun v => fits texts v) vs)
    by (apply (hd_sort_by_elem_of le), H).
  apply elem_of_filter_bool in Hin as [Hfit Hin].
  split; [exact Hin|]. split; [apply fits_true, Hfit|].
  intros w Hw Hwfit.
  rewrite (hd_sort_by_first_minimal le) in H.
  - apply find_some in H as [_ Hmin]. rewrite forallb_forall in Hmin.
    assert (Hle : le best w = true).
    { apply Hmin, list_elem_of_In, elem_of_filter_bool.
      split; [apply fits_true, Hwfit|exact Hw]. }
    unfold le in Hle. apply lex_le_spec in Hle. unfold selector_key in Hle.
    cbn [fst snd] in Hle. destruct (has_labels texts); lia.
  - intros a b. apply lex_le_total.
  - intros a b c. apply lex_le_trans.
Qed.


(** *** The stages of [find_instruction] *)

(** X3. Whatever [find_instruction] returns is a row of the table of the
    mnemonic (looked up in upper case) and has the operand count that was
    asked for. *)
Theorem find_instruction_returns_row_of_mnemonic
        (ld : InstructionSetLoader) (mnemonic : str) (n_operands : Z)
        (operands : option (list ParsedOperand)) (v : InstructionDefinition) :
  find_instruction ld mnemonic n_operands operands = Returns (Some v) ->
  instructions ld !! upper mnemonic ≠ None
  /\ v ∈ default [] (instructions ld !! upper mnemonic)
  /\ operand_count v = n_operands.
Proof.
  rewrite find_instruction_parts. intros H.
  assert (Hbc : v ∈ by_count ld mnemonic n_operands).
  { destruct (loop_shortcut ld mnemonic n_operands (default [] operands)) as [w|] eqn:El.
    - injection H as <-. apply (loop_shortcut_by_count _ _ _ _ _ El).
    - apply select_elem_of in H. apply candidates_by_count in H. apply H. }
  unfold by_count, get_instruction_variants in Hbc.
  apply elem_of_filter_bool in Hbc as [Hc Hin].
  split; [|split; [exact Hin|apply Z.eqb_eq, Hc]].
  intros E. rewrite E in Hin. inversion Hin.
Qed.



(** The [J] rows of the sample table with a numeric displacement: the
    16-bit row is returned. *)
Lemma range_selector_minimal_witness :
  j_16 ∈ [j_16; j_32]
  /\ can_fit [L "4"] j_16 = Returns true
  /\ forall w, w ∈ [j_16; j_32] -> can_fit [L "4"] w = Returns true ->
       non_specific_matches [L "4"] j_16 < non_specific_matches [L "4"] w
       \/ (non_specific_matches [L "4"] j_16 = non_specific_matches [L "4"] w
           /\ if has_labels [L "4"]
              then opcode_size w <= opcode_size j_16
              else opcode_size j_16 <= opcode_size w).
Proof.
  apply (range_selector_minimal [j_16; j_32] [L "4"] j_16).
  vm_compute. reflexivity.
Defined.

(** [MOV d4, 1] on the sample table. *)
Lemma find_instruction_returns_row_of_mnemonic_witness :
  instructions sample_loader !! upper (L "mov") ≠ None
  /\ mov_const16 ∈ default [] (instructions sample_loader !! upper (L "mov"))
  /\ operand_count mov_const16 = 2.
Proof.
  apply (find_instruction_returns_row_of_mnemonic sample_loader (L "mov") 2
           (Some [operand "d4"; operand "1"]) mov_const16).
  vm_compute. reflexivity.
Defined.


(** *** The two readings of a fixed-register slot *)

Lemma DAEPC_not_C x : in_class "DAEPC" x = true -> x <> "C"%char -> is_DAEP x = true.
Proof.
  unfold is_DAEP, in_class. cbn [L list_ascii_of_string ch_in existsb].
  intros H Hx. rewrite !orb_false_r in *.
  repeat (apply orb_prop in H as [H|H]; [rewrite H; rewrite ?orb_true_r; reflexivity|]).
  apply Ascii.eqb_eq in H. congruence.
Qed.

Lemma digits1_to_upper s ds r :
  digits1 s = Some (ds, r) -> digits1 (upper s) = Some (ds, upper r).
Proof.
  unfold digits1. rewrite SelectorFacts.span_digit_upper.
  destruct (span is_digit s) as [a b]. cbn [fst snd].
  destruct (is_nil a); [discriminate|]. intros [= <- <-]. reflexivity.
Qed.

(** X5. The type filter of [find_instruction] reads a fixed-register slot
    with an upper-cased pattern and the letters D, A, E, P; the penalty of
    the range selector reads it case-insensitively with the letters D, A,
    E, P, C.  The two readings give the same register, except that only
    the second knows the letter C. *)
Theorem fixed_register_readings_agree (p : str) (c : ascii) (n : Z) :
  spec_reg_match (upper p) = Some (c, n)
  <-> is_specific_register_syntax p = SynSpecific c n /\ c <> "C"%char.
Proof.
  split.
  - intros H. split; [apply SelectorFacts.spec_reg_match_is_specific, H|].
    unfold spec_reg_match in H. apply bind_Some in H as ([c1 s1] & Hc & H).
    apply SelectorFacts.cls_some in Hc as [_ Hc].
    apply bind_Some in H as (s2 & _ & H). apply bind_Some in H as ([ds s3] & _ & H).
    apply bind_Some in H as (s4 & _ & H). injection H as <- _.
    intros ->. discriminate Hc.
  - intros [H Hc]. unfold is_specific_register_syntax in H.
    destruct (reg_form2 p) as [[|t m|]|] eqn:E;
      try (destruct (variable_reg_match p); discriminate H).
    injection H as -> ->. unfold reg_form2 in E.
    apply bind_Some in E as ([c0 s1] & Hcls & E).
    apply bind_Some in E as (s2 & Hl & E).
    apply bind_Some in E as ([ds s3] & Hd & E).
    apply bind_Some in E as (s4 & Hl2 & E).
    injection E as <- <-.
    apply SelectorFacts.cls_some in Hcls as [-> Hcls].
    apply SelectorFacts.lit1_some in Hl as ->.
    apply SelectorFacts.lit1_some in Hl2 as ->.
    apply digits1_to_upper in Hd.
    unfold spec_reg_match, upper. cbn [map cls].
    rewrite (DAEPC_not_C _ Hcls Hc). cbn [mbind option_bind].
    change (upper_ch "[") with "["%char. change (L "[") with ["["%char].
    rewrite SelectorFacts.lit1_cons. cbn [mbind option_bind].
    fold (upper s2). rewrite Hd. cbn [mbind option_bind].
    unfold upper. cbn [map]. change (upper_ch "]") with "]"%char.
    change (L "]") with ["]"%char]. rewrite SelectorFacts.lit1_cons. reflexivity.
Qed.

End SelectorProperties.

Module SplitComplete.
Import Loader Encoder SplitSpec Samples.

Lemma shl1_nonneg n : 0 <= n -> shl1 n = Some (2 ^ n).
Proof.
  intros H. unfold shl1. destruct (Z.ltb_spec n 0); [lia|].
  rewrite Z.shiftl_1_l. reflexivity.
Qed.

Lemma mask_of_nonneg n : 0 <= n -> mask_of n = Some (2 ^ n - 1).
Proof. intros H. unfold mask_of. rewrite shl1_nonneg by exact H. reflexivity. Qed.

Lemma or_field_nonneg b v pos len :
  0 <= pos -> 0 <= len -> or_field b v pos len = Some (Z.lor b (field_bits pos len v)).
Proof.
  intros Hp Hl. unfold or_field. rewrite mask_of_nonneg by exact Hl. cbn [mbind option_bind].
  unfold shl. destruct (Z.ltb_spec pos 0); [lia|]. reflexivity.
Qed.

Lemma window_value_nonneg v w :
  0 <= fst w - snd w + 1 -> window_value v w = Some (extract_window v w).
Proof.
  intros H. unfold window_value. rewrite mask_of_nonneg by exact H. reflexivity.
Qed.

Lemma effective_width_nonneg ranges :
  Forall (fun w : Z * Z => 0 <= fst w - snd w + 1) ranges -> 0 <= effective_width ranges.
Proof.
  induction 1 as [|w r Hw _ IH]; unfold effective_width in *; cbn [fold_right]; lia.
Qed.

Section Row.
Variable d : InstructionDefinition.
Hypothesis fields_nonneg :
  forall k, 0 <= fst (get_operand_info d k) /\ 0 <= snd (get_operand_info d k).

Lemma encode_parts_complete v ranges num b :
  Forall (fun w : Z * Z => 0 <= fst w - snd w + 1) ranges ->
  encode_parts d v ranges num b
  = Some (fold_left Z.lor
            (map (fun sw : nat * (Z * Z) =>
                    let '(pos, len) := get_operand_info d (fst sw) in
                    field_bits pos len (extract_window v (snd sw)))
                 (combine (seq num (length ranges)) ranges))
            b).
Proof.
  intros H. revert num b. induction H as [|w r Hw _ IH]; intros num b; [reflexivity|].
  cbn [encode_parts length seq combine map fold_left fst snd].
  pose proof (fields_nonneg num) as [Hp Hl].
  destruct (get_operand_info d num) as [pos len]. cbn [fst snd] in Hp, Hl.
  rewrite window_value_nonneg by exact Hw. cbn [mbind option_bind].
  rewrite or_field_nonneg by assumption. cbn [mbind option_bind]. apply IH.
Qed.

Variables (current_address : option Z) (labels : option (gmap str Z)).
Variables (s : nat) (ranges : list (Z * Z)).
Hypothesis windows_nonneg : Forall (fun w : Z * Z => 0 <= fst w - snd w + 1) ranges.

Lemma encode_split_loop_complete ops values j b :
  map (operand_value_of current_address labels) ops = map Some values ->
  (forall v, (j <= s)%nat -> nth_error values (s - j) = Some v ->
     split_value d s v <= 2 ^ effective_width ranges - 1 \/ 2 ^ 32 <= split_value d s v) ->
  (forall i v, (j + i)%nat <> s -> nth_error values i = Some v ->
     0 < snd (get_operand_info d (slot_of s (length ranges) (j + i))) ->
     v <= 2 ^ snd (get_operand_info d (slot_of s (length ranges) (j + i))) - 1) ->
  encode_split_loop current_address labels d s ranges ops j
                    (slot_of s (length ranges) j) b
  = Some (split_word_from d s ranges j values b).
Proof.
  revert values j b. induction ops as [|op rest IH]; intros values j b Hv Hs Ho.
  - destruct values; [reflexivity|discriminate].
  - destruct values as [|v values]; [discriminate|].
    cbn [map] in Hv. injection Hv as Hv0 Hv.
    cbn [encode_split_loop]. rewrite Hv0. cbn [mbind option_bind].
    destruct (Nat.eqb_spec j s) as [->|Hne].
    + change (match nth_error (extract_operand_patterns (syntax d)) s with
              | Some p => if contains p _ then v / 2 else v
              | None => v
              end) with (split_value d s v).
      rewrite SplitFacts.total_window_bits_sum.
      rewrite shl1_nonneg by (apply effective_width_nonneg, windows_nonneg).
      cbn [mbind option_bind].
      assert (Hchk : (2 ^ effective_width ranges - 1 <? split_value d s v)
                     && (split_value d s v <? 4294967296) = false).
      { destruct (Hs v (Nat.le_refl _)) as [H|H].
        - rewrite Nat.sub_diag. reflexivity.
        - apply andb_false_iff. left. apply Z.ltb_ge. exact H.
        - apply andb_false_iff. right. apply Z.ltb_ge.
          change 4294967296 with (2 ^ 32). exact H. }
      rewrite Hchk. rewrite encode_parts_complete by exact windows_nonneg.
      cbn [mbind option_bind].
      assert (Hslot : slot_of s (length ranges) s = S s).
      { unfold slot_of. rewrite Nat.leb_refl. reflexivity. }
      assert (Hnext : (slot_of s (length ranges) s + length ranges)%nat
                      = slot_of s (length ranges) (S s)).
      { unfold slot_of. rewrite Nat.leb_refl.
        destruct (Nat.leb_spec (S s) s); [lia|]. reflexivity. }
      rewrite Hnext, (IH values (S s)); [| exact Hv | intros ? ?; lia |].
      * f_equal. unfold split_word_from. cbn [length seq combine flat_map contribution].
        rewrite Nat.eqb_refl, fold_left_app, Hslot. reflexivity.
      * intros i v0 Hi Hn. replace (S s + i)%nat with (s + S i)%nat by lia.
        apply Ho; [lia|exact Hn].
    + pose proof (fields_nonneg (slot_of s (length ranges) j)) as [Hp Hl].
      pose proof (Ho O v) as Ho0. rewrite Nat.add_0_r in Ho0.
      specialize (Ho0 Hne eq_refl).
      destruct (get_operand_info d (slot_of s (length ranges) j)) as [pos len] eqn:Ei.
      cbn [fst snd] in Hp, Hl, Ho0.
      assert (Hnext : S (slot_of s (length ranges) j) = slot_of s (length ranges) (S j)).
      { unfold slot_of. destruct (Nat.leb_spec j s), (Nat.leb_spec (S j) s); lia. }
      assert (Hrest : forall b',
                 encode_split_loop current_address labels d s ranges rest (S j)
                                   (slot_of s (length ranges) (S j)) b'
                 = Some (split_word_from d s ranges (S j) values b')).
      { intros b'. apply IH; [exact Hv| |].
        - intros v0 Hle. replace (s - j)%nat with (S (s - S j)) in Hs by lia.
          apply (Hs v0). lia.
        - intros i v0 Hi Hn. replace (S j + i)%nat with (j + S i)%nat in * by lia.
          apply Ho; [exact Hi|exact Hn]. }
      rewrite Hnext.
      unfold split_word_from. cbn [length seq combine flat_map contribution].
      destruct (Nat.eqb_spec j s); [contradiction|]. rewrite Ei.
      destruct (Z.ltb_spec 0 len) as [Hpos|Hzero].
      * rewrite mask_of_nonneg by lia. cbn [mbind option_bind].
        destruct (Z.ltb_spec (2 ^ len - 1) v); [specialize (Ho0 Hpos); lia|].
        rewrite or_field_nonneg by assumption. cbn [mbind option_bind].
        rewrite Hrest. reflexivity.
      * cbn [mbind option_bind]. rewrite Hrest. reflexivity.
Qed.

End Row.

(** X6. The split encoder succeeds, with the word of the closed form, on a
    row whose bit-field positions and lengths are not negative and whose
    windows are not empty backwards, as soon as every operand has a value,
    the split operand passes the check against the summed width and every
    other operand is at most the largest value of its slot. *)
Theorem split_encoding_succeeds
        (current_address : option Z) (labels : option (gmap str Z))
        (p : ParsedInstruction) (d : InstructionDefinition) (base : Z)
        (s : nat) (ranges : list (Z * Z)) (values : list Z) :
  parse_split_operand_syntax (syntax d) = (S s, ranges) ->
  ranges <> [] ->
  (forall k, 0 <= fst (get_operand_info d k) /\ 0 <= snd (get_operand_info d k)) ->
  Forall (fun w : Z * Z => 0 <= fst w - snd w + 1) ranges ->
  map (operand_value_of current_address labels) (operands p) = map Some values ->
  (forall v, nth_error values s = Some v ->
     split_value d s v <= 2 ^ effective_width ranges - 1 \/ 2 ^ 32 <= split_value d s v) ->
  (forall j v, j <> s -> nth_error values j = Some v ->
     0 < snd (get_operand_info d (slot_of s (length ranges) j)) ->
     v <= 2 ^ snd (get_operand_info d (slot_of s (length ranges) j)) - 1) ->
  encode_split_operand_instruction current_address labels p d base
  = Some (split_word d s ranges values base).
Proof.
  intros Hsyn Hne Hf Hw Hv Hs Ho. unfold encode_split_operand_instruction.
  rewrite Hsyn. destruct ranges as [|r0 rs]; [contradiction|].
  change 1%nat with (slot_of s (length (r0 :: rs)) 0).
  apply encode_split_loop_complete; try assumption.
  intros v _. rewrite Nat.sub_0_r. apply Hs.
Qed.

(** [ST.W [a12]176, d15] on the split row of the sample table. *)
Lemma split_encoding_succeeds_witness :
  encode_split_operand_instruction None None stw_far stw_32 1677721737
  = Some (split_word stw_32 1 [(9, 6); (5, 0)] [12; 176; 15] 1677721737).
Proof.
  apply (split_encoding_succeeds None None stw_far stw_32 1677721737 1
                                 [(9, 6); (5, 0)] [12; 176; 15]).
  - vm_compute. reflexivity.
  - discriminate.
  - intros k. do 6 (destruct k as [|k]; [vm_compute; split; discriminate|]).
    vm_compute. split; discriminate.
  - repeat constructor; vm_compute; discriminate.
  - vm_compute. reflexivity.
  - intros v Hn. cbn in Hn. injection Hn as <-. left. vm_compute. discriminate.
  - intros j v Hj Hn.
    destruct j as [|[|[|j]]]; cbn in Hn.
    + injection Hn as <-. vm_compute. intros _. discriminate.
    + contradiction.
    + injection Hn as <-. vm_compute. intros _. discriminate.
    + destruct j; discriminate Hn.
Defined.

End SplitComplete.

Module ImageFacts.
Import Linker DataDirective OutputSpec Samples.

Lemma land_255_mod x : Z.land x 255 = x mod 256.
Proof. change 255 with (Z.ones 8). rewrite Z.land_ones by lia. reflexivity. Qed.

(** X7. The four bytes stored for an opcode are its 32 low bits: least
    significant byte at the lowest address in little-endian mode, at the
    highest in big-endian mode. *)
Theorem write_opcode_stores_low_32_bits
        (little_endian : bool) (m : gmap Z Z) (address opcode : Z) :
  let m' := write_opcode little_endian m address opcode in
  let byte k := m' !!! (address + k) in
  (forall k, 0 <= k <= 3 -> m' !! (address + k) = Some (byte k) /\ 0 <= byte k < 256)
  /\ (if little_endian
      then byte 0 + 256 * byte 1 + 65536 * byte 2 + 16777216 * byte 3
      else byte 3 + 256 * byte 2 + 65536 * byte 1 + 16777216 * byte 0)
     = opcode mod 2 ^ 32.
Proof.
  cbv zeta.
  assert (B : forall k, 0 <= k <= 3 ->
                write_opcode little_endian m address opcode !! (address + k)
                = Some ((opcode / 256 ^ (if little_endian then k else 3 - k)) mod 256)).
  { intros k Hk. unfold write_opcode.
    assert (C : k = 0 \/ k = 1 \/ k = 2 \/ k = 3) by lia.
    replace (address + 0) with address by lia.
    destruct little_endian; destruct C as [ -> | [ -> | [ -> | -> ] ] ];
      rewrite ?Z.add_0_r;
      repeat first [rewrite lookup_insert_eq | rewrite lookup_insert_ne by lia];
      f_equal; rewrite land_255_mod, ?Z.shiftr_div_pow2 by lia;
      try reflexivity; rewrite Z.div_1_r; reflexivity. }
  assert (T : forall k, 0 <= k <= 3 ->
                write_opcode little_endian m address opcode !!! (address + k)
                = (opcode / 256 ^ (if little_endian then k else 3 - k)) mod 256).
  { intros k Hk. rewrite lookup_total_alt, (B k Hk). reflexivity. }
  split.
  - intros k Hk. rewrite (T k Hk). split; [apply B, Hk|].
    apply Z.mod_pos_bound. lia.
  - rewrite !T by lia. destruct little_endian; cbn [Z.sub Z.add Z.opp Z.pos_sub];
      change (256 ^ 0) with 1; change (256 ^ 1) with 256;
      change (256 ^ 2) with 65536; change (256 ^ 3) with 16777216;
      change (2 ^ 32) with 4294967296; rewrite Z.div_1_r;
      pose proof (Z.div_mod opcode 256 ltac:(lia));
      pose proof (Z.div_mod opcode 65536 ltac:(lia));
      pose proof (Z.div_mod opcode 16777216 ltac:(lia));
      pose proof (Z.div_mod opcode 4294967296 ltac:(lia));
      Z.div_mod_to_equations; lia.
Qed.

(** *** Frame and domain of the image *)

Lemma write_bytes_lookup (m : gmap Z Z) a bs k :
  write_bytes m a bs !! k
  = if decide (a <= k < a + Z.of_nat (length bs))
    then nth_error bs (Z.to_nat (k - a)) else m !! k.
Proof.
  revert m a. induction bs as [|b bs IH]; intros m a.
  - cbn [write_bytes length]. destruct (decide _); [lia|reflexivity].
  - cbn [write_bytes]. rewrite IH. cbn [length].
    destruct (decide (a + 1 <= k < a + 1 + Z.of_nat (length bs))) as [H|H].
    + destruct (decide (a <= k < a + Z.of_nat (S (length bs)))); [|lia].
      replace (Z.to_nat (k - a)) with (S (Z.to_nat (k - (a + 1)))) by lia. reflexivity.
    + destruct (decide (a <= k < a + Z.of_nat (S (length bs)))) as [H'|H'].
      * assert (k = a) by lia. subst k. rewrite lookup_insert_eq.
        replace (a - a) with 0 by lia. reflexivity.
      * rewrite lookup_insert_ne by lia. reflexivity.
Qed.

Lemma emit_instruction_domain le dh m i m' k :
  emit_instruction le dh m i = Some m' ->
  (is_Some (m' !! k) <-> is_Some (m !! k) \/ in_footprint dh i k)
  /\ (~ in_footprint dh i k -> m' !! k = m !! k).
Proof.
  unfold emit_instruction, in_footprint, footprint.
  assert (Hop : (is_Some (write_opcode le m (li_address i) (li_opcode i) !! k)
                 <-> is_Some (m !! k) \/ li_address i <= k < li_address i + 4)
                /\ (~ li_address i <= k < li_address i + 4 ->
                    write_opcode le m (li_address i) (li_opcode i) !! k = m !! k)).
  { destruct (decide (li_address i <= k <= li_address i + 3)) as [H|H].
    - destruct (OutputFacts.write_opcode_inside le m (li_address i) (li_opcode i) k H)
        as (b & -> & _).
      split; [|lia]. split; [right; lia|eauto].
    - rewrite (OutputFacts.write_opcode_outside le m _ _ _ H).
      split; [|reflexivity]. split; [auto|]. intros [?|?]; [assumption|lia]. }
  destruct (classified_data_directive (li_source_text i)).
  - destruct (dh i) as [bs| |]; [| |discriminate]; intros [= <-]; cbn [fst snd].
    + rewrite write_bytes_lookup.
      destruct (decide (li_address i <= k < li_address i + Z.of_nat (length bs))) as [H|H].
      * split; [|intros; contradiction]. split; [right; exact H|]. intros _.
        apply not_eq_None_Some, nth_error_Some. lia.
      * split; [|reflexivity]. split; [auto|]. intros [?|?]; [assumption|contradiction].
    + exact Hop.
  - intros [= <-]. cbn [fst snd]. exact Hop.
Qed.

(** X8. After the image was built from a list of records, an address holds
    a byte exactly when it held one before or lies in the footprint of a
    record; an address outside every footprint keeps its content. *)
Theorem memory_image_domain_and_frame
        (little_endian : bool) (data_handler : linked_instruction -> data_outcome)
        (m m' : gmap Z Z) (l : list linked_instruction) (k : Z) :
  build_memory_image little_endian data_handler m l = Some m' ->
  (is_Some (m' !! k)
   <-> is_Some (m !! k) \/ exists i, i ∈ l /\ in_footprint data_handler i k)
  /\ ((forall i, i ∈ l -> ~ in_footprint data_handler i k) -> m' !! k = m !! k).
Proof.
  revert m. induction l as [|i l IH]; intros m H.
  - injection H as <-. split; [|reflexivity].
    split; [auto|]. intros [?|(i & Hi & _)]; [assumption|inversion Hi].
  - cbn [build_memory_image] in H.
    destruct (emit_instruction little_endian data_handler m i) as [m1|] eqn:E;
      [|discriminate].
    destruct (emit_instruction_domain _ _ _ _ _ k E) as [D1 F1].
    destruct (IH m1 H) as [D2 F2]. split.
    + rewrite D2, D1. split.
      * intros [[?|?]|(j & Hj & ?)]; [left; assumption| |].
        -- right. exists i. split; [apply list_elem_of_here|assumption].
        -- right. exists j. split; [apply list_elem_of_further, Hj|assumption].
      * intros [?|(j & Hj & ?)]; [left; left; assumption|].
        apply elem_of_cons in Hj as [->|Hj]; [left; right; assumption|].
        right. exists j. split; assumption.
    + intros Hout. rewrite F2, F1; [reflexivity| |].
      * apply Hout, list_elem_of_here.
      * intros j Hj. apply Hout, list_elem_of_further, Hj.
Qed.

(** The image of the lone record [MOV D4, #1], at the third of its four
    addresses. *)
Lemma memory_image_domain_and_frame_witness :
  (is_Some (sample_image !! 2147483650)
   <-> is_Some ((∅ : gmap Z Z) !! 2147483650)
       \/ exists i, i ∈ [mov_d4_record]
                    /\ in_footprint (fun _ => DataException) i 2147483650)
  /\ ((forall i, i ∈ [mov_d4_record] ->
                 ~ in_footprint (fun _ => DataException) i 2147483650) ->
      sample_image !! 2147483650 = (∅ : gmap Z Z) !! 2147483650).
Proof.
  apply (memory_image_domain_and_frame true (fun _ => DataException) ∅ sample_image
                                       [mov_d4_record] 2147483650).
  reflexivity.
Defined.

(** *** The binary file *)

Lemma sorted_keys_spec (m : gmap Z Z) :
  StronglySorted Z.le (sorted_keys m)
  /\ forall k, k ∈ sorted_keys m <-> is_Some (m !! k).
Proof.
  unfold sorted_keys. split.
  - apply StronglySorted_merge_sort; [intros x y z; apply Z.le_trans|apply Z.le_total].
  - intros k. rewrite merge_sort_Permutation, elem_of_elements, elem_of_dom. reflexivity.
Qed.

Lemma last_cons_default (z : Z) (l : list Z) (d d' : Z) :
  List.last (z :: l) d = List.last (z :: l) d'.
Proof.
  revert z. induction l as [|w l IH]; intros z; [reflexivity|].
  change (List.last (z :: w :: l) d) with (List.last (w :: l) d).
  change (List.last (z :: w :: l) d') with (List.last (w :: l) d'). apply IH.
Qed.

Lemma sorted_bounds (x : Z) (l : list Z) :
  StronglySorted Z.le (x :: l) ->
  List.last (x :: l) x ∈ x :: l
  /\ forall y, y ∈ x :: l -> x <= y <= List.last (x :: l) x.
Proof.
  revert x. induction l as [|z l IH]; intros x H.
  - split; [apply list_elem_of_here|]. intros y Hy.
    apply list_elem_of_singleton in Hy. subst. cbn. lia.
  - apply StronglySorted_inv in H as [Hs Hx].
    destruct (IH z Hs) as [Hin Hb].
    assert (Hlast : List.last (x :: z :: l) x = List.last (z :: l) z)
      by apply (last_cons_default z l x z).
    rewrite Hlast. split; [apply list_elem_of_further, Hin|].
    intros y Hy. apply elem_of_cons in Hy as [->|Hy].
    + split; [lia|]. rewrite Forall_forall in Hx.
      apply (Hx _ Hin).
    + specialize (Hb y Hy). rewrite Forall_forall in Hx.
      pose proof (Hx z (list_elem_of_here _ _)). lia.
Qed.

(** X9. The binary file spans the addresses from the lowest to the highest
    one of the image: its length is their distance plus one, and its byte
    at each offset is the byte of the image there, or zero where the image
    holds none.  An empty image gives no file. *)
Theorem binary_output_spans_the_image (m : gmap Z Z) (bs : list Z) :
  binary_output m = Some bs ->
  exists lo hi,
    is_Some (m !! lo) /\ is_Some (m !! hi)
    /\ (forall k, is_Some (m !! k) -> lo <= k <= hi)
    /\ Z.of_nat (length bs) = hi - lo + 1
    /\ forall j, (j < length bs)%nat ->
         nth_error bs j = Some (default 0 (m !! (lo + Z.of_nat j))).
Proof.
  unfold binary_output. destruct (sorted_keys_spec m) as [Hs Hk].
  destruct (sorted_keys m) as [|lo ks] eqn:E; [discriminate|].
  intros [= <-]. destruct (sorted_bounds lo ks Hs) as [Hin Hb].
  exists lo, (List.last (lo :: ks) lo).
  split; [apply Hk, list_elem_of_here|]. split; [apply Hk, Hin|].
  split; [intros k Hm; apply Hb, Hk, Hm|].
  assert (Hle : lo <= List.last (lo :: ks) lo) by (apply (Hb lo), list_elem_of_here).
  assert (Hl : List.last ks lo = List.last (lo :: ks) lo) by (destruct ks; reflexivity).
  rewrite length_map, length_seq, Hl. split; [lia|].
  intros j Hj. rewrite nth_error_map, nth_error_seq.
  destruct (Nat.ltb_spec j (Z.to_nat (List.last (lo :: ks) lo - lo + 1))); [|lia].
  reflexivity.
Qed.

(** The image of [MOV D4, #1] gives a file. *)
Lemma binary_output_spans_the_image_witness :
  exists lo hi,
    is_Some (sample_image !! lo) /\ is_Some (sample_image !! hi)
    /\ (forall k, is_Some (sample_image !! k) -> lo <= k <= hi)
    /\ Z.of_nat (length [130; 20; 0; 0]) = hi - lo + 1
    /\ forall j, (j < length [130; 20; 0; 0])%nat ->
         nth_error [130; 20; 0; 0] j = Some (default 0 (sample_image !! (lo + Z.of_nat j))).
Proof.
  apply (binary_output_spans_the_image sample_image [130; 20; 0; 0]).
  vm_compute. reflexivity.
Defined.

(** *** Integers of a data directive *)

Lemma le_bytes_spec n x :
  length (le_bytes n x) = n
  /\ Forall (fun b => 0 <= b < 256) (le_bytes n x)
  /\ le_value (le_bytes n x) = x mod 256 ^ Z.of_nat n.
Proof.
  revert x. induction n as [|n IH]; intros x.
  - cbn. repeat split; [constructor|]. rewrite Z.mod_1_r. reflexivity.
  - destruct (IH (x / 256)) as (Hl & Hb & Hv). cbn [le_bytes length].
    split; [rewrite Hl; reflexivity|]. split.
    + constructor; [apply Z.mod_pos_bound; lia|exact Hb].
    + unfold le_value in *. cbn [fold_right]. rewrite Hv.
      replace (Z.of_nat (S n)) with (Z.succ (Z.of_nat n)) by lia.
      rewrite Z.pow_succ_r by lia.
      rewrite (Z.rem_mul_r x 256 (256 ^ Z.of_nat n)); [reflexivity|lia|].
      apply Z.pow_pos_nonneg; lia.
Qed.

(** X10. [int.to_bytes] as [encode_data] calls it: it fails exactly on a
    value below [-2^(8 size - 1)] or from [2^(8 size)] on; otherwise it
    gives [size] bytes whose little-endian value is the integer modulo
    [2^(8 size)], in reverse order for the big-endian handler. *)
Theorem int_to_bytes_spec (size : Z) (little : bool) (v : Z) :
  0 <= size ->
  (int_to_bytes size little v = None
   <-> v < - 2 ^ (8 * size - 1) \/ 2 ^ (8 * size) <= v)
  /\ forall bs, int_to_bytes size little v = Some bs ->
       length bs = Z.to_nat size
       /\ Forall (fun b => 0 <= b < 256) bs
       /\ le_value (if little then bs else rev bs) = v mod 2 ^ (8 * size).
Proof.
  intros Hsize. unfold int_to_bytes. cbv zeta.
  assert (Hpow : 0 < 2 ^ (8 * size)) by (apply Z.pow_pos_nonneg; lia).
  assert (Hhalf : 0 <= 2 ^ (8 * size - 1)) by (apply Z.pow_nonneg; lia).
  split.
  - destruct (Z.ltb_spec v 0).
    + destruct (Z.leb_spec (- 2 ^ (8 * size - 1)) v); split; try discriminate;
        try lia; auto.
    + destruct (Z.ltb_spec v (2 ^ (8 * size))); split; try discriminate; try lia; auto.
  - intros bs H.
    destruct (if v <? 0 then - 2 ^ (8 * size - 1) <=? v else v <? 2 ^ (8 * size));
      [|discriminate].
    injection H as <-.
    destruct (le_bytes_spec (Z.to_nat size) (v mod 2 ^ (8 * size))) as (Hl & Hb & Hv).
    assert (E : 256 ^ Z.of_nat (Z.to_nat size) = 2 ^ (8 * size)).
    { rewrite Z2Nat.id by lia. change 256 with (2 ^ 8).
      rewrite <- Z.pow_mul_r by lia. reflexivity. }
    rewrite E, Z.mod_mod in Hv by lia.
    destruct little.
    + repeat split; assumption.
    + rewrite length_rev, rev_involutive. repeat split; [assumption| |assumption].
      apply Forall_rev, Hb.
Qed.

(** [DW -2] in a little-endian handler. *)
Lemma int_to_bytes_spec_witness :
  (int_to_bytes 2 true (-2) = None <-> -2 < - 2 ^ (8 * 2 - 1) \/ 2 ^ (8 * 2) <= -2)
  /\ forall bs, int_to_bytes 2 true (-2) = Some bs ->
       length bs = Z.to_nat 2
       /\ Forall (fun b => 0 <= b < 256) bs
       /\ le_value (if true then bs else rev bs) = (-2) mod 2 ^ (8 * 2).
Proof. apply (int_to_bytes_spec 2 true (-2)). lia. Defined.

End ImageFacts.

Module PassFacts.
Import NumericParser Assembler Pipeline PassSpec Samples.

(** X11. [.ORG] either moves the origin to an address of 32 bits and changes
    nothing else, or logs one error and leaves the origin where it was. *)
Theorem org_directive_sets_origin_or_fails (e : engine) (line : str) (line_num : nat) :
  let r := handle_org_directive e line line_num in
  if snd r
  then 0 <= current_address (fst r) <= 4294967295
       /\ fst r = set_current_address e (current_address (fst r))
  else current_address (fst r) = current_address e
       /\ exists code,
            fst r = log_error e code line_num
            /\ (code = "INVALID_ORG" \/ code = "INVALID_ADDRESS"
                \/ code = "ADDRESS_OUT_OF_RANGE")%string.
Proof.
  cbv zeta. unfold handle_org_directive.
  destruct (split_ws (if ch_in ";" line then before_semicolon line else line))
    as [|w [|arg [|x l]]];
    try (cbn [fst snd]; split; [reflexivity|eexists; split; [reflexivity|auto]]).
  destruct (if startswith arg (L "$") then py_int 16 (skipn 1 arg)
            else if startswith arg (L "0x") then py_int 16 arg else py_int 10 arg)
    as [address|];
    [|cbn [fst snd]; split; [reflexivity|eexists; split; [reflexivity|auto]]].
  destruct (Z.ltb_spec address 0); cbn [orb];
    [cbn [fst snd]; split; [reflexivity|eexists; split; [reflexivity|auto]]|].
  destruct (Z.ltb_spec 4294967295 address); cbn [fst snd];
    [split; [reflexivity|eexists; split; [reflexivity|auto]]|].
  split; [cbn; lia|reflexivity].
Qed.

Lemma handle_org_directive_frame e line n :
  let e' := fst (handle_org_directive e line n) in
  labels e' = labels e /\ constants e' = constants e
  /\ source_listing e' = source_listing e /\ instructions e' = instructions e.
Proof.
  cbv zeta. unfold handle_org_directive.
  destruct (split_ws (if ch_in ";" line then before_semicolon line else line))
    as [|w [|arg [|x l]]]; try (cbn [fst]; repeat split; reflexivity).
  destruct (if startswith arg (L "$") then py_int 16 (skipn 1 arg)
            else if startswith arg (L "0x") then py_int 16 arg else py_int 10 arg)
    as [address|]; [|cbn [fst]; repeat split; reflexivity].
  destruct (address <? 0); cbn [orb]; [cbn [fst]; repeat split; reflexivity|].
  destruct (4294967295 <? address); cbn [fst]; repeat split; reflexivity.
Qed.

Ltac keeps1 :=
  cbn [engine_of]; split; [reflexivity|intros ? ? Hkeep; exact Hkeep].

Ltac keeps2 :=
  cbn [engine_of]; repeat split; exists []; rewrite app_nil_r; reflexivity.

Section Passes.
Variable F : Type.
Variable py_float : str -> option F.
Variable calculate_size : gmap str Z -> str -> Z -> option Z.
Variable calculate_instruction_size : str -> nat -> option Z.
Variable assemble_data_directive : gmap str Z -> str -> Z -> nat -> option Instruction.
Variable assemble_instruction : gmap str Label -> str -> Z -> nat -> option Instruction.

Lemma first_pass_keeps_refl e : first_pass_keeps e e.
Proof. split; auto. Qed.

Lemma first_pass_keeps_trans e1 e2 e3 :
  first_pass_keeps e1 e2 -> first_pass_keeps e2 e3 -> first_pass_keeps e1 e3.
Proof. intros [A1 B1] [A2 B2]. split; [congruence|auto]. Qed.

Lemma first_pass_statement_keeps e a ol stmt n :
  first_pass_keeps
    e (engine_of (first_pass_statement calculate_size calculate_instruction_size
                                       e a ol stmt n)).
Proof.
  unfold first_pass_statement.
  destruct (DataDirective.is_data_directive stmt).
  - destruct (calculate_size (constants e) stmt a); keeps1.
  - destruct (calculate_instruction_size stmt n); keeps1.
Qed.

Lemma first_pass_line_keeps e a n line :
  first_pass_keeps
    e (engine_of (first_pass_line F py_float calculate_size calculate_instruction_size
                                  e a n line)).
Proof.
  unfold first_pass_line. cbv zeta.
  destruct (is_nil (strip line) || startswith (strip line) (L ";")
            || startswith (strip line) (L "#")); [keeps1|].
  destruct (startswith (upper (strip line)) (L ".ORG")).
  { pose proof (handle_org_directive_frame
                  (add_listing e n (Some a) (strip line)) (strip line) n) as H.
    cbv zeta in H.
    destruct (handle_org_directive (add_listing e n (Some a) (strip line)) (strip line) n)
      as [e' ok].
    cbn [fst] in H. destruct H as (Hl & _ & _ & Hi).
    destruct ok; cbn [engine_of]; split; try (rewrite Hi; reflexivity);
      intros name l Hn; rewrite Hl; exact Hn. }
  destruct (matches_equ (upper (strip line))).
  { destruct (process_equ F py_float (add_listing e n None (strip line)) (strip line))
      as [[symbol v]|]; keeps1. }
  destruct (has_label (strip line)); [|apply first_pass_statement_keeps].
  destruct (split_colon (strip line)) as [label_part instruction_part].
  unfold validate_label_name.
  destruct (strip label_part) as [|c r] eqn:El; [keeps1|].
  destruct (valid_label_syntax (c :: r)); [|keeps1].
  cbn [negb].
  match goal with
  | |- context [match ?x with Some _ => Abort _ | None => _ end] =>
      destruct x as [old|] eqn:Eold
  end; [keeps1|].
  assert (Hadd : first_pass_keeps e (add_label e (MkLabel (c :: r) a n))).
  { split; [reflexivity|]. intros name l Hn. cbn [add_label labels lb_name].
    rewrite lookup_insert_ne; [exact Hn|]. intros <-. congruence. }
  destruct (negb (is_nil (strip instruction_part))
            && negb (startswith (strip instruction_part) (L ";"))).
  - eapply first_pass_keeps_trans; [exact Hadd|apply first_pass_statement_keeps].
  - eapply first_pass_keeps_trans; [exact Hadd|keeps1].
Qed.

Lemma first_pass_loop_keeps lines e a n :
  first_pass_keeps
    e (fst (first_pass_loop F py_float calculate_size calculate_instruction_size
                            e a n lines)).
Proof.
  revert e a n. induction lines as [|line rest IH]; intros e a n;
    [apply first_pass_keeps_refl|].
  cbn [first_pass_loop]. pose proof (first_pass_line_keeps e a n line) as H.
  destruct (first_pass_line F py_float calculate_size calculate_instruction_size e a n line)
    as [e' a'|e']; cbn [engine_of] in H.
  - eapply first_pass_keeps_trans; [exact H|apply IH].
  - exact H.
Qed.

Lemma second_pass_keeps_refl e : second_pass_keeps e e.
Proof. repeat split. exists []. rewrite app_nil_r. reflexivity. Qed.

Lemma second_pass_keeps_trans e1 e2 e3 :
  second_pass_keeps e1 e2 -> second_pass_keeps e2 e3 -> second_pass_keeps e1 e3.
Proof.
  intros (A1 & B1 & C1 & n1 & D1) (A2 & B2 & C2 & n2 & D2).
  repeat split; try congruence. exists (n1 ++ n2). rewrite D2, D1, app_assoc. reflexivity.
Qed.

Lemma second_pass_line_keeps e a n line :
  second_pass_keeps
    e (engine_of (second_pass_line assemble_data_directive assemble_instruction
                                   e a n line)).
Proof.
  unfold second_pass_line. cbv zeta.
  destruct (is_nil (strip line) || startswith (strip line) (L ";"));
    [keeps2|].
  destruct (startswith (upper (strip line)) (L ".ORG")).
  { pose proof (handle_org_directive_frame e (strip line) n) as H. cbv zeta in H.
    destruct (handle_org_directive e (strip line) n) as [e' ok]. cbn [fst] in H.
    destruct H as (Hl & Hc & Hs & Hi). cbn [engine_of].
    repeat split; try assumption. exists []. rewrite app_nil_r. exact Hi. }
  destruct (matches_equ (upper (strip line))); [keeps2|].
  match goal with
  | |- context [if ?skip then Continue e a else _] => destruct skip
  end; [keeps2|].
  match goal with
  | |- context [match ?x with Some _ => _ | None => Abort e end] => destruct x as [i|]
  end; [|keeps2].
  destruct (0 <? in_size i); [|keeps2].
  cbn [engine_of]. repeat split. exists [i]. reflexivity.
Qed.

Lemma second_pass_loop_keeps lines e a n :
  second_pass_keeps
    e (fst (second_pass_loop assemble_data_directive assemble_instruction e a n lines)).
Proof.
  revert e a n. induction lines as [|line rest IH]; intros e a n;
    [apply second_pass_keeps_refl|].
  cbn [second_pass_loop]. pose proof (second_pass_line_keeps e a n line) as H.
  destruct (second_pass_line assemble_data_directive assemble_instruction e a n line)
    as [e' a'|e']; cbn [engine_of] in H.
  - eapply second_pass_keeps_trans; [exact H|apply IH].
  - exact H.
Qed.

End Passes.

(** X12. The first pass, on any source and whether it succeeds or aborts,
    emits no instruction and keeps every label of the table at the
    address it had: a label is only ever added. *)
Theorem first_pass_never_changes_a_label
        (F : Type) (py_float : str -> option F)
        (calculate_size : gmap str Z -> str -> Z -> option Z)
        (calculate_instruction_size : str -> nat -> option Z)
        (e : engine) (source_lines : list str) :
  let e' := fst (first_pass F py_float calculate_size calculate_instruction_size
                            e source_lines) in
  instructions e' = instructions e
  /\ forall name l, labels e !! name = Some l -> labels e' !! name = Some l.
Proof. apply first_pass_loop_keeps. Qed.

(** X13. The second pass, on any source and whether it succeeds or aborts,
    leaves the label table, the constants and the listing as the first
    pass made them, and only appends to the emitted instructions. *)
Theorem second_pass_only_appends_code
        (assemble_data_directive : gmap str Z -> str -> Z -> nat -> option Instruction)
        (assemble_instruction : gmap str Label -> str -> Z -> nat -> option Instruction)
        (e : engine) (source_lines : list str) :
  let e' := fst (second_pass assemble_data_directive assemble_instruction
                             e source_lines) in
  labels e' = labels e /\ constants e' = constants e
  /\ source_listing e' = source_listing e
  /\ exists new, instructions e' = instructions e ++ new.
Proof. apply second_pass_loop_keeps. Qed.

(** *** The dot directives in the two passes *)

(** X14. The first pass counts one byte for every argument of [.BYTE] and two
    for every argument of [.WORD]; the second pass emits one byte for
    [.BYTE], whatever the number of arguments, and a record of size zero
    (hence nothing) for [.WORD]. *)
Theorem dot_directive_sizes_of_the_two_passes
        (line directive : str) (args : list str) :
  split_ws line = directive :: args ->
  (upper directive = L ".BYTE" ->
     calculate_directive_size line = Z.of_nat (length args)
     /\ forall address line_num i,
          assemble_directive line address line_num = Some i ->
          in_size i = 1
          /\ exists a v, hd_error args = Some a /\ parse_numeric_value a = Some v
                         /\ in_opcode i = Z.land v 255)
  /\ (upper directive = L ".WORD" ->
        calculate_directive_size line = Z.of_nat (length args) * 2
        /\ forall address line_num,
             assemble_directive line address line_num
             = Some (MkInstruction address 0 None 0 line_num line)).
Proof.
  intros Hs. unfold calculate_directive_size, assemble_directive. rewrite Hs. split.
  - intros ->. split; [reflexivity|]. intros address line_num i.
    change (str_eqb (L ".BYTE") (L ".BYTE")) with true. cbv iota.
    destruct args as [|a rest]; [discriminate|].
    destruct (parse_numeric_value a) as [v|] eqn:Ev; [|discriminate].
    intros [= <-]. split; [reflexivity|]. exists a, v. repeat split. exact Ev.
  - intros ->. split; reflexivity.
Qed.

(** [.BYTE 1 2 3]: three bytes in the first pass, one in the second. *)
Lemma dot_directive_sizes_of_the_two_passes_witness :
  (upper (L ".BYTE") = L ".BYTE" ->
     calculate_directive_size (L ".BYTE 1 2 3") = Z.of_nat (length [L "1"; L "2"; L "3"])
     /\ forall address line_num i,
          assemble_directive (L ".BYTE 1 2 3") address line_num = Some i ->
          in_size i = 1
          /\ exists a v, hd_error [L "1"; L "2"; L "3"] = Some a
                         /\ parse_numeric_value a = Some v
                         /\ in_opcode i = Z.land v 255)
  /\ (upper (L ".BYTE") = L ".WORD" ->
        calculate_directive_size (L ".BYTE 1 2 3")
        = Z.of_nat (length [L "1"; L "2"; L "3"]) * 2
        /\ forall address line_num,
             assemble_directive (L ".BYTE 1 2 3") address line_num
             = Some (MkInstruction address 0 None 0 line_num (L ".BYTE 1 2 3"))).
Proof.
  apply (dot_directive_sizes_of_the_two_passes
           (L ".BYTE 1 2 3") (L ".BYTE") [L "1"; L "2"; L "3"]).
  reflexivity.
Defined.

End PassFacts.

Module DataFacts.
Import Basics NumericParser DataDirective DataSizeSpec Samples.

(** *** Quoted strings *)

Lemma strip_between (a z : ascii) (m : str) :
  is_space a = false -> is_space z = false ->
  strip (a :: m ++ [z]) = a :: m ++ [z].
Proof.
  intros Ha Hz. unfold strip. cbn [lstrip]. rewrite Ha. unfold rstrip.
  assert (E : rev (a :: m ++ [z]) = z :: rev (a :: m)).
  { change (a :: m ++ [z]) with ((a :: m) ++ [z]). rewrite rev_app_distr. reflexivity. }
  rewrite E. cbn [lstrip]. rewrite Hz.
  change (rev (z :: rev (a :: m))) with (rev (rev (a :: m)) ++ [z]).
  rewrite rev_involutive. reflexivity.
Qed.

Lemma toggles_inside (c : ascii) :
  ch_eqb c dquote = false -> toggles true (Some dquote) c = false.
Proof.
  intros H. unfold toggles, is_quote. rewrite H. cbn [negb orb].
  apply andb_false_r.
Qed.

Lemma strip_comment_quoted (s t : str) :
  forallb (fun c => negb (ch_eqb c dquote)) s = true ->
  strip_comment true (Some dquote) (s ++ dquote :: t)
  = s ++ dquote :: strip_comment false (Some dquote) t.
Proof.
  induction s as [|c s IH]; intros H.
  - reflexivity.
  - cbn [forallb] in H. apply andb_true_iff in H as [Hc H].
    apply negb_true_iff in Hc. cbn [app strip_comment].
    rewrite (toggles_inside c Hc). cbn [negb]. rewrite andb_false_r.
    rewrite (IH H). reflexivity.
Qed.

Lemma split_values_quoted (s : str) (current : str) :
  forallb (fun c => negb (ch_eqb c dquote)) s = true ->
  split_values true (Some dquote) current (s ++ [dquote])
  = flush (dquote :: rev s ++ current).
Proof.
  revert current. induction s as [|c s IH]; intros current H.
  - reflexivity.
  - cbn [forallb] in H. apply andb_true_iff in H as [Hc H].
    apply negb_true_iff in Hc. cbn [app split_values].
    rewrite (toggles_inside c Hc). cbn [negb]. rewrite andb_false_r.
    rewrite (IH _ H). cbn [rev]. rewrite <- app_assoc. reflexivity.
Qed.

(** X15. A double-quoted text without a double quote inside is one value of a
    data list, the bytes of the text: commas, semicolons, single quotes
    and blanks between the quotes are data. *)
Theorem quoted_string_is_one_value
        (F : Type) (py_float : str -> option F) (constants labels : gmap str Z)
        (s : str) :
  forallb (fun c => negb (ch_eqb c dquote)) s = true ->
  parse_data_list F py_float constants labels (dquote :: s ++ [dquote]) = [VBytes s].
Proof.
  intros H. unfold parse_data_list.
  assert (Hc : strip_comment false None (dquote :: s ++ [dquote]) = dquote :: s ++ [dquote]).
  { cbn [strip_comment]. change (toggles false None dquote) with true. cbv iota.
    cbn [negb]. rewrite (strip_comment_quoted s [] H). reflexivity. }
  assert (Hs : split_values false None [] (dquote :: s ++ [dquote])
               = [dquote :: s ++ [dquote]]).
  { cbn [split_values]. change (toggles false None dquote) with true. cbv iota.
    cbn [negb]. rewrite (split_values_quoted s [dquote] H).
    unfold flush. f_equal.
    assert (E : rev (dquote :: rev s ++ [dquote]) = dquote :: s ++ [dquote]).
    { cbn [rev]. rewrite rev_app_distr, rev_involutive. reflexivity. }
    rewrite E. apply strip_between; reflexivity. }
  assert (Hv : parse_value F py_float constants labels (dquote :: s ++ [dquote])
               = VBytes s).
  { unfold parse_value. rewrite strip_between by reflexivity.
    assert (Hq : quoted_with dquote (dquote :: s ++ [dquote]) = true).
    { unfold quoted_with, endswith.
      change (dquote :: s ++ [dquote]) with ((dquote :: s) ++ [dquote]).
      rewrite rev_app_distr. cbn [rev app startswith].
      rewrite !NumericRoundTrip.startswith_nil. reflexivity. }
    rewrite Hq. unfold inner, drop_last. cbn [skipn]. rewrite ?drop_0, removelast_last.
    reflexivity. }
  destruct (ch_in ";" (dquote :: s ++ [dquote])); rewrite ?Hc, Hs; cbn [map];
    rewrite Hv; reflexivity.
Qed.

(** The text [a, b; c] between double quotes. *)
Lemma quoted_string_is_one_value_witness :
  parse_data_list unit no_float known_constants ∅ (dquote :: L "a, b; c" ++ [dquote])
  = [VBytes (L "a, b; c")].
Proof.
  apply (quoted_string_is_one_value unit no_float known_constants ∅ (L "a, b; c")).
  reflexivity.
Defined.

(** *** The size of a data directive in the two passes *)

Lemma str_eqb_eq a b : str_eqb a b = true -> a = b.
Proof.
  revert b. induction a as [|x a IH]; intros [|y b] H; try discriminate; [reflexivity|].
  cbn [str_eqb] in H. apply andb_true_iff in H as [Hx H].
  apply Ascii.eqb_eq in Hx. subst. f_equal. apply IH, H.
Qed.

Lemma upper_idempotent s : upper (upper s) = upper s.
Proof.
  unfold upper. rewrite map_map. apply map_ext. intros c.
  destruct c as [[] [] [] [] [] [] [] []]; reflexivity.
Qed.

Lemma DATA_SIZES_not_reserved d size :
  DATA_SIZES d = Some size ->
  0 < size /\ str_eqb d (L "TIMES") = false /\ RESERVE_SIZES d = None.
Proof.
  unfold DATA_SIZES.
  repeat match goal with
         | |- context [if str_eqb d ?k then _ else _] =>
             let E := fresh "E" in
             destruct (str_eqb d k) eqn:E;
             [apply str_eqb_eq in E; subst d; intros [= <-];
              vm_compute; repeat split; reflexivity|]
         end.
  discriminate.
Qed.

Section Sizes.
Variable F : Type.
Variable little_endian : bool.
Variable float_bytes : Z -> bool -> F -> list Z.
Variable size : Z.
Hypothesis size_pos : 0 < size.
Hypothesis float_width :
  forall f, Z.of_nat (length (float_bytes size little_endian f)) = size.

Lemma values_size_from (values : list (value F)) (a : Z) :
  fold_left (fun total v => match v with
                            | VBytes b => total + Z.of_nat (length b)
                            | _ => total + size
                            end) values a
  = a + values_size F size values.
Proof.
  unfold values_size. revert a. induction values as [|v vs IH]; intros a; cbn [fold_left].
  - lia.
  - rewrite IH, (IH (match v with
                     | VBytes b => 0 + Z.of_nat (length b)
                     | _ => 0 + size
                     end)).
    destruct v; lia.
Qed.

Lemma encode_values_length (values : list (value F)) (bs : list Z) :
  encode_values F little_endian float_bytes size values = Some bs ->
  Z.of_nat (length bs) = values_size F size values.
Proof.
  revert bs. induction values as [|v vs IH]; intros bs.
  - intros [= <-]. reflexivity.
  - cbn [encode_values].
    destruct (match v with
              | VInt z => int_to_bytes size little_endian z
              | VFloat f => if (size =? 4) || (size =? 8)
                            then Some (float_bytes size little_endian f) else None
              | VBytes b => Some (bytes_of_str b)
              end) as [this|] eqn:Et; [|discriminate].
    destruct (encode_values F little_endian float_bytes size vs) as [more|]; [|discriminate].
    intros [= <-]. rewrite length_app, Nat2Z.inj_add, (IH more eq_refl).
    unfold values_size at 2. cbn [fold_left]. rewrite values_size_from.
    assert (Z.of_nat (length this)
            = match v with VBytes b => 0 + Z.of_nat (length b) | _ => 0 + size end) as ->;
      [|reflexivity].
    destruct v as [z|f|b].
    + unfold int_to_bytes in Et. cbv zeta in Et.
      destruct (if z <? 0 then - 2 ^ (8 * size - 1) <=? z else z <? 2 ^ (8 * size));
        [|discriminate].
      injection Et as <-.
      destruct (ImageFacts.le_bytes_spec (Z.to_nat size) (z mod 2 ^ (8 * size))) as [Hl _].
      destruct little_endian; rewrite ?length_rev, Hl; lia.
    + destruct ((size =? 4) || (size =? 8)); [|discriminate].
      injection Et as <-. rewrite float_width. lia.
    + injection Et as <-. unfold bytes_of_str. rewrite length_map. lia.
Qed.

End Sizes.

(** X16. For a line without semicolon and without blanks around it whose
    directive is one of [DB] ... [DZ]: when the second pass encodes its
    values, the number of bytes is the size the first pass computed for
    the line (floats are packed in the width of the directive). *)
Theorem data_directive_size_agrees
        (F : Type) (py_float : str -> option F) (little_endian : bool)
        (constants labels : gmap str Z) (float_bytes : Z -> bool -> F -> list Z)
        (times_size incbin_size : str -> size_result)
        (line directive : str) (rest : list str) (size : Z) (data : list Z) :
  ch_in ";" line = false ->
  strip line = line ->
  split_ws1 line = directive :: rest ->
  DATA_SIZES (upper directive) = Some size ->
  (forall f, Z.of_nat (length (float_bytes size little_endian f)) = size) ->
  data_directive_bytes F py_float little_endian constants labels float_bytes line
  = Some data ->
  calculate_size F py_float constants labels times_size incbin_size line
  = SizeInt (Z.of_nat (length data)).
Proof.
  intros Hsemi Hstrip Hsplit Hsize Hfloat.
  destruct (DATA_SIZES_not_reserved _ _ Hsize) as (Hpos & Htimes & Hres).
  unfold data_directive_bytes, calculate_size. rewrite Hsemi. cbv zeta.
  rewrite Hstrip, Hsplit, Htimes, Hres, Hsize. unfold encode_data.
  rewrite upper_idempotent, Hsize.
  intros H. apply (encode_values_length F little_endian float_bytes size Hpos Hfloat) in H.
  rewrite H. destruct rest as [|r rest']; reflexivity.
Qed.

(** [DW 1, 'ab', 0x10]: two bytes for each number and two for the
    characters. *)
Lemma data_directive_size_agrees_witness :
  calculate_size unit no_float known_constants ∅
                 (fun _ => SizeOther) (fun _ => SizeOther) (L "DW 1, 'ab', 0x10")
  = SizeInt (Z.of_nat (length [1; 0; 97; 98; 16; 0])).
Proof.
  apply (data_directive_size_agrees unit no_float true known_constants ∅
           (fun _ _ _ => [0; 0]) (fun _ => SizeOther) (fun _ => SizeOther)
           (L "DW 1, 'ab', 0x10") (L "DW") [L "1, 'ab', 0x10"] 2).
  - reflexivity.
  - reflexivity.
  - reflexivity.
  - reflexivity.
  - intros f. reflexivity.
  - vm_compute. reflexivity.
Defined.

End DataFacts.

Module LayoutFacts.
Import Linker LayoutSpec.

Section Layout.
Variable reencode : str -> Z -> gmap str Z -> option (Z * Z).
Variable global_labels : gmap str Z.

(** *** Re-encoding keeps address and text *)

Lemma reencode_one_address i :
  i_address (fst (reencode_one reencode global_labels i)) = i_address i.
Proof.
  unfold reencode_one.
  destruct (startswith_any _ _); [reflexivity|].
  destruct (reencode _ _ _) as [[b s]|]; reflexivity.
Qed.

Lemma reencode_one_source i :
  i_source (fst (reencode_one reencode global_labels i)) = i_source i.
Proof.
  unfold reencode_one.
  destruct (startswith_any _ _); [reflexivity|].
  destruct (reencode _ _ _) as [[b s]|]; reflexivity.
Qed.

Lemma reencode_one_size i :
  snd (reencode_one reencode global_labels i) = false ->
  i_size (fst (reencode_one reencode global_labels i)) = i_size i.
Proof.
  unfold reencode_one.
  destruct (startswith_any _ _); [reflexivity|].
  destruct (reencode _ _ _) as [[b s]|]; [|reflexivity].
  cbn [fst snd i_size]. intros H. apply negb_false_iff, Z.eqb_eq in H. exact H.
Qed.

(** *** The sequential layout *)

Lemma relayout_length prev l : length (relayout prev l) = length l.
Proof.
  revert prev. induction l as [|[old new] l IH]; intros prev; [reflexivity|].
  cbn [relayout length]. rewrite IH. reflexivity.
Qed.

Lemma relayout_after prev l :
  laid_out (relayout prev l) = true /\
  match prev, relayout prev l with
  | Some (_, pf), f :: _ => i_address pf + i_size pf <= i_address f
  | _, _ => True
  end.
Proof.
  revert prev. induction l as [|[old new] l IH]; intros prev.
  - cbn. destruct prev as [[? ?]|]; split; trivial.
  - cbn [relayout]. cbv zeta.
    set (fin := ObjInstruction _ _ _ _ _).
    destruct (IH (Some (old, fin))) as [Hl Hn]. split.
    + destruct (relayout (Some (old, fin)) l) as [|f r] eqn:E; [reflexivity|].
      cbn [laid_out]. cbn [laid_out] in Hl. rewrite Hl, andb_true_r.
      apply Z.leb_le. exact Hn.
    + destruct prev as [[po pf]|]; [|trivial].
      subst fin. cbn [i_address].
      destruct (i_address po + i_size po <? i_address new) eqn:E; [|lia].
      apply Z.ltb_lt in E. lia.
Qed.

Lemma relayout_fixed olds news prev :
  Forall2 (fun o n => i_address n = i_address o /\ i_size n = i_size o) olds news ->
  laid_out olds = true ->
  match prev, olds with
  | Some (po, pf), o :: _ =>
      i_address pf = i_address po /\ i_size pf = i_size po /\
      i_address po + i_size po <= i_address o
  | _, _ => True
  end ->
  relayout prev (combine olds news) = news.
Proof.
  intros H. revert prev. induction H as [|o n olds news [Ha Hs] H IH]; intros prev Hl Hp.
  - reflexivity.
  - cbn [combine relayout]. cbv zeta.
    assert (E : match prev with
                | None => i_address n
                | Some (prev_old, prev_new) =>
                    if i_address prev_old + i_size prev_old <? i_address n
                    then i_address prev_new + i_size prev_new
                         + (i_address n - (i_address prev_old + i_size prev_old))
                    else i_address prev_new + i_size prev_new
                end = i_address n).
    { destruct prev as [[po pf]|]; [|reflexivity].
      destruct Hp as (E1 & E2 & E3).
      destruct (i_address po + i_size po <? i_address n) eqn:E; [lia|].
      apply Z.ltb_ge in E. lia. }
    rewrite E.
    assert (En : ObjInstruction (i_address n) (i_opcode n) (i_operand n) (i_source n) (i_size n)
                 = n) by (destruct n; reflexivity).
    rewrite En. f_equal. apply IH.
    + destruct olds as [|o' olds']; [reflexivity|].
      cbn [laid_out] in Hl. apply andb_true_iff in Hl as [_ Hl]. exact Hl.
    + destruct olds as [|o' olds']; [trivial|].
      cbn [laid_out] in Hl. apply andb_true_iff in Hl as [Hl _].
      apply Z.leb_le in Hl. repeat split; trivial.
Qed.

(** *** A pass that changes no size *)

Lemma unchanged_pairs l :
  existsb snd (map (reencode_one reencode global_labels) l) = false ->
  Forall2 (fun o n => i_address n = i_address o /\ i_size n = i_size o)
          l (map fst (map (reencode_one reencode global_labels) l)).
Proof.
  induction l as [|i l IH]; cbn [map existsb]; intros H; constructor.
  - apply orb_false_iff in H as [H _]. split.
    + apply reencode_one_address.
    + apply reencode_one_size, H.
  - apply IH. apply orb_false_iff in H as [_ H]. exact H.
Qed.

Lemma stable_instructions o :
  laid_out (instructions o) = true ->
  snd (optimize_object reencode global_labels o) = false ->
  instructions (fst (optimize_object reencode global_labels o))
  = map fst (map (reencode_one reencode global_labels) (instructions o)).
Proof.
  intros Hl Hc. unfold optimize_object in *. cbv zeta in *. cbn [fst snd instructions] in *.
  apply relayout_fixed; [apply unchanged_pairs, Hc|exact Hl|trivial].
Qed.

(** *** The address map and the labels *)

Lemma build_addr_map_identity (l : list obj_instruction) (acc : gmap Z Z) :
  (forall k v, acc !! k = Some v -> v = k) ->
  forall k v,
    fold_left (fun acc p => <[i_address (fst p) := i_address (snd p)]> acc)
              (combine l l) acc !! k = Some v -> v = k.
Proof.
  revert acc. induction l as [|i l IH]; intros acc Hacc k v; cbn [combine fold_left].
  - apply Hacc.
  - apply IH. intros k' v'. cbn [fst snd].
    destruct (decide (i_address i = k')) as [->|Hne].
    + rewrite lookup_insert_eq. intros [= <-]. reflexivity.
    + rewrite lookup_insert_ne by exact Hne. apply Hacc.
Qed.

Lemma find_index_nth a l base idx :
  find_index a l base = Some idx ->
  exists k i, idx = (base + k)%nat /\ nth_error l k = Some i /\ i_address i = a.
Proof.
  revert base. induction l as [|i l IH]; intros base; cbn [find_index]; [discriminate|].
  destruct (i_address i =? a) eqn:E.
  - intros [= <-]. exists O, i. apply Z.eqb_eq in E. repeat split; [lia|exact E].
  - intros H. destruct (IH _ H) as (k & j & -> & Hk & Hj).
    exists (S k), j. repeat split; [lia|exact Hk|exact Hj].
Qed.

Lemma update_label_stable (news : list obj_instruction) (n : str) (a : Z) :
  let a' := update_label news news (build_addr_map news news) n a in
  a' = a \/
  exists idx i next,
    nth_error news (S idx) = Some i /\ nth_error news (S (S idx)) = Some next /\
    i_address i = a /\
    startswith_any (upper (strip (i_source i))) branch_prefixes = true /\
    a' = i_address next.
Proof.
  cbv zeta. unfold update_label.
  assert (Hid : forall k v, build_addr_map news news !! k = Some v -> v = k).
  { unfold build_addr_map. apply build_addr_map_identity. intros k v.
    rewrite lookup_empty. discriminate. }
  destruct (build_addr_map news news !! a) as [mapped|] eqn:Em.
  - apply Hid in Em. subst mapped.
    destruct (find_index a news 0) as [idx|] eqn:Ef; [|left; reflexivity].
    destruct (find_index_nth _ _ _ _ Ef) as (k & i & -> & Hk & Hi).
    cbn [Nat.add]. rewrite Hk.
    destruct (nth_error news (S k)) as [next|] eqn:En; [|left; reflexivity].
    destruct (startswith_any (upper (strip (i_source i))) branch_prefixes) eqn:Eb;
      [|left; reflexivity].
    destruct k as [|k]; [left; reflexivity|].
    cbn [Nat.eqb orb andb].
    destruct (negb _); [|left; reflexivity].
    right. exists k, i, next. repeat split; assumption.
  - left.
    destruct (List.find _ _) as [old_addr|]; [|reflexivity].
    destruct (build_addr_map news news !! old_addr) as [v|] eqn:Ev.
    + apply Hid in Ev. subst v. cbn. lia.
    + cbn. lia.
Qed.

Lemma find_index_reencoded a l base :
  find_index a (map fst (map (reencode_one reencode global_labels) l)) base
  = find_index a l base.
Proof.
  revert base. induction l as [|i l IH]; intros base; [reflexivity|].
  cbn [map find_index]. rewrite reencode_one_address, IH. reflexivity.
Qed.

Lemma build_addr_map_member (l : list obj_instruction) (k : nat) (i : obj_instruction) :
  nth_error l k = Some i -> build_addr_map l l !! i_address i = Some (i_address i).
Proof.
  unfold build_addr_map. intros H.
  assert (G : forall acc : gmap Z Z,
             (acc !! i_address i = Some (i_address i) \/ exists k, nth_error l k = Some i) ->
             (forall k v, acc !! k = Some v -> v = k) ->
             fold_left (fun acc p => <[i_address (fst p) := i_address (snd p)]> acc)
                       (combine l l) acc !! i_address i = Some (i_address i)).
  { clear H k. induction l as [|j l IH]; intros acc Hin Hid; cbn [combine fold_left].
    - destruct Hin as [Hin|[k Hk]]; [exact Hin|destruct k; discriminate].
    - cbn [fst snd]. apply IH.
      + destruct (decide (i_address j = i_address i)) as [E|Hne].
        * left. rewrite E. apply lookup_insert_eq.
        * destruct Hin as [Hin|[[|k] Hk]].
          -- left. rewrite lookup_insert_ne by exact Hne. exact Hin.
          -- cbn in Hk. injection Hk as ->. contradiction.
          -- right. exists k. exact Hk.
      + intros k' v'. destruct (decide (i_address j = k')) as [->|Hne].
        * rewrite lookup_insert_eq. intros [= <-]. reflexivity.
        * rewrite lookup_insert_ne by exact Hne. apply Hid. }
  apply G; [right; exists k; exact H|].
  intros k' v'. rewrite lookup_empty. discriminate.
Qed.

End Layout.

(** X17. After a pass of the optimisation loop no instruction of an object
    file starts before the end of its predecessor, whatever the layout
    was before and whatever sizes the encoder returned; the number of
    instructions is unchanged. *)
Theorem optimize_object_lays_out
        (reencode : str -> Z -> gmap str Z -> option (Z * Z))
        (global_labels : gmap str Z) (o : ObjectFile) :
  laid_out (instructions (fst (optimize_object reencode global_labels o))) = true /\
  length (instructions (fst (optimize_object reencode global_labels o)))
  = length (instructions o).
Proof.
  unfold optimize_object. cbv zeta. cbn [fst instructions]. split.
  - apply relayout_after.
  - rewrite relayout_length, length_combine, !length_map. lia.
Qed.

(** X18. A pass that reports no size change leaves every instruction of a
    laid-out object file at its address and with its size and text. *)
Theorem stable_pass_keeps_layout
        (reencode : str -> Z -> gmap str Z -> option (Z * Z))
        (global_labels : gmap str Z) (o : ObjectFile) :
  laid_out (instructions o) = true ->
  snd (optimize_object reencode global_labels o) = false ->
  let o' := fst (optimize_object reencode global_labels o) in
  map i_address (instructions o') = map i_address (instructions o) /\
  map i_size (instructions o') = map i_size (instructions o) /\
  map i_source (instructions o') = map i_source (instructions o).
Proof.
  intros Hl Hc. cbv zeta. rewrite (stable_instructions _ _ _ Hl Hc).
  assert (Hu := unchanged_pairs reencode global_labels (instructions o)).
  unfold optimize_object in Hc. cbv zeta in Hc. cbn [snd] in Hc. specialize (Hu Hc).
  clear Hl Hc. induction (instructions o) as [|i l IH]; [repeat split|].
  inversion Hu as [|? ? ? ? [Ha Hs] Hu']; subst.
  destruct (IH Hu') as (I1 & I2 & I3). cbn [map].
  rewrite Ha, Hs, I1, I2, I3, reencode_one_source. repeat split.
Qed.

(** The layout of [loop_object] under an encoder that keeps everything. *)
Lemma stable_pass_keeps_layout_witness :
  let o' := fst (optimize_object keep_all ∅ loop_object) in
  map i_address (instructions o') = map i_address (instructions loop_object) /\
  map i_size (instructions o') = map i_size (instructions loop_object) /\
  map i_source (instructions o') = map i_source (instructions loop_object).
Proof.
  apply (stable_pass_keeps_layout keep_all ∅ loop_object); reflexivity.
Defined.

(** X19. In a pass that reports no size change over a laid-out object file, a
    label keeps its address, with one exception: a label at the address
    of an instruction other than the first whose text begins with [J],
    [CALL] or [LOOP] may be moved to the address of the instruction after
    it. *)
Theorem stable_pass_labels
        (reencode : str -> Z -> gmap str Z -> option (Z * Z))
        (global_labels : gmap str Z) (o : ObjectFile) (n : str) (a : Z) :
  laid_out (instructions o) = true ->
  snd (optimize_object reencode global_labels o) = false ->
  labels o !! n = Some a ->
  exists a',
    labels (fst (optimize_object reencode global_labels o)) !! n = Some a' /\
    (a' = a \/
     exists idx i next,
       nth_error (instructions o) (S idx) = Some i /\
       nth_error (instructions o) (S (S idx)) = Some next /\
       i_address i = a /\
       startswith_any (upper (strip (i_source i))) branch_prefixes = true /\
       a' = i_address next).
Proof.
  intros Hl Hc Hn.
  pose proof (stable_instructions _ _ _ Hl Hc) as Hi.
  unfold optimize_object in *. cbv zeta in *. cbn [fst snd instructions labels] in *.
  rewrite Hi. clear Hi.
  set (news := map fst (map (reencode_one reencode global_labels) (instructions o))).
  eexists. split.
  - rewrite map_lookup_imap, Hn. reflexivity.
  - destruct (update_label_stable news n a) as [E|(idx & i & next & H1 & H2 & H3 & H4 & H5)];
      [left; exact E|right].
    subst news. rewrite map_map in H1, H2.
    rewrite nth_error_map in H1, H2.
    destruct (nth_error (instructions o) (S idx)) as [i0|] eqn:E1; [|discriminate].
    destruct (nth_error (instructions o) (S (S idx))) as [n0|] eqn:E2; [|discriminate].
    cbn [option_map] in H1, H2. injection H1 as <-. injection H2 as <-.
    exists idx, i0, n0. rewrite reencode_one_address, reencode_one_source in *.
    repeat split; assumption.
Qed.

(** The label [again] of [loop_object], which sits on the jump, moves to
    the instruction after the jump. *)
Lemma stable_pass_labels_witness :
  exists a',
    labels (fst (optimize_object keep_all ∅ loop_object)) !! L "again" = Some a' /\
    (a' = 2147483650 \/
     exists idx i next,
       nth_error (instructions loop_object) (S idx) = Some i /\
       nth_error (instructions loop_object) (S (S idx)) = Some next /\
       i_address i = 2147483650 /\
       startswith_any (upper (strip (i_source i))) branch_prefixes = true /\
       a' = i_address next).
Proof.
  apply (stable_pass_labels keep_all ∅ loop_object (L "again") 2147483650); reflexivity.
Defined.

(** X20. The exception happens: in such a pass a label whose name is not of
    the form [..._...Assembly] and whose address is first reached at a
    jump, call or loop instruction other than the first, followed by
    another instruction, is moved to that next instruction, although no
    instruction moved. *)
Theorem label_on_jump_moves
        (reencode : str -> Z -> gmap str Z -> option (Z * Z))
        (global_labels : gmap str Z) (o : ObjectFile) (n : str) (a : Z)
        (idx : nat) (i next : obj_instruction) :
  laid_out (instructions o) = true ->
  snd (optimize_object reencode global_labels o) = false ->
  labels o !! n = Some a ->
  find_index a (instructions o) 0 = Some (S idx) ->
  nth_error (instructions o) (S idx) = Some i ->
  nth_error (instructions o) (S (S idx)) = Some next ->
  startswith_any (upper (strip (i_source i))) branch_prefixes = true ->
  ch_in "_" n && endswith n (L "Assembly") = false ->
  labels (fst (optimize_object reencode global_labels o)) !! n = Some (i_address next).
Proof.
  intros Hl Hc Hn Hf Hi Hx Hb Hname.
  pose proof (stable_instructions _ _ _ Hl Hc) as Hs.
  unfold optimize_object in *. cbv zeta in *. cbn [fst snd instructions labels] in *.
  rewrite Hs. clear Hs.
  set (news := map fst (map (reencode_one reencode global_labels) (instructions o))).
  rewrite map_lookup_imap, Hn. cbn. f_equal.
  assert (Hi' : nth_error news (S idx) = Some (fst (reencode_one reencode global_labels i))).
  { subst news. rewrite map_map, nth_error_map, Hi. reflexivity. }
  assert (Hx' : nth_error news (S (S idx))
                = Some (fst (reencode_one reencode global_labels next))).
  { subst news. rewrite map_map, nth_error_map, Hx. reflexivity. }
  assert (Ha : i_address i = a).
  { destruct (find_index_nth _ _ _ _ Hf) as (k & j & Ek & Hk & Hj).
    cbn [Nat.add] in Ek. subst k. rewrite Hi in Hk. injection Hk as <-. exact Hj. }
  unfold update_label.
  pose proof (build_addr_map_member news _ _ Hi') as Hm.
  rewrite reencode_one_address, Ha in Hm. rewrite Hm.
  subst news. rewrite find_index_reencoded, Hf.
  fold (map fst (map (reencode_one reencode global_labels) (instructions o))) in *.
  rewrite Hi', Hx', reencode_one_source, Hb, Hname, reencode_one_address. reflexivity.
Qed.

(** The label [again] of [loop_object] after one pass. *)
Lemma label_on_jump_moves_witness :
  labels (fst (optimize_object keep_all ∅ loop_object)) !! L "again" = Some 2147483652.
Proof.
  apply (label_on_jump_moves keep_all ∅ loop_object (L "again") 2147483650 O
           (ObjInstruction 2147483650 60 None (L "J again") 2)
           (ObjInstruction 2147483652 0 None (L "NOP") 2)); reflexivity.
Defined.

End LayoutFacts.
